(** * Pairwise sequence alignment (Needleman-Wunsch / Smith-Waterman)

    A shallow embedding of [src/directional_cell.py] and
    [src/sequence_alignment.py], and the properties of the matrix
    construction and of the traceback enumeration.

    Conventions of the embedding.
    - Python [str] is [string]; a one-character string stands for a symbol.
    - Python [int] is [Z].  The cells of [score_matrix] are NumPy [int64]
      numbers: they are kept as [Z], an addition on them wraps around
      ([np_add]) and storing a Python [int] into the array checks the range
      ([np_store_int]).
    - A Python exception is a [Raise] in the [result] monad.
    - A two-dimensional NumPy array is a list of rows; Python and NumPy
      indices are [Z] and are normalised by [py_index] (negative indices
      count from the end, anything else out of range raises [IndexError]).
    - The [set] of finished alignments is a [gset]; the nested [defaultdict]
      of substitution scores is a [gmap] of [gmap]s. *)

From Stdlib Require Import ZArith String Ascii List Lia.
From stdpp Require Import gmap strings list sorting pretty.

Local Open Scope string_scope.
Local Open Scope Z_scope.

(** ** Exceptions *)

Inductive exn : Set :=
  | TypeError | OverflowError | IndexError | AttributeError | ValueError.

Inductive result (A : Type) : Type :=
  | Ok (a : A)
  | Raise (e : exn).
Arguments Ok {A} a.
Arguments Raise {A} e.

#[global] Instance result_ret : MRet result := @Ok.
#[global] Instance result_bind : MBind result := fun A B f r =>
  match r with
  | Ok a => f a
  | Raise e => Raise e
  end.

Definition is_ok {A} (r : result A) : bool :=
  match r with Ok _ => true | Raise _ => false end.

(** [for x in l: s = f(s, x)] with exceptions. *)
Fixpoint foldM {A S : Type} (f : S -> A -> result S) (l : list A) (s : S) : result S :=
  match l with
  | [] => Ok s
  | x :: l' => s' ← f s x; foldM f l' s'
  end.

(** ** Python and NumPy primitives *)

Module Py.

(** Index normalisation shared by [str.__getitem__] and NumPy. *)
Definition py_index (len : nat) (i : Z) : result nat :=
  if (0 <=? i) && (i <? Z.of_nat len) then Ok (Z.to_nat i)
  else if (- Z.of_nat len <=? i) && (i <? 0) then Ok (Z.to_nat (Z.of_nat len + i))
  else Raise IndexError.

(** [s[i]]: a one-character string. *)
Definition str_getitem (s : string) (i : Z) : result string :=
  k ← py_index (String.length s) i;
  match String.get k s with
  | Some c => Ok (String c EmptyString)
  | None => Raise IndexError
  end.

(** [enumerate(s)] *)
Definition enumerate (s : string) : list (nat * ascii) :=
  imap (fun i c => (i, c)) (list_ascii_of_string s).

(** [max(a, b)] on integers. *)
Definition py_max (a b : Z) : Z := if a <? b then b else a.

Definition int64_min : Z := - 2 ^ 63.
Definition int64_max : Z := 2 ^ 63 - 1.

Definition fits_int64 (z : Z) : bool := (int64_min <=? z) && (z <=? int64_max).

Definition wrap64 (z : Z) : Z := (z + 2 ^ 63) mod 2 ^ 64 - 2 ^ 63.

(** [a + b] where [a] is an [int64] scalar. *)
Definition np_add (a b : Z) : Z := wrap64 (a + b).

(** Conversion of a Python [int] stored into an [int64] array. *)
Definition np_store_int (z : Z) : result Z :=
  if fits_int64 z then Ok z else Raise OverflowError.

(** [np.max] of a flat collection. *)
Definition np_max (l : list Z) : result Z :=
  match l with
  | [] => Raise ValueError
  | x :: l' => Ok (fold_left Z.max l' x)
  end.

Abbreviation matrix A := (list (list A)).

(** [np.zeros] / [np.full] *)
Definition np_full {A} (rows cols : nat) (v : A) : matrix A :=
  replicate rows (replicate cols v).

Definition shape {A} (M : matrix A) : nat * nat :=
  (length M, length (default [] (head M))).

(** Shape of the view [M[1:, 1:]]. *)
Definition shape_from_1 {A} (M : matrix A) : nat * nat :=
  (fst (shape M) - 1, snd (shape M) - 1)%nat.

(** [M[r, c]] (and [M[r][c]]) *)
Definition mat_get {A} (M : matrix A) (r c : Z) : result A :=
  i ← py_index (length M) r;
  match M !! i with
  | None => Raise IndexError
  | Some row =>
      j ← py_index (length row) c;
      match row !! j with
      | None => Raise IndexError
      | Some v => Ok v
      end
  end.

(** [M[r, c] = v] *)
Definition mat_set {A} (M : matrix A) (r c : Z) (v : A) : result (matrix A) :=
  i ← py_index (length M) r;
  match M !! i with
  | None => Raise IndexError
  | Some row =>
      j ← py_index (length row) c;
      Ok (<[i := <[j := v]> row]> M)
  end.

(** [np.argwhere(M == v).tolist()], in row-major order. *)
Definition argwhere_eq (M : matrix Z) (v : Z) : list (nat * nat) :=
  concat (imap (fun i row =>
    omap (fun jx : nat * Z => if snd jx =? v then Some (i, fst jx) else None)
         (imap (fun j x => (j, x)) row)) M).

End Py.
Export Py.

(** ** [src/directional_cell.py] *)

Record DirectionalCell : Set := mkDirectionalCell {
  up : bool;
  diagonal : bool;
  left : bool;
  num_directions : Z
}.

(** [DirectionalCell(up=.., diagonal=.., left=..)] *)
Definition new_cell (u d l : bool) : DirectionalCell :=
  mkDirectionalCell u d l (Z.b2z u + Z.b2z d + Z.b2z l).

Definition get_directions (cell : DirectionalCell) : bool * bool * bool :=
  (up cell, diagonal cell, left cell).

(** ** [src/sequence_alignment.py] *)

Record SequenceAlignment : Type := mkSequenceAlignment {
  seq1 : string;
  seq2 : string;
  strategy : string;
  gap_penalty : Z;
  alignments : gmap ascii (gmap ascii Z)
}.

(** [alignments[a][b] = v] on the nested [defaultdict]. *)
Definition alignments_setitem (t : gmap ascii (gmap ascii Z)) (a b : ascii) (v : Z)
  : gmap ascii (gmap ascii Z) :=
  <[a := <[b := v]> (default ∅ (t !! a))]> t.

(** [alignments[a][b]].  The outer factory builds an empty inner
    [defaultdict]; the inner factory is [lambda x: 0], which the missing-key
    hook calls without an argument: the call raises [TypeError]. *)
Definition alignments_getitem (t : gmap ascii (gmap ascii Z)) (a b : ascii) : result Z :=
  match default ∅ (t !! a) !! b with
  | Some v => Ok v
  | None => Raise TypeError
  end.

(** The loops of [_load_substitution_matrix] (lines 54-59), on what the
    lines before them leave: [rows] is [seq1], the joined row labels, [cols]
    is [seq2], the joined column labels, and [grid] is [substitution_matrix],
    which NumPy holds as a rectangular [int64] array.  Reading and
    converting the file (lines 49-52), where pandas and NumPy raise errors
    of their own on a malformed table, is not modelled. *)
Definition _load_substitution_matrix (rows cols : string) (grid : matrix Z)
  : result (gmap ascii (gmap ascii Z)) :=
  foldM (fun t ic1 =>
    foldM (fun t jc2 =>
      v ← mat_get grid (Z.of_nat (fst ic1)) (Z.of_nat (fst jc2));
      Ok (alignments_setitem t (snd ic1) (snd jc2) v))
      (enumerate cols) t)
    (enumerate rows) ∅.

Definition mats : Type := matrix Z * matrix DirectionalCell.

Section Build.
Variable self : SequenceAlignment.

(** Body of the first edge loop. *)
Definition fill_edge_col (st : mats) (i : nat) : result mats :=
  v ← np_store_int (Z.of_nat i * gap_penalty self);
  S' ← mat_set (fst st) (Z.of_nat i) 0 v;
  D' ← mat_set (snd st) (Z.of_nat i) 0 (new_cell true false false);
  Ok (S', D').

(** Body of the second edge loop. *)
Definition fill_edge_row (st : mats) (i : nat) : result mats :=
  v ← np_store_int (Z.of_nat i * gap_penalty self);
  S' ← mat_set (fst st) 0 (Z.of_nat i) v;
  D' ← mat_set (snd st) 0 (Z.of_nat i) (new_cell false false true);
  Ok (S', D').

(** The three candidate scores and the stored score of one cell. *)
Definition best_of (up_score diagonal_score left_score : Z) : result Z :=
  best_score ← np_max [up_score; diagonal_score; left_score];
  Ok (if String.eqb (strategy self) "local" then py_max best_score 0 else best_score).

(** Body of the dynamic-programming loops.  The loops only run when both
    sequences are non-empty, so the edge loops have already stored
    [1 * gap_penalty] into the array: the penalty added here fits [int64]. *)
Definition fill_cell (i : nat) (nucleotide1 : ascii) (st : mats) (jn : nat * ascii)
  : result mats :=
  let j := fst jn in
  let nucleotide2 := snd jn in
  s_d ← mat_get (fst st) (Z.of_nat i) (Z.of_nat j);
  sub ← alignments_getitem (alignments self) nucleotide1 nucleotide2;
  let diagonal_score := np_add s_d sub in
  s_u ← mat_get (fst st) (Z.of_nat i) (Z.of_nat j + 1);
  let up_score := np_add s_u (gap_penalty self) in
  s_l ← mat_get (fst st) (Z.of_nat i + 1) (Z.of_nat j);
  let left_score := np_add s_l (gap_penalty self) in
  best_score ← best_of up_score diagonal_score left_score;
  S' ← mat_set (fst st) (Z.of_nat i + 1) (Z.of_nat j + 1) best_score;
  let directional_cell :=
    new_cell (up_score =? best_score) (diagonal_score =? best_score)
             (left_score =? best_score) in
  D' ← mat_set (snd st) (Z.of_nat i + 1) (Z.of_nat j + 1) directional_cell;
  Ok (S', D').

Definition fill_row (st : mats) (ic : nat * ascii) : result mats :=
  foldM (fill_cell (fst ic) (snd ic)) (enumerate (seq2 self)) st.

Definition _create_score_and_directional_matrices : result mats :=
  let m := String.length (seq1 self) in
  let n := String.length (seq2 self) in
  let score_matrix := np_full (m + 1) (n + 1) 0 in
  let directional_matrix := np_full (m + 1) (n + 1) (new_cell false false false) in
  st ← foldM fill_edge_col (seq 1 m) (score_matrix, directional_matrix);
  st ← foldM fill_edge_row (seq 1 n) st;
  foldM fill_row (enumerate (seq1 self)) st.

End Build.

(** A pending search state [[posY, posX, seq1, seq2]]. *)
Definition state : Type := Z * Z * string * string.

(** Order of [sorted] on the finished pairs: tuples of [str] compare
    lexicographically, strings by code point. *)
Definition pair_compare (a b : string * string) : comparison :=
  match String.compare (fst a) (fst b) with
  | Eq => String.compare (snd a) (snd b)
  | c => c
  end.

Definition pair_ge (a b : string * string) : Prop := pair_compare a b <> Lt.

#[global] Instance pair_ge_dec : RelDecision pair_ge.
Proof. intros a b. unfold pair_ge. destruct (pair_compare a b); [left|right|left]; congruence. Defined.

(** [sorted(solution_sequences, reverse=True)] *)
Definition sorted_reverse (sols : gset (string * string)) : list (string * string) :=
  merge_sort pair_ge (elements sols).

Section Traceback.
Variable self : SequenceAlignment.
Variable score_matrix : matrix Z.
Variable directional_matrix : matrix DirectionalCell.

(** The [match self.strategy] block: [max_score] and [solution_states].
    The Python list is kept last element first, so that [pop()] takes the
    head. *)
Definition initial_states : result (Z * list state) :=
  if String.eqb (strategy self) "global" then
    max_score ← mat_get score_matrix (-1) (-1);
    Ok (max_score,
        [(Z.of_nat (fst (shape_from_1 directional_matrix)),
          Z.of_nat (snd (shape_from_1 directional_matrix)), "", "")])
  else if String.eqb (strategy self) "local" then
    max_score ← np_max (concat score_matrix);
    Ok (max_score,
        rev (map (fun cell : nat * nat => (Z.of_nat (fst cell), Z.of_nat (snd cell), "", ""))
                 (argwhere_eq score_matrix max_score)))
  else Raise AttributeError.

(** [cell.num_directions == 0 or (strategy == 'local' and score_matrix[posY, posX] == 0)] *)
Definition is_finished (posY posX : Z) (cell : DirectionalCell) : result bool :=
  if num_directions cell =? 0 then Ok true
  else if String.eqb (strategy self) "local" then
    s ← mat_get score_matrix posY posX; Ok (s =? 0)
  else Ok false.

Definition push_left (posY posX : Z) (p1 p2 : string) (states : list state)
  : result (list state) :=
  c2 ← str_getitem (seq2 self) (- posX);
  Ok ((posY, posX - 1, p1 +:+ "-", p2 +:+ c2) :: states).

Definition push_up (posY posX : Z) (p1 p2 : string) (states : list state)
  : result (list state) :=
  c1 ← str_getitem (seq1 self) (- posY);
  Ok ((posY - 1, posX, p1 +:+ c1, p2 +:+ "-") :: states).

Definition push_diagonal (posY posX : Z) (p1 p2 : string) (states : list state)
  : result (list state) :=
  c1 ← str_getitem (seq1 self) (- posY);
  c2 ← str_getitem (seq2 self) (- posX);
  Ok ((posY - 1, posX - 1, p1 +:+ c1, p2 +:+ c2) :: states).

(** One turn of the [while] loop, after [pop()]. *)
Definition traceback_step (s : state) (states : list state)
    (solution_sequences : gset (string * string))
  : result (list state * gset (string * string)) :=
  let '(posY, posX, p1, p2) := s in
  cell ← mat_get directional_matrix posY posX;
  fin ← is_finished posY posX cell;
  if fin : bool then Ok (states, {[ (p1, p2) ]} ∪ solution_sequences)
  else
    let '(u, d, l) := get_directions cell in
    states ← (if l : bool then push_left posY posX p1 p2 states else Ok states);
    states ← (if u : bool then push_up posY posX p1 p2 states else Ok states);
    states ← (if d : bool then push_diagonal posY posX p1 p2 states else Ok states);
    Ok (states, solution_sequences).

(** [while solution_states and len(solution_sequences) < n]; [None] when
    the fuel runs out before the loop ends. *)
Fixpoint traceback_loop (fuel : nat) (n : Z) (solution_states : list state)
    (solution_sequences : gset (string * string))
  : option (result (gset (string * string))) :=
  match solution_states with
  | [] => Some (Ok solution_sequences)
  | s :: states =>
      if Z.of_nat (size solution_sequences) <? n then
        match fuel with
        | O => None
        | S fuel' =>
            match traceback_step s states solution_sequences with
            | Raise e => Some (Raise e)
            | Ok st => traceback_loop fuel' n (fst st) (snd st)
            end
        end
      else Some (Ok solution_sequences)
  end.

Definition _traceback (fuel : nat) (n : Z)
  : option (result (list (string * string) * Z)) :=
  match initial_states with
  | Raise e => Some (Raise e)
  | Ok (max_score, solution_states) =>
      match traceback_loop fuel n solution_states ∅ with
      | None => None
      | Some (Raise e) => Some (Raise e)
      | Some (Ok solution_sequences) =>
          Some (Ok (sorted_reverse solution_sequences, max_score))
      end
  end.

End Traceback.

(** [find_optimal_alignments], up to the report written by
    [_print_and_save_solutions]. *)
Definition find_optimal_alignments (self : SequenceAlignment) (fuel : nat) (n : Z)
  : option (result (list (string * string) * Z)) :=
  match _create_score_and_directional_matrices self with
  | Raise e => Some (Raise e)
  | Ok st => _traceback self (fst st) (snd st) fuel n
  end.

(** The table of [tests/unit_tests.py]. *)
Definition mock_table : result (gmap ascii (gmap ascii Z)) :=
  _load_substitution_matrix "ACGT" "ACGT"
    [[1; -1; -2; -1]; [-1; 1; -1; -2]; [-2; -1; 1; -1]; [-1; -2; -1; 1]].

Definition mock_alignments : gmap ascii (gmap ascii Z) :=
  match mock_table with Ok t => t | Raise _ => ∅ end.

Definition mock (s1 s2 strat : string) (gap : Z) : SequenceAlignment :=
  mkSequenceAlignment s1 s2 strat gap mock_alignments.

Definition cell_up : DirectionalCell := new_cell true false false.
Definition cell_diagonal : DirectionalCell := new_cell false true false.
Definition cell_left : DirectionalCell := new_cell false false true.
Definition cell_none : DirectionalCell := new_cell false false false.

(** * Properties *)

(** ** The [result] monad and [foldM] *)

Lemma bind_Ok {A B} (r : result A) (f : A -> result B) (b : B) :
  r ≫= f = Ok b -> exists a, r = Ok a /\ f a = Ok b.
Proof. destruct r as [a|e]; simpl; [eauto | discriminate]. Qed.

Ltac inv_bind H :=
  let a := fresh "x" in
  let H1 := fresh "E" in
  apply bind_Ok in H; destruct H as (a & H1 & H).

Lemma foldM_app {A S} (f : S -> A -> result S) l1 l2 s :
  foldM f (l1 ++ l2) s = foldM f l1 s ≫= foldM f l2.
Proof.
  revert s; induction l1 as [|x l1 IH]; intros s; simpl; [reflexivity|].
  destruct (f s x); simpl; auto.
Qed.

(** Invariant rule for a loop over a list: [P k s] holds before the turn
    on the element of index [k]. *)
Lemma foldM_invariant {A S} (f : S -> A -> result S) (P : nat -> S -> Prop) l s s' :
  P 0%nat s ->
  (forall k x t t', l !! k = Some x -> P k t -> f t x = Ok t' -> P (Datatypes.S k) t') ->
  foldM f l s = Ok s' -> P (length l) s'.
Proof.
  revert P s; induction l as [|x l IH]; intros P s H0 Hstep Hrun; simpl in *.
  - congruence.
  - inv_bind Hrun.
    apply (IH (fun k t => P (Datatypes.S k) t) x0); auto.
    + eapply (Hstep 0%nat); eauto.
    + intros k y t t' Hk. apply (Hstep (Datatypes.S k)). exact Hk.
Qed.

(** The same rule with the failures: a turn that raises does so with an
    exception of [E], on an element that is not in [C]. *)
Lemma foldM_rule {A S} (f : S -> A -> result S) (P : nat -> S -> Prop)
    (E : exn -> Prop) (C : A -> Prop) l s :
  P 0%nat s ->
  (forall k x t, l !! k = Some x -> P k t ->
     match f t x with
     | Ok t' => P (Datatypes.S k) t'
     | Raise e => E e /\ ~ C x
     end) ->
  match foldM f l s with
  | Ok s' => P (length l) s'
  | Raise e => E e /\ exists x, x ∈ l /\ ~ C x
  end.
Proof.
  revert P s; induction l as [|x l IH]; intros P s H0 Hstep; simpl.
  - exact H0.
  - pose proof (Hstep 0%nat x s eq_refl H0) as Hx.
    destruct (f s x) as [t'|e]; simpl.
    + specialize (IH (fun k t => P (Datatypes.S k) t) t' Hx).
      lapply IH.
      * destruct (foldM f l t'); [done|]. intros (He & y & Hy & HC).
        split; [done|]. exists y. split; [by right|done].
      * intros k y t Hk. apply (Hstep (Datatypes.S k)). exact Hk.
    + destruct Hx as [He HC]. split; [done|]. exists x. split; [by left|done].
Qed.

(** ** Indexing *)

Lemma py_index_nat len (i : nat) :
  py_index len (Z.of_nat i) = if decide (i < len)%nat then Ok i else Raise IndexError.
Proof.
  unfold py_index. case_decide.
  - replace ((0 <=? Z.of_nat i) && (Z.of_nat i <? Z.of_nat len)) with true
      by (symmetry; apply andb_true_iff; split; [apply Z.leb_le|apply Z.ltb_lt]; lia).
    by rewrite Nat2Z.id.
  - replace (Z.of_nat i <? Z.of_nat len) with false by (symmetry; apply Z.ltb_ge; lia).
    replace (Z.of_nat i <? 0) with false by (symmetry; apply Z.ltb_ge; lia).
    by rewrite !andb_false_r.
Qed.

Lemma py_index_neg len (k : nat) :
  (1 <= k <= len)%nat -> py_index len (- Z.of_nat k) = Ok (len - k)%nat.
Proof.
  intros Hk. unfold py_index.
  replace (0 <=? - Z.of_nat k) with false by (symmetry; apply Z.leb_gt; lia).
  simpl.
  replace ((- Z.of_nat len <=? - Z.of_nat k) && (- Z.of_nat k <? 0)) with true
    by (symmetry; apply andb_true_iff; split; [apply Z.leb_le|apply Z.ltb_lt]; lia).
  f_equal. lia.
Qed.

Lemma py_index_bound len i k : py_index len i = Ok k -> (k < len)%nat.
Proof.
  unfold py_index. repeat case_match; intros [= <-];
    repeat match goal with
           | H : _ && _ = true |- _ => apply andb_true_iff in H; destruct H
           | H : (_ <=? _) = true |- _ => apply Z.leb_le in H
           | H : (_ <? _) = true |- _ => apply Z.ltb_lt in H
           end; lia.
Qed.

Definition mat_lookup {A} (M : matrix A) (i j : nat) : option A :=
  M !! i ≫= fun row => row !! j.

Definition mat_insert {A} (M : matrix A) (i j : nat) (v : A) : matrix A :=
  alter (fun row => <[j := v]> row) i M.

Definition has_shape {A} (M : matrix A) (r c : nat) : Prop :=
  length M = r /\ Forall (fun row => length row = c) M.

Lemma mat_get_nat {A} (M : matrix A) (i j : nat) :
  mat_get M (Z.of_nat i) (Z.of_nat j) =
  match mat_lookup M i j with Some v => Ok v | None => Raise IndexError end.
Proof.
  unfold mat_get, mat_lookup. rewrite py_index_nat. case_decide as Hi; simpl.
  - destruct (M !! i) as [row|] eqn:Hrow; simpl; [|done].
    rewrite py_index_nat. case_decide as Hj; simpl.
    + by destruct (row !! j).
    + by rewrite lookup_ge_None_2 by lia.
  - by rewrite lookup_ge_None_2 by lia.
Qed.

Lemma has_shape_lookup {A} (M : matrix A) r c i j :
  has_shape M r c -> (i < r)%nat -> (j < c)%nat -> is_Some (mat_lookup M i j).
Proof.
  intros [Hr Hc] Hi Hj. unfold mat_lookup.
  destruct (lookup_lt_is_Some_2 M i) as [row Hrow]; [lia|].
  rewrite Hrow. simpl. apply lookup_lt_is_Some_2.
  rewrite Forall_lookup in Hc. rewrite (Hc _ _ Hrow). done.
Qed.

Lemma mat_lookup_bound {A} (M : matrix A) r c i j v :
  has_shape M r c -> mat_lookup M i j = Some v -> (i < r)%nat /\ (j < c)%nat.
Proof.
  intros [Hr Hc]. unfold mat_lookup. destruct (M !! i) as [row|] eqn:Hrow; simpl; [|done].
  intros Hj. split.
  - rewrite <- Hr. eapply lookup_lt_Some; eauto.
  - rewrite Forall_lookup in Hc. rewrite <- (Hc _ _ Hrow). eapply lookup_lt_Some; eauto.
Qed.

Lemma mat_set_nat {A} (M : matrix A) r c (i j : nat) v :
  has_shape M r c -> (i < r)%nat -> (j < c)%nat ->
  mat_set M (Z.of_nat i) (Z.of_nat j) v = Ok (mat_insert M i j v).
Proof.
  intros [Hr Hc] Hi Hj. unfold mat_set, mat_insert.
  rewrite py_index_nat. rewrite decide_True by lia. simpl.
  destruct (lookup_lt_is_Some_2 M i) as [row Hrow]; [lia|]. rewrite Hrow.
  rewrite Forall_lookup in Hc. rewrite py_index_nat, decide_True by (rewrite (Hc _ _ Hrow); lia).
  simpl. f_equal. apply list_eq. intros k.
  destruct (decide (k = i)) as [->|Hne].
  - rewrite list_lookup_insert_eq by lia. by rewrite list_lookup_alter_eq, Hrow.
  - rewrite list_lookup_insert_ne by done. by rewrite list_lookup_alter_ne.
Qed.

Lemma has_shape_insert {A} (M : matrix A) r c i j v :
  has_shape M r c -> has_shape (mat_insert M i j v) r c.
Proof.
  intros [Hr Hc]. unfold mat_insert. split.
  - by rewrite length_alter.
  - rewrite Forall_lookup in Hc. apply Forall_lookup. intros k row.
    destruct (decide (k = i)) as [->|Hne].
    + rewrite list_lookup_alter_eq. destruct (M !! i) as [row0|] eqn:Hrow; simpl; [|done].
      intros [= <-]. rewrite length_insert. eauto.
    + rewrite list_lookup_alter_ne by done. eauto.
Qed.

Lemma mat_lookup_insert {A} (M : matrix A) i j v i' j' :
  mat_lookup (mat_insert M i j v) i' j' =
  if decide (i' = i /\ j' = j) then (fun _ => v) <$> mat_lookup M i j else mat_lookup M i' j'.
Proof.
  unfold mat_lookup, mat_insert. destruct (decide (i' = i)) as [->|Hne].
  - rewrite list_lookup_alter_eq. destruct (M !! i) as [row|] eqn:Hrow; simpl.
    + destruct (decide (j' = j)) as [->|Hnj].
      * rewrite decide_True by done. destruct (decide (j < length row)%nat).
        -- rewrite list_lookup_insert_eq by done.
           destruct (lookup_lt_is_Some_2 row j) as [w ->]; done.
        -- rewrite list_insert_ge by lia. rewrite lookup_ge_None_2 by lia. done.
      * rewrite decide_False by tauto. by rewrite list_lookup_insert_ne.
    + by case_decide.
  - rewrite list_lookup_alter_ne by done. rewrite decide_False by tauto. done.
Qed.

Lemma mat_lookup_insert_eq {A} (M : matrix A) r c i j v :
  has_shape M r c -> (i < r)%nat -> (j < c)%nat ->
  mat_lookup (mat_insert M i j v) i j = Some v.
Proof.
  intros Hs Hi Hj. rewrite mat_lookup_insert, decide_True by done.
  destruct (has_shape_lookup M r c i j Hs Hi Hj) as [w ->]. done.
Qed.

Lemma mat_lookup_insert_ne {A} (M : matrix A) i j v i' j' :
  (i' <> i \/ j' <> j) -> mat_lookup (mat_insert M i j v) i' j' = mat_lookup M i' j'.
Proof. intros H. rewrite mat_lookup_insert, decide_False by tauto. done. Qed.

Lemma has_shape_full {A} r c (v : A) : has_shape (np_full r c v) r c.
Proof.
  unfold np_full. split.
  - by rewrite length_replicate.
  - apply Forall_replicate. by rewrite length_replicate.
Qed.

Lemma mat_lookup_full {A} r c (v : A) i j :
  (i < r)%nat -> (j < c)%nat -> mat_lookup (np_full r c v) i j = Some v.
Proof.
  intros Hi Hj. unfold mat_lookup, np_full.
  rewrite lookup_replicate_2 by done. simpl. by rewrite lookup_replicate_2.
Qed.

(** ** Strings *)

Lemma get_list_ascii (s : string) (k : nat) :
  list_ascii_of_string s !! k = String.get k s.
Proof.
  revert k; induction s as [|c s IH]; intros [|k]; simpl; auto.
Qed.

Lemma length_list_ascii (s : string) :
  length (list_ascii_of_string s) = String.length s.
Proof. induction s; simpl; auto. Qed.

Lemma enumerate_lookup (s : string) (k : nat) x :
  enumerate s !! k = Some x <-> exists c, String.get k s = Some c /\ x = (k, c).
Proof.
  unfold enumerate. rewrite list_lookup_imap, get_list_ascii.
  destruct (String.get k s) as [c|]; simpl; split.
  - intros [= <-]. eauto.
  - intros (c' & [= <-] & ->). done.
  - done.
  - intros (c' & [=] & _).
Qed.

Lemma length_enumerate (s : string) : length (enumerate s) = String.length s.
Proof. unfold enumerate. by rewrite length_imap, length_list_ascii. Qed.

Lemma get_is_Some (s : string) (k : nat) :
  (k < String.length s)%nat -> is_Some (String.get k s).
Proof.
  intros Hk. rewrite <- get_list_ascii. apply lookup_lt_is_Some_2.
  by rewrite length_list_ascii.
Qed.

Lemma get_Some_lt (s : string) (k : nat) c :
  String.get k s = Some c -> (k < String.length s)%nat.
Proof.
  rewrite <- get_list_ascii, <- length_list_ascii. apply lookup_lt_Some.
Qed.

(** ** Matrix construction *)

Section BuildSpec.
Variable self : SequenceAlignment.

Let m : nat := String.length (seq1 self).
Let n : nat := String.length (seq2 self).
Let gap : Z := gap_penalty self.

(** The score stored for the candidates [u], [d], [l]. *)
Definition best_value (u d l : Z) : Z :=
  let best := Z.max (Z.max u d) l in
  if String.eqb (strategy self) "local" then py_max best 0 else best.

Lemma best_of_eq u d l : best_of self u d l = Ok (best_value u d l).
Proof. reflexivity. Qed.

Definition shapes_ok (st : mats) : Prop :=
  has_shape (fst st) (m + 1) (n + 1) /\ has_shape (snd st) (m + 1) (n + 1).

(** Contents of the edges once the first loop has done [kc] turns and the
    second [kr] turns. *)
Definition edge_score (kc kr i j : nat) : Z :=
  if decide (j = 0 /\ 1 <= i <= kc)%nat then Z.of_nat i * gap
  else if decide (i = 0 /\ 1 <= j <= kr)%nat then Z.of_nat j * gap
  else 0.

Definition edge_cell (kc kr i j : nat) : DirectionalCell :=
  if decide (j = 0 /\ 1 <= i <= kc)%nat then new_cell true false false
  else if decide (i = 0 /\ 1 <= j <= kr)%nat then new_cell false false true
  else new_cell false false false.

Definition edges_ok (kc kr : nat) (st : mats) : Prop :=
  forall i j, (i < m + 1)%nat -> (j < n + 1)%nat ->
    mat_lookup (fst st) i j = Some (edge_score kc kr i j) /\
    mat_lookup (snd st) i j = Some (edge_cell kc kr i j).

(** The recurrence at the cell written in turn [(a, b)]. *)
Definition inner_ok (st : mats) (a b : nat) : Prop :=
  exists c1 c2 sub s_d s_u s_l,
    String.get a (seq1 self) = Some c1 /\
    String.get b (seq2 self) = Some c2 /\
    alignments_getitem (alignments self) c1 c2 = Ok sub /\
    mat_lookup (fst st) a b = Some s_d /\
    mat_lookup (fst st) a (b + 1) = Some s_u /\
    mat_lookup (fst st) (a + 1) b = Some s_l /\
    let d := np_add s_d sub in
    let u := np_add s_u gap in
    let l := np_add s_l gap in
    mat_lookup (fst st) (a + 1) (b + 1) = Some (best_value u d l) /\
    mat_lookup (snd st) (a + 1) (b + 1) =
      Some (new_cell (u =? best_value u d l) (d =? best_value u d l)
                     (l =? best_value u d l)).

Definition border_ok (st : mats) : Prop :=
  forall i j, (i < m + 1)%nat -> (j < n + 1)%nat -> (i = 0 \/ j = 0)%nat ->
    mat_lookup (fst st) i j = Some (edge_score m n i j) /\
    mat_lookup (snd st) i j = Some (edge_cell m n i j).

(** What the finished matrices look like. *)
Record built (st : mats) : Prop := mkBuilt {
  built_shapes : shapes_ok st;
  built_border : border_ok st;
  built_inner : forall a b, (a < m)%nat -> (b < n)%nat -> inner_ok st a b
}.

Lemma fill_edge_col_eq st (i : nat) :
  shapes_ok st -> (i < m + 1)%nat ->
  fill_edge_col self st i =
  if fits_int64 (Z.of_nat i * gap) then
    Ok (mat_insert (fst st) i 0 (Z.of_nat i * gap),
        mat_insert (snd st) i 0 (new_cell true false false))
  else Raise OverflowError.
Proof.
  intros [HS HD] Hi. unfold fill_edge_col, np_store_int. fold gap.
  destruct (fits_int64 (Z.of_nat i * gap)); simpl; [|done].
  change 0 with (Z.of_nat 0).
  rewrite (mat_set_nat _ _ _ _ _ _ HS), (mat_set_nat _ _ _ _ _ _ HD) by lia.
  done.
Qed.

Lemma fill_edge_row_eq st (i : nat) :
  shapes_ok st -> (i < n + 1)%nat ->
  fill_edge_row self st i =
  if fits_int64 (Z.of_nat i * gap) then
    Ok (mat_insert (fst st) 0 i (Z.of_nat i * gap),
        mat_insert (snd st) 0 i (new_cell false false true))
  else Raise OverflowError.
Proof.
  intros [HS HD] Hi. unfold fill_edge_row, np_store_int. fold gap.
  destruct (fits_int64 (Z.of_nat i * gap)); simpl; [|done].
  change 0 with (Z.of_nat 0).
  rewrite (mat_set_nat _ _ _ _ _ _ HS), (mat_set_nat _ _ _ _ _ _ HD) by lia.
  done.
Qed.

Lemma fill_cell_eq st (i j : nat) c1 c2 s_d s_u s_l :
  shapes_ok st -> (i < m)%nat -> (j < n)%nat ->
  mat_lookup (fst st) i j = Some s_d ->
  mat_lookup (fst st) i (j + 1) = Some s_u ->
  mat_lookup (fst st) (i + 1) j = Some s_l ->
  fill_cell self i c1 st (j, c2) =
  match alignments_getitem (alignments self) c1 c2 with
  | Raise e => Raise e
  | Ok sub =>
      let d := np_add s_d sub in
      let u := np_add s_u gap in
      let l := np_add s_l gap in
      Ok (mat_insert (fst st) (i + 1) (j + 1) (best_value u d l),
          mat_insert (snd st) (i + 1) (j + 1)
            (new_cell (u =? best_value u d l) (d =? best_value u d l)
                      (l =? best_value u d l)))
  end.
Proof.
  intros [HS HD] Hi Hj Hd Hu Hl. unfold fill_cell. simpl fst; simpl snd.
  replace (Z.of_nat i + 1) with (Z.of_nat (i + 1)) by lia.
  replace (Z.of_nat j + 1) with (Z.of_nat (j + 1)) by lia.
  rewrite !mat_get_nat, Hd, Hu, Hl. simpl.
  destruct (alignments_getitem (alignments self) c1 c2) as [sub|e]; simpl; [|done].
  rewrite (mat_set_nat _ _ _ _ _ _ HS) by lia. simpl.
  rewrite (mat_set_nat _ _ _ _ _ _ HD) by lia. reflexivity.
Qed.

(** Exceptions of the construction: a score that does not fit the array,
    or a pair of symbols without a score. *)
Definition build_exn (e : exn) : Prop := e = OverflowError \/ e = TypeError.

Definition fits_edge (i : nat) : Prop := fits_int64 (Z.of_nat i * gap) = true.

Definition scored (c1 c2 : ascii) : Prop :=
  is_ok (alignments_getitem (alignments self) c1 c2) = true.

Ltac edge_cases :=
  unfold edge_score, edge_cell; repeat case_decide; try lia; try done.

Lemma edge_col_loop :
  match foldM (fill_edge_col self) (seq 1 m)
          (np_full (m + 1) (n + 1) 0,
           np_full (m + 1) (n + 1) (new_cell false false false)) with
  | Ok st => shapes_ok st /\ edges_ok m 0 st
  | Raise e => build_exn e /\ exists i, i ∈ seq 1 m /\ ~ fits_edge i
  end.
Proof.
  pose proof (foldM_rule (fill_edge_col self)
    (fun k st => shapes_ok st /\ edges_ok k 0 st) build_exn fits_edge (seq 1 m)) as R.
  rewrite length_seq in R. apply R; clear R.
  - split; [split; apply has_shape_full|].
    intros i j Hi Hj. simpl. rewrite !mat_lookup_full by done. split; f_equal; edge_cases.
  - intros k x [SM DM] Hx [Hsh He]. apply lookup_seq in Hx as [-> Hk].
    rewrite fill_edge_col_eq by (done || lia). unfold fits_edge.
    destruct (fits_int64 _) eqn:Hfit; [|split; [by left|congruence]].
    destruct Hsh as [HS HD]. split; [split; by apply has_shape_insert|].
    intros i j Hi Hj. destruct (He i j Hi Hj) as [HSij HDij].
    destruct (He (1 + k)%nat 0%nat) as [HSk HDk]; [lia..|].
    cbn [fst snd] in *. rewrite !mat_lookup_insert, HSk, HDk, HSij, HDij.
    cbn [fmap option_fmap option_map]. case_decide as Hc.
    + destruct Hc as [-> ->]. split; f_equal; edge_cases.
    + split; f_equal; edge_cases.
Qed.

Lemma edge_row_loop st0 :
  shapes_ok st0 -> edges_ok m 0 st0 ->
  match foldM (fill_edge_row self) (seq 1 n) st0 with
  | Ok st => shapes_ok st /\ edges_ok m n st
  | Raise e => build_exn e /\ exists i, i ∈ seq 1 n /\ ~ fits_edge i
  end.
Proof.
  intros Hsh0 He0.
  pose proof (foldM_rule (fill_edge_row self)
    (fun k st => shapes_ok st /\ edges_ok m k st) build_exn fits_edge (seq 1 n)) as R.
  rewrite length_seq in R. apply R; clear R; [done|].
  intros k x [SM DM] Hx [Hsh He]. apply lookup_seq in Hx as [-> Hk].
  rewrite fill_edge_row_eq by (done || lia). unfold fits_edge.
  destruct (fits_int64 _) eqn:Hfit; [|split; [by left|congruence]].
  destruct Hsh as [HS HD]. split; [split; by apply has_shape_insert|].
  intros i j Hi Hj. destruct (He i j Hi Hj) as [HSij HDij].
  destruct (He 0%nat (1 + k)%nat) as [HSk HDk]; [lia..|].
  cbn [fst snd] in *. rewrite !mat_lookup_insert, HSk, HDk, HSij, HDij.
  cbn [fmap option_fmap option_map]. case_decide as Hc.
  - destruct Hc as [-> ->]. split; f_equal; edge_cases.
  - split; f_equal; edge_cases.
Qed.

(** A later turn leaves the recurrence of an earlier cell alone. *)
Lemma inner_ok_frame SM DM a b i j v w :
  (a < i \/ (a = i /\ b < j))%nat ->
  inner_ok (SM, DM) a b ->
  inner_ok (mat_insert SM (i + 1) (j + 1) v, mat_insert DM (i + 1) (j + 1) w) a b.
Proof.
  intros Hlt (c1 & c2 & sub & s_d & s_u & s_l & H1 & H2 & H3 & H4 & H5 & H6 & H7 & H8).
  exists c1, c2, sub, s_d, s_u, s_l. simpl in *.
  rewrite !mat_lookup_insert_ne by lia. done.
Qed.

Definition row_scored (ic : nat * ascii) : Prop :=
  forall jc, jc ∈ enumerate (seq2 self) -> scored (snd ic) (snd jc).

Lemma fill_row_loop st0 (i : nat) c1 :
  String.get i (seq1 self) = Some c1 ->
  shapes_ok st0 -> border_ok st0 ->
  (forall a b, (a < i)%nat -> (b < n)%nat -> inner_ok st0 a b) ->
  match fill_row self st0 (i, c1) with
  | Ok st =>
      shapes_ok st /\ border_ok st /\
      forall a b, (a < Datatypes.S i)%nat -> (b < n)%nat -> inner_ok st a b
  | Raise e => build_exn e /\ ~ row_scored (i, c1)
  end.
Proof.
  intros Hc1 Hsh0 Hb0 Hin0. unfold fill_row. simpl fst; simpl snd.
  pose proof (get_Some_lt _ _ _ Hc1) as Him. fold m in Him.
  pose proof (foldM_rule (fill_cell self i c1)
    (fun k st => shapes_ok st /\ border_ok st /\
       forall a b, (a < i /\ b < n \/ a = i /\ b < k)%nat -> inner_ok st a b)
    build_exn (fun jc => scored c1 (snd jc)) (enumerate (seq2 self)) st0) as R.
  rewrite length_enumerate in R. fold n in R. lapply R; [clear R; intros R|].
  - lapply R; [clear R; intros R|].
    + destruct (foldM _ _ _) as [st|e].
      * destruct R as (? & ? & Hin). split; [done|]. split; [done|].
        intros a b Ha Hb. apply Hin. lia.
      * destruct R as (He & x & Hx & HC). split; [done|].
        intros Hrow. apply HC. by apply (Hrow x).
    + clear R. intros j x [SM DM] Hx (Hsh & Hb & Hin).
      apply enumerate_lookup in Hx as (c2 & Hc2 & ->).
      pose proof (get_Some_lt _ _ _ Hc2) as Hjn. fold n in Hjn.
      destruct Hsh as [HS HD]. simpl in HS, HD.
      destruct (has_shape_lookup SM _ _ i j HS) as [s_d Hd]; [lia..|].
      destruct (has_shape_lookup SM _ _ i (j + 1) HS) as [s_u Hu]; [lia..|].
      destruct (has_shape_lookup SM _ _ (i + 1) j HS) as [s_l Hl]; [lia..|].
      rewrite (fill_cell_eq (SM, DM) i j c1 c2 s_d s_u s_l) by (done || lia).
      unfold scored. simpl snd.
      destruct (alignments_getitem (alignments self) c1 c2) as [sub|e] eqn:Hsub.
      2:{ split; [|simpl; congruence]. right. revert Hsub. unfold alignments_getitem.
          case_match; congruence. }
      simpl. split; [split; by apply has_shape_insert|]. split.
      * intros a b Ha Hb0' Hab. simpl. rewrite !mat_lookup_insert_ne by lia.
        by apply Hb.
      * intros a b Hab. destruct (decide (a = i /\ b = j)) as [[-> ->]|Hne].
        -- exists c1, c2, sub, s_d, s_u, s_l. simpl.
           rewrite !mat_lookup_insert_ne by lia.
           rewrite (mat_lookup_insert_eq SM _ _ _ _ _ HS) by lia.
           rewrite (mat_lookup_insert_eq DM _ _ _ _ _ HD) by lia. done.
        -- apply inner_ok_frame; [lia|]. apply Hin. lia.
  - split; [done|]. split; [done|].
    intros a b [[Ha Hb]|[_ Hb]]; [by apply Hin0|lia].
Qed.

Definition valid_input : Prop :=
  (forall i, i ∈ seq 1 m -> fits_edge i) /\
  (forall i, i ∈ seq 1 n -> fits_edge i) /\
  (forall ic, ic ∈ enumerate (seq1 self) -> row_scored ic).

(** The construction either raises on an input that is not valid, and not
    with an [IndexError], or ends with the matrices described by [built]. *)
Lemma build_spec :
  match _create_score_and_directional_matrices self with
  | Ok st => built st
  | Raise e => build_exn e /\ ~ valid_input
  end.
Proof.
  unfold _create_score_and_directional_matrices. fold m n.
  pose proof edge_col_loop as H1. destruct (foldM (fill_edge_col self) _ _) as [st1|e].
  2:{ simpl. destruct H1 as (He & i & Hi & HC). split; [done|].
      intros (Hv & _ & _). apply HC. by apply Hv. }
  simpl. destruct H1 as [Hsh1 He1].
  pose proof (edge_row_loop st1 Hsh1 He1) as H2.
  destruct (foldM (fill_edge_row self) _ _) as [st2|e].
  2:{ simpl. destruct H2 as (He & i & Hi & HC). split; [done|].
      intros (_ & Hv & _). apply HC. by apply Hv. }
  simpl. destruct H2 as [Hsh2 He2].
  pose proof (foldM_rule (fill_row self)
    (fun k st => shapes_ok st /\ border_ok st /\
       forall a b, (a < k)%nat -> (b < n)%nat -> inner_ok st a b)
    build_exn row_scored (enumerate (seq1 self)) st2) as R.
  rewrite length_enumerate in R. fold m in R. lapply R; [clear R; intros R|].
  - lapply R; [clear R; intros R|].
    + destruct (foldM _ _ _) as [st|e].
      * destruct R as (? & ? & ?). by constructor.
      * destruct R as (He & x & Hx & HC). split; [done|].
        intros (_ & _ & Hv). apply HC. by apply Hv.
    + clear R. intros i x st Hx (Hsh & Hb & Hin).
      apply enumerate_lookup in Hx as (c1 & Hc1 & ->).
      by apply fill_row_loop.
  - split; [done|]. split.
    + intros i j Hi Hj _. by apply He2.
    + intros a b Ha. lia.
Qed.

Lemma build_built st :
  _create_score_and_directional_matrices self = Ok st -> built st.
Proof. intros H. pose proof build_spec as B. by rewrite H in B. Qed.

Lemma build_total :
  valid_input -> exists st, _create_score_and_directional_matrices self = Ok st.
Proof.
  intros Hv. pose proof build_spec as B.
  destruct (_create_score_and_directional_matrices self) as [st|e]; [eauto|].
  by destruct B.
Qed.

End BuildSpec.

(** ** Cells of the finished matrices *)

Lemma wrap64_fits z : fits_int64 z = true -> wrap64 z = z.
Proof.
  unfold fits_int64, int64_min, int64_max, wrap64. intros H.
  apply andb_true_iff in H as [H1 H2]. apply Z.leb_le in H1, H2.
  rewrite Z.mod_small; lia.
Qed.

Lemma py_max_max a b : py_max a b = Z.max a b.
Proof. unfold py_max. destruct (Z.ltb_spec a b); lia. Qed.

Lemma mat_get_pos {A} (M : matrix A) r c (posY posX : Z) :
  has_shape M r c -> 0 <= posY < Z.of_nat r -> 0 <= posX < Z.of_nat c ->
  exists v, mat_lookup M (Z.to_nat posY) (Z.to_nat posX) = Some v /\
            mat_get M posY posX = Ok v.
Proof.
  intros HS HY HX.
  destruct (has_shape_lookup M r c (Z.to_nat posY) (Z.to_nat posX) HS) as [v Hv]; [lia..|].
  exists v. split; [done|].
  rewrite <- (Z2Nat.id posY), <- (Z2Nat.id posX) by lia.
  by rewrite mat_get_nat, Hv.
Qed.

Section Cells.
Variable self : SequenceAlignment.
Variable st : mats.
Hypothesis Hbuilt : built self st.

Let m : nat := String.length (seq1 self).
Let n : nat := String.length (seq2 self).

(** The four kinds of cells of the direction matrix. *)
Inductive cell_kind (r c : nat) (cell : DirectionalCell) : Prop :=
  | kind_origin : r = 0%nat -> c = 0%nat -> cell = new_cell false false false ->
      cell_kind r c cell
  | kind_col : (1 <= r <= m)%nat -> c = 0%nat -> cell = new_cell true false false ->
      cell_kind r c cell
  | kind_row : r = 0%nat -> (1 <= c <= n)%nat -> cell = new_cell false false true ->
      cell_kind r c cell
  | kind_inner u d l : (1 <= r <= m)%nat -> (1 <= c <= n)%nat ->
      cell = new_cell (u =? best_value self u d l) (d =? best_value self u d l)
                      (l =? best_value self u d l) ->
      cell_kind r c cell.

Lemma built_cell_kind r c cell :
  mat_lookup (snd st) r c = Some cell -> cell_kind r c cell.
Proof.
  intros Hcell. destruct Hbuilt as [[HS HD] Hb Hin].
  destruct (mat_lookup_bound _ _ _ _ _ _ HD Hcell) as [Hr Hc]. fold m n in Hr, Hc.
  destruct (decide (r = 0 \/ c = 0)%nat) as [H0|H0].
  - destruct (Hb r c Hr Hc H0) as [_ HDrc]. rewrite Hcell in HDrc.
    injection HDrc as ->. unfold edge_cell. fold m n.
    repeat case_decide.
    + apply kind_col; [lia|tauto|done].
    + apply kind_row; [tauto|lia|done].
    + apply kind_origin; [lia|lia|done].
  - destruct (Hin (r - 1)%nat (c - 1)%nat) as
      (c1 & c2 & sub & s_d & s_u & s_l & _ & _ & _ & _ & _ & _ & _ & HDrc); [fold m; lia|fold n; lia|].
    replace (r - 1 + 1)%nat with r in HDrc by lia.
    replace (c - 1 + 1)%nat with c in HDrc by lia.
    rewrite Hcell in HDrc. injection HDrc as ->.
    eapply kind_inner; [lia|lia|reflexivity].
Qed.

(** A set flag has a predecessor cell inside the matrix. *)
Lemma flags_sound r c cell :
  mat_lookup (snd st) r c = Some cell ->
  (up cell = true -> (1 <= r)%nat) /\
  (left cell = true -> (1 <= c)%nat) /\
  (diagonal cell = true -> (1 <= r)%nat /\ (1 <= c)%nat).
Proof.
  intros Hcell. destruct (built_cell_kind r c cell Hcell) as [? ? ->|? ? ->|? ? ->|u d l ? ? ->];
    simpl; repeat split; intros; (lia || discriminate).
Qed.

(** Without the clamping of the local strategy, only the origin has no flag. *)
Lemma no_flag_origin r c cell :
  String.eqb (strategy self) "local" = false ->
  mat_lookup (snd st) r c = Some cell ->
  num_directions cell = 0 -> r = 0%nat /\ c = 0%nat.
Proof.
  intros Hloc Hcell. destruct (built_cell_kind r c cell Hcell) as [? ? ->|? ? ->|? ? ->|u d l ? ? ->];
    simpl; try done.
  unfold best_value. rewrite Hloc. simpl.
  destruct (Z.eqb_spec u (Z.max (Z.max u d) l)), (Z.eqb_spec d (Z.max (Z.max u d) l)),
    (Z.eqb_spec l (Z.max (Z.max u d) l)); simpl; lia.
Qed.

End Cells.

(** ** One turn of the traceback loop *)

(** The symbol that [s[-pos]] reads when it is in range. *)
Definition sym (s : string) (pos : Z) : string :=
  match String.get (String.length s - Z.to_nat pos) s with
  | Some c => String c EmptyString
  | None => EmptyString
  end.

Lemma str_getitem_neg (s : string) (pos : Z) :
  1 <= pos <= Z.of_nat (String.length s) -> str_getitem s (- pos) = Ok (sym s pos).
Proof.
  intros Hpos. unfold str_getitem, sym.
  rewrite <- (Z2Nat.id pos) at 1 by lia. rewrite py_index_neg by lia. simpl.
  destruct (get_is_Some s (String.length s - Z.to_nat pos)) as [c ->]; [lia|done].
Qed.

Section StepSpec.
Variable self : SequenceAlignment.
Variable score_matrix : matrix Z.
Variable directional_matrix : matrix DirectionalCell.
Hypothesis Hbuilt : built self (score_matrix, directional_matrix).

Let m : nat := String.length (seq1 self).
Let n : nat := String.length (seq2 self).

Definition in_range (s : state) : Prop :=
  let '(posY, posX, _, _) := s in
  0 <= posY <= Z.of_nat m /\ 0 <= posX <= Z.of_nat n.

(** The branches pushed for a cell that does not finish a path, the last
    pushed first. *)
Definition next_states (cell : DirectionalCell) (s : state) : list state :=
  let '(posY, posX, p1, p2) := s in
  ((if diagonal cell
    then [(posY - 1, posX - 1, p1 +:+ sym (seq1 self) posY, p2 +:+ sym (seq2 self) posX)]
    else []) ++
   (if up cell then [(posY - 1, posX, p1 +:+ sym (seq1 self) posY, p2 +:+ "-")] else []) ++
   (if left cell then [(posY, posX - 1, p1 +:+ "-", p2 +:+ sym (seq2 self) posX)] else []))%list.

(** The test that ends a path, on the cell and the score at the position. *)
Definition finished (cell : DirectionalCell) (score : Z) : bool :=
  (num_directions cell =? 0) || (String.eqb (strategy self) "local" && (score =? 0)).

Lemma traceback_step_eq posY posX p1 p2 states sols :
  in_range (posY, posX, p1, p2) ->
  exists cell score,
    mat_lookup directional_matrix (Z.to_nat posY) (Z.to_nat posX) = Some cell /\
    mat_lookup score_matrix (Z.to_nat posY) (Z.to_nat posX) = Some score /\
    traceback_step self score_matrix directional_matrix (posY, posX, p1, p2) states sols =
    Ok (if finished cell score then (states, {[ (p1, p2) ]} ∪ sols)
        else ((next_states cell (posY, posX, p1, p2) ++ states)%list, sols)).
Proof.
  intros [HY HX]. destruct Hbuilt as [[HS HD] _ _]. simpl in HS, HD. fold m n in HS, HD.
  destruct (mat_get_pos directional_matrix _ _ posY posX HD) as (cell & Hcell & Hget);
    [lia..|].
  destruct (mat_get_pos score_matrix _ _ posY posX HS) as (score & Hscore & Hgets);
    [lia..|].
  exists cell, score. split; [done|]. split; [done|].
  destruct (flags_sound self _ Hbuilt _ _ _ Hcell) as (Hu & Hl & Hd).
  unfold traceback_step. rewrite Hget. simpl.
  assert (is_finished self score_matrix posY posX cell = Ok (finished cell score)) as ->.
  { unfold is_finished, finished. destruct (num_directions cell =? 0); [done|].
    destruct (String.eqb (strategy self) "local"); [|done]. by rewrite Hgets. }
  simpl. destruct (finished cell score); [done|].
  unfold push_left, push_up, push_diagonal.
  destruct (left cell) eqn:El, (up cell) eqn:Eu, (diagonal cell) eqn:Ed;
    repeat (rewrite str_getitem_neg by (fold m n; lia)); simpl; try done.
Qed.

Lemma next_states_in_range cell posY posX p1 p2 s' :
  in_range (posY, posX, p1, p2) ->
  mat_lookup directional_matrix (Z.to_nat posY) (Z.to_nat posX) = Some cell ->
  s' ∈ next_states cell (posY, posX, p1, p2) ->
  in_range s' /\
  0 <= fst (fst (fst s')) + snd (fst (fst s')) < posY + posX.
Proof.
  intros [HY HX] Hcell Hs'.
  destruct (flags_sound self _ Hbuilt _ _ _ Hcell) as (Hu & Hl & Hd). simpl in *.
  unfold next_states in Hs'.
  destruct (left cell), (up cell), (diagonal cell); simpl in Hs';
    repeat (apply elem_of_cons in Hs' as [->|Hs']); try (by apply elem_of_nil in Hs');
    simpl; lia.
Qed.

End StepSpec.

(** ** The traceback loop *)

(** Number of turns that a pending state at distance [k] from the origin
    can still cause. *)
Fixpoint weight (k : nat) : nat :=
  match k with
  | O => 1
  | S k' => 3 * weight k' + 1
  end.

Definition state_weight (s : state) : nat :=
  weight (Z.to_nat (fst (fst (fst s)) + snd (fst (fst s)))).

Fixpoint measure (states : list state) : nat :=
  match states with
  | [] => 0
  | s :: states' => state_weight s + measure states'
  end.

Lemma weight_mono a b : (a <= b)%nat -> (weight a <= weight b)%nat.
Proof. induction 1; simpl; lia. Qed.

Lemma weight_pos k : (1 <= weight k)%nat.
Proof. destruct k; simpl; lia. Qed.

Lemma measure_app l1 l2 : measure (l1 ++ l2) = (measure l1 + measure l2)%nat.
Proof. induction l1; simpl; lia. Qed.

Section LoopSpec.
Variable self : SequenceAlignment.
Variable score_matrix : matrix Z.
Variable directional_matrix : matrix DirectionalCell.
Hypothesis Hbuilt : built self (score_matrix, directional_matrix).
Variable n_max : Z.

Lemma measure_next_states cell posY posX p1 p2 :
  in_range self (posY, posX, p1, p2) ->
  mat_lookup directional_matrix (Z.to_nat posY) (Z.to_nat posX) = Some cell ->
  (measure (next_states self cell (posY, posX, p1, p2)) <
   state_weight (posY, posX, p1, p2))%nat.
Proof.
  intros [HY HX] Hcell.
  destruct (flags_sound self _ Hbuilt _ _ _ Hcell) as (Hu & Hl & Hd).
  cbn [fst snd] in *.
  unfold next_states, state_weight. cbn [fst snd].
  destruct (Z.to_nat (posY + posX)) as [|k] eqn:Hk.
  - destruct (left cell); [lia|]. destruct (up cell); [lia|].
    destruct (diagonal cell); [lia|]. simpl. lia.
  - assert (weight (Z.to_nat (posY - 1 + (posX - 1))) <= weight k)%nat
      by (apply weight_mono; lia).
    assert (weight (Z.to_nat (posY - 1 + posX)) <= weight k)%nat
      by (apply weight_mono; lia).
    assert (weight (Z.to_nat (posY + (posX - 1))) <= weight k)%nat
      by (apply weight_mono; lia).
    destruct (left cell), (up cell), (diagonal cell);
      cbn [app measure]; unfold state_weight; cbn [fst snd weight]; lia.
Qed.

(** Invariant rule for the loop.  With an invariant that keeps the pending
    states inside the matrix the loop raises nothing, and it ends as soon
    as the fuel covers the measure of the pending states. *)
Lemma traceback_loop_rule (I : list state -> gset (string * string) -> Prop) :
  (forall s states sols, I (s :: states) sols -> in_range self s) ->
  (forall posY posX p1 p2 states sols cell score,
      I ((posY, posX, p1, p2) :: states) sols ->
      Z.of_nat (size sols) < n_max ->
      mat_lookup directional_matrix (Z.to_nat posY) (Z.to_nat posX) = Some cell ->
      mat_lookup score_matrix (Z.to_nat posY) (Z.to_nat posX) = Some score ->
      if finished self cell score then I states ({[ (p1, p2) ]} ∪ sols)
      else I (next_states self cell (posY, posX, p1, p2) ++ states)%list sols) ->
  forall fuel states sols, I states sols ->
    match traceback_loop self score_matrix directional_matrix fuel n_max states sols with
    | Some (Ok sols') =>
        exists states', I states' sols' /\
          (states' = [] \/ ~ Z.of_nat (size sols') < n_max)
    | Some (Raise _) => False
    | None => (fuel < measure states)%nat
    end.
Proof.
  intros Hrange Hstep. induction fuel as [|fuel IH]; intros states sols HI.
  - destruct states as [|s states]; simpl; [eauto|].
    destruct (Z.ltb_spec (Z.of_nat (size sols)) n_max).
    + pose proof (weight_pos (Z.to_nat (fst (fst (fst s)) + snd (fst (fst s))))).
      unfold state_weight. lia.
    + exists (s :: states). split; [done|]. right. lia.
  - destruct states as [|s states]; simpl; [eauto|].
    destruct (Z.ltb_spec (Z.of_nat (size sols)) n_max) as [Hlt|Hge].
    2:{ exists (s :: states). split; [done|]. right. lia. }
    destruct s as [[[posY posX] p1] p2].
    pose proof (Hrange _ _ _ HI) as Hin.
    destruct (traceback_step_eq self _ _ Hbuilt posY posX p1 p2 states sols Hin)
      as (cell & score & Hcell & Hscore & ->).
    specialize (Hstep _ _ _ _ _ _ _ _ HI Hlt Hcell Hscore).
    pose proof (measure_next_states cell posY posX p1 p2 Hin Hcell) as Hm.
    destruct (finished self cell score); simpl fst; simpl snd.
    + specialize (IH _ _ Hstep). destruct (traceback_loop _ _ _ _ _ _ _) as [[?|?]|]; try done.
      pose proof (weight_pos (Z.to_nat (posY + posX))). unfold state_weight. simpl. lia.
    + specialize (IH _ _ Hstep). destruct (traceback_loop _ _ _ _ _ _ _) as [[?|?]|]; try done.
      rewrite measure_app in IH. lia.
Qed.

End LoopSpec.

(** ** Aligned strings *)

(** Removal of the gap symbol, [a.replace('-', '')]. *)
Fixpoint strip_gaps (s : string) : string :=
  match s with
  | EmptyString => EmptyString
  | String c s' => if Ascii.eqb c "-" then strip_gaps s' else String c (strip_gaps s')
  end.

(** The gap symbol is not a symbol of the sequence. *)
Definition no_gap (s : string) : Prop :=
  forall k, String.get k s <> Some "-"%char.

Lemma app_cons c (s t : string) : String c s +:+ t = String c (s +:+ t).
Proof. reflexivity. Qed.

Lemma app_empty_l (t : string) : EmptyString +:+ t = t.
Proof. reflexivity. Qed.

Lemma app_empty_r (s : string) : s +:+ EmptyString = s.
Proof. induction s as [|c s IH]; [done|]. by rewrite app_cons, IH. Qed.

Lemma length_app (s t : string) :
  String.length (s +:+ t) = (String.length s + String.length t)%nat.
Proof. induction s as [|c s IH]; [done|]. rewrite app_cons. simpl. by rewrite IH. Qed.

Lemma strip_gaps_app (s t : string) :
  strip_gaps (s +:+ t) = strip_gaps s +:+ strip_gaps t.
Proof.
  induction s as [|c s IH]; [done|]. rewrite app_cons. simpl.
  destruct (Ascii.eqb c "-"); [done|]. by rewrite app_cons, IH.
Qed.

Lemma substring_zero (a : nat) (s : string) : substring a 0 s = EmptyString.
Proof. revert a; induction s as [|c s IH]; intros [|a]; simpl; auto. Qed.

Lemma substring_snoc (s : string) (a k : nat) c :
  String.get (a + k) s = Some c ->
  substring a k s +:+ String c EmptyString = substring a (S k) s.
Proof.
  revert a k; induction s as [|c' s IH]; intros a k; [by destruct a, k|].
  destruct a as [|a]; simpl.
  - destruct k as [|k]; simpl.
    + intros [= ->]. by rewrite substring_zero.
    + intros Hget. rewrite app_cons. f_equal. by apply (IH 0%nat).
  - intros Hget. by apply IH.
Qed.

Lemma substring_full (s : string) : substring 0 (String.length s) s = s.
Proof. induction s as [|c s IH]; simpl; [done|]. by rewrite IH. Qed.

Lemma sym_get (s : string) (pos : Z) :
  1 <= pos <= Z.of_nat (String.length s) ->
  exists c, String.get (String.length s - Z.to_nat pos) s = Some c /\
            sym s pos = String c EmptyString.
Proof.
  intros Hpos. unfold sym.
  destruct (get_is_Some s (String.length s - Z.to_nat pos)) as [c Hc]; [lia|].
  exists c. by rewrite Hc.
Qed.

Section PathSpec.
Variable self : SequenceAlignment.
Variable score_matrix : matrix Z.
Variable directional_matrix : matrix DirectionalCell.
Hypothesis Hbuilt : built self (score_matrix, directional_matrix).
Hypothesis Hgap1 : no_gap (seq1 self).
Hypothesis Hgap2 : no_gap (seq2 self).

Let m : nat := String.length (seq1 self).
Let n : nat := String.length (seq2 self).

(** A pending state that started at [(r0, c0)]: its strings hold the
    symbols read so far, and as many columns each. *)
Definition path_ok (s : state) : Prop :=
  let '(posY, posX, p1, p2) := s in
  in_range self s /\
  String.length p1 = String.length p2 /\
  exists r0 c0 : nat,
    (Z.to_nat posY <= r0 <= m)%nat /\ (Z.to_nat posX <= c0 <= n)%nat /\
    strip_gaps p1 = substring (m - r0) (r0 - Z.to_nat posY) (seq1 self) /\
    strip_gaps p2 = substring (n - c0) (c0 - Z.to_nat posX) (seq2 self) /\
    (strategy self = "global" -> r0 = m /\ c0 = n).

(** A finished pair. *)
Definition aligned_ok (a : string * string) : Prop :=
  String.length (fst a) = String.length (snd a) /\
  (exists start len, (start + len <= m)%nat /\
     strip_gaps (fst a) = substring start len (seq1 self)) /\
  (exists start len, (start + len <= n)%nat /\
     strip_gaps (snd a) = substring start len (seq2 self)) /\
  (strategy self = "global" ->
     strip_gaps (fst a) = seq1 self /\ strip_gaps (snd a) = seq2 self).

Definition path_inv (states : list state) (sols : gset (string * string)) : Prop :=
  Forall path_ok states /\ forall a, a ∈ sols -> aligned_ok a.

Lemma strip_sym1 pos :
  1 <= pos <= Z.of_nat m ->
  exists c, String.get (m - Z.to_nat pos) (seq1 self) = Some c /\
            sym (seq1 self) pos = String c EmptyString /\
            strip_gaps (sym (seq1 self) pos) = String c EmptyString.
Proof.
  intros Hpos. destruct (sym_get (seq1 self) pos Hpos) as (c & Hc & Hs).
  exists c. split; [done|]. split; [done|]. rewrite Hs. simpl.
  destruct (Ascii.eqb_spec c "-") as [->|]; [|done]. by apply Hgap1 in Hc.
Qed.

Lemma strip_sym2 pos :
  1 <= pos <= Z.of_nat n ->
  exists c, String.get (n - Z.to_nat pos) (seq2 self) = Some c /\
            sym (seq2 self) pos = String c EmptyString /\
            strip_gaps (sym (seq2 self) pos) = String c EmptyString.
Proof.
  intros Hpos. destruct (sym_get (seq2 self) pos Hpos) as (c & Hc & Hs).
  exists c. split; [done|]. split; [done|]. rewrite Hs. simpl.
  destruct (Ascii.eqb_spec c "-") as [->|]; [|done]. by apply Hgap2 in Hc.
Qed.

(** Reading one more symbol extends the run by one. *)
Lemma run_extend (s : string) (len r0 pos : nat) c :
  len = String.length s -> (1 <= pos <= r0)%nat -> (r0 <= len)%nat ->
  String.get (len - pos) s = Some c ->
  substring (len - r0) (r0 - pos) s +:+ String c EmptyString =
  substring (len - r0) (r0 - (pos - 1)) s.
Proof.
  intros -> Hpos Hr0 Hc. replace (r0 - (pos - 1))%nat with (S (r0 - pos)) by lia.
  apply substring_snoc. by replace (String.length s - r0 + (r0 - pos))%nat
    with (String.length s - pos)%nat by lia.
Qed.

Lemma path_ok_next cell posY posX p1 p2 s' :
  path_ok (posY, posX, p1, p2) ->
  mat_lookup directional_matrix (Z.to_nat posY) (Z.to_nat posX) = Some cell ->
  s' ∈ next_states self cell (posY, posX, p1, p2) ->
  path_ok s'.
Proof.
  intros Hok Hcell Hs'.
  pose proof Hok as (Hin & Hlen & r0 & c0 & Hr0 & Hc0 & H1 & H2 & Hglob).
  destruct (next_states_in_range self _ _ Hbuilt cell posY posX p1 p2 s' Hin Hcell Hs')
    as [Hin' _].
  destruct (flags_sound self _ Hbuilt _ _ _ Hcell) as (Hu & Hl & Hd). simpl in Hu, Hl, Hd.
  destruct Hin as [HY HX]. fold m n in HY, HX.
  unfold next_states in Hs'.
  apply elem_of_app in Hs' as [Hs'|Hs']; [|apply elem_of_app in Hs' as [Hs'|Hs']].
  - destruct (diagonal cell); [|by apply elem_of_nil in Hs'].
    apply list_elem_of_singleton in Hs' as ->. destruct Hd as [Hd1 Hd2]; [done|].
    destruct (strip_sym1 posY) as (x1 & Hx1 & Hs1 & Hst1); [lia|].
    destruct (strip_sym2 posX) as (x2 & Hx2 & Hs2 & Hst2); [lia|].
    split; [done|]. split.
    { rewrite !length_app, Hs1, Hs2. simpl. lia. }
    exists r0, c0. rewrite !strip_gaps_app, Hst1, Hst2, H1, H2.
    replace (Z.to_nat (posY - 1)) with (Z.to_nat posY - 1)%nat by lia.
    replace (Z.to_nat (posX - 1)) with (Z.to_nat posX - 1)%nat by lia.
    repeat split; try lia; try (by apply Hglob).
    + apply (run_extend (seq1 self) m r0 (Z.to_nat posY) x1); [reflexivity|lia|lia|exact Hx1].
    + apply (run_extend (seq2 self) n c0 (Z.to_nat posX) x2); [reflexivity|lia|lia|exact Hx2].
  - destruct (up cell); [|by apply elem_of_nil in Hs'].
    apply list_elem_of_singleton in Hs' as ->. specialize (Hu eq_refl).
    destruct (strip_sym1 posY) as (x1 & Hx1 & Hs1 & Hst1); [lia|].
    split; [done|]. split.
    { rewrite !length_app, Hs1. simpl. lia. }
    exists r0, c0. rewrite !strip_gaps_app, Hst1, H1, H2.
    replace (Z.to_nat (posY - 1)) with (Z.to_nat posY - 1)%nat by lia.
    repeat split; try lia; try (by apply Hglob).
    + apply (run_extend (seq1 self) m r0 (Z.to_nat posY) x1); [reflexivity|lia|lia|exact Hx1].
    + change (strip_gaps "-") with EmptyString. apply app_empty_r.
  - destruct (left cell); [|by apply elem_of_nil in Hs'].
    apply list_elem_of_singleton in Hs' as ->. specialize (Hl eq_refl).
    destruct (strip_sym2 posX) as (x2 & Hx2 & Hs2 & Hst2); [lia|].
    split; [done|]. split.
    { rewrite !length_app, Hs2. simpl. lia. }
    exists r0, c0. rewrite !strip_gaps_app, Hst2, H1, H2.
    replace (Z.to_nat (posX - 1)) with (Z.to_nat posX - 1)%nat by lia.
    repeat split; try lia; try (by apply Hglob).
    + change (strip_gaps "-") with EmptyString. apply app_empty_r.
    + apply (run_extend (seq2 self) n c0 (Z.to_nat posX) x2); [reflexivity|lia|lia|exact Hx2].
Qed.

Lemma path_ok_finished cell score posY posX p1 p2 :
  path_ok (posY, posX, p1, p2) ->
  mat_lookup directional_matrix (Z.to_nat posY) (Z.to_nat posX) = Some cell ->
  finished self cell score = true ->
  aligned_ok (p1, p2).
Proof.
  intros (Hin & Hlen & r0 & c0 & Hr0 & Hc0 & H1 & H2 & Hglob) Hcell Hfin.
  split; [done|]. split; [|split].
  - exists (m - r0)%nat, (r0 - Z.to_nat posY)%nat. split; [lia|done].
  - exists (n - c0)%nat, (c0 - Z.to_nat posX)%nat. split; [lia|done].
  - intros Hg. destruct (Hglob Hg) as [-> ->]. simpl.
    unfold finished in Hfin. rewrite Hg in Hfin. simpl in Hfin.
    rewrite orb_false_r in Hfin. apply Z.eqb_eq in Hfin.
    destruct (no_flag_origin self _ Hbuilt (Z.to_nat posY) (Z.to_nat posX) cell)
      as [HY0 HX0]; [by rewrite Hg|done|done|].
    rewrite H1, H2, HY0, HX0, !Nat.sub_diag, !Nat.sub_0_r.
    split; apply substring_full.
Qed.

Lemma path_inv_step posY posX p1 p2 states sols cell score :
  path_inv ((posY, posX, p1, p2) :: states) sols ->
  mat_lookup directional_matrix (Z.to_nat posY) (Z.to_nat posX) = Some cell ->
  if finished self cell score then path_inv states ({[ (p1, p2) ]} ∪ sols)
  else path_inv (next_states self cell (posY, posX, p1, p2) ++ states)%list sols.
Proof.
  intros [Hst Hsols] Hcell. apply Forall_cons in Hst as [Hs Hst].
  destruct (finished self cell score) eqn:Hfin.
  - split; [done|]. intros a Ha. apply elem_of_union in Ha as [Ha|Ha]; [|by apply Hsols].
    apply elem_of_singleton in Ha as ->. by eapply path_ok_finished.
  - split; [|done]. apply Forall_app. split; [|done].
    apply Forall_forall. intros s' Hs'. by eapply path_ok_next.
Qed.

End PathSpec.

(** ** Start of the search *)

Lemma fold_max_spec l x :
  fold_left Z.max l x ∈ x :: l /\ forall y, y ∈ x :: l -> y <= fold_left Z.max l x.
Proof.
  revert x; induction l as [|z l IH]; intros x; simpl.
  - split; [by left|]. intros y Hy. apply list_elem_of_singleton in Hy as ->. lia.
  - destruct (IH (Z.max x z)) as [Hin Hle]. split.
    + apply elem_of_cons in Hin as [Hin|Hin]; [|by do 2 right].
      rewrite Hin. destruct (Z.max_spec x z) as [[_ ->]|[_ ->]]; [right; left|left].
    + intros y Hy. apply elem_of_cons in Hy as [->|Hy].
      * specialize (Hle (Z.max x z)). lapply Hle; [lia|by left].
      * apply elem_of_cons in Hy as [->|Hy].
        -- specialize (Hle (Z.max x z)). lapply Hle; [lia|by left].
        -- apply Hle. by right.
Qed.

Lemma np_max_spec l mx :
  np_max l = Ok mx -> mx ∈ l /\ forall y, y ∈ l -> y <= mx.
Proof.
  destruct l as [|x l]; simpl; [done|]. intros [= <-]. apply fold_max_spec.
Qed.

Lemma elem_of_concat_mat {A} (M : matrix A) v :
  v ∈ concat M <-> exists i j, mat_lookup M i j = Some v.
Proof.
  rewrite list_elem_of_In, in_concat. unfold mat_lookup. split.
  - intros (row & Hrow & Hv). apply list_elem_of_In, list_elem_of_lookup in Hrow as [i Hi].
    apply list_elem_of_In, list_elem_of_lookup in Hv as [j Hj].
    exists i, j. by rewrite Hi.
  - intros (i & j & Hij). destruct (M !! i) as [row|] eqn:Hi; simpl in Hij; [|done].
    exists row. split; apply list_elem_of_In; eapply list_elem_of_lookup_2; eauto.
Qed.

Lemma argwhere_eq_spec (M : matrix Z) v i j :
  (i, j) ∈ argwhere_eq M v <-> mat_lookup M i j = Some v.
Proof.
  unfold argwhere_eq, mat_lookup. rewrite list_elem_of_In, in_concat. split.
  - intros (l & Hl & Hij). apply list_elem_of_In, list_elem_of_lookup in Hl as [k Hk].
    rewrite list_lookup_imap in Hk. destruct (M !! k) as [row|] eqn:Hrow; simpl in Hk; [|done].
    injection Hk as <-. apply list_elem_of_In, list_elem_of_omap in Hij as ([j' x] & Hjx & Hsel).
    apply list_elem_of_lookup in Hjx as [k' Hk']. rewrite list_lookup_imap in Hk'.
    destruct (row !! k') as [x'|] eqn:Hx'; simpl in Hk'; [|done].
    injection Hk' as <- <-. simpl in Hsel. destruct (Z.eqb_spec x' v) as [->|]; [|done].
    injection Hsel as <- <-. by rewrite Hrow.
  - intros Hij. destruct (M !! i) as [row|] eqn:Hrow; simpl in Hij; [|done].
    eexists. split.
    + apply list_elem_of_In. eapply list_elem_of_lookup_2.
      rewrite list_lookup_imap, Hrow. reflexivity.
    + apply list_elem_of_In, list_elem_of_omap. exists (j, v). split.
      * eapply list_elem_of_lookup_2. rewrite list_lookup_imap, Hij. reflexivity.
      * simpl. by rewrite Z.eqb_refl.
Qed.

Section InitSpec.
Variable self : SequenceAlignment.
Variable score_matrix : matrix Z.
Variable directional_matrix : matrix DirectionalCell.
Hypothesis Hbuilt : built self (score_matrix, directional_matrix).

Let m : nat := String.length (seq1 self).
Let n : nat := String.length (seq2 self).

Lemma initial_states_global :
  strategy self = "global" ->
  exists top,
    mat_lookup score_matrix m n = Some top /\
    initial_states self score_matrix directional_matrix =
      Ok (top, [(Z.of_nat m, Z.of_nat n, "", "")]).
Proof.
  intros Hg. destruct Hbuilt as [[HS HD] _ _]. simpl in HS, HD. fold m n in HS, HD.
  destruct (has_shape_lookup score_matrix _ _ m n HS) as [top Htop]; [lia..|].
  exists top. split; [done|]. unfold initial_states. rewrite Hg.
  change (String.eqb "global" "global") with true. cbv iota.
  assert (mat_get score_matrix (-1) (-1) = Ok top) as ->.
  { unfold mat_get. destruct HS as [Hlen Hrows]. rewrite Hlen.
    change (-1) with (- Z.of_nat 1). rewrite py_index_neg by lia. simpl.
    unfold mat_lookup in Htop. replace (m + 1 - 1)%nat with m by lia.
    destruct (score_matrix !! m) as [row|] eqn:Hrow; simpl in Htop; [|done].
    rewrite Forall_lookup in Hrows. rewrite (Hrows _ _ Hrow).
    rewrite py_index_neg by lia. simpl. replace (n + 1 - 1)%nat with n by lia.
    by rewrite Htop. }
  assert (shape_from_1 directional_matrix = (m, n)) as ->; [|done].
  unfold shape_from_1, shape. destruct HD as [Hlen Hrows].
  destruct directional_matrix as [|row rows]; simpl in Hlen; [lia|].
  apply Forall_cons in Hrows as [Hrow _]. simpl. rewrite Hrow. f_equal; lia.
Qed.

Lemma initial_states_local :
  strategy self = "local" ->
  exists mx,
    initial_states self score_matrix directional_matrix =
      Ok (mx, rev (map (fun cell : nat * nat =>
                          (Z.of_nat (fst cell), Z.of_nat (snd cell), "", ""))
                       (argwhere_eq score_matrix mx))) /\
    (exists i j, mat_lookup score_matrix i j = Some mx) /\
    (forall i j v, mat_lookup score_matrix i j = Some v -> v <= mx).
Proof.
  intros Hl. destruct Hbuilt as [[HS HD] _ _]. simpl in HS, HD. fold m n in HS, HD.
  destruct (has_shape_lookup score_matrix _ _ 0%nat 0%nat HS) as [v0 Hv0]; [lia..|].
  assert (v0 ∈ concat score_matrix) as Hin by (apply elem_of_concat_mat; eauto).
  destruct (np_max (concat score_matrix)) as [mx|e] eqn:Hmax.
  2:{ destruct (concat score_matrix); [by apply elem_of_nil in Hin|done]. }
  exists mx. apply np_max_spec in Hmax as [Hmx Hle]. split; [|split].
  - unfold initial_states. rewrite Hl. simpl.
    destruct (np_max (concat score_matrix)) as [mx'|e] eqn:Hmax'; simpl.
    + apply np_max_spec in Hmax' as [Hmx' Hle'].
      assert (mx' = mx) as -> by (apply Z.le_antisymm; auto). done.
    + destruct (concat score_matrix); [by apply elem_of_nil in Hin|done].
  - by apply elem_of_concat_mat.
  - intros i j v Hv. apply Hle, elem_of_concat_mat. eauto.
Qed.

Lemma initial_states_other :
  strategy self <> "global" -> strategy self <> "local" ->
  initial_states self score_matrix directional_matrix = Raise AttributeError.
Proof.
  intros Hg Hl. unfold initial_states.
  apply String.eqb_neq in Hg, Hl. by rewrite Hg, Hl.
Qed.

(** The pending states of the start are cells of the matrix. *)
Lemma initial_states_cells mx states s :
  initial_states self score_matrix directional_matrix = Ok (mx, states) ->
  s ∈ states ->
  exists i j : nat,
    s = (Z.of_nat i, Z.of_nat j, "", "") /\ (i <= m)%nat /\ (j <= n)%nat /\
    (strategy self = "global" -> i = m /\ j = n) /\
    (strategy self = "local" -> mat_lookup score_matrix i j = Some mx).
Proof.
  intros Hinit Hs.
  destruct (String.eqb_spec (strategy self) "global") as [Hg|Hg].
  - destruct (initial_states_global Hg) as (top & Htop & Heq).
    rewrite Heq in Hinit. injection Hinit as <- <-.
    apply list_elem_of_singleton in Hs as ->. exists m, n.
    repeat split; try lia. intros Hl. rewrite Hg in Hl. discriminate.
  - destruct (String.eqb_spec (strategy self) "local") as [Hl|Hl].
    + destruct (initial_states_local Hl) as (mx' & Heq & _ & _).
      rewrite Heq in Hinit. injection Hinit as <- <-.
      apply list_elem_of_In, in_rev, in_map_iff in Hs as ([i j] & <- & Hij).
      apply list_elem_of_In, argwhere_eq_spec in Hij. simpl.
      destruct Hbuilt as [[HS _] _ _]. simpl in HS.
      destruct (mat_lookup_bound _ _ _ _ _ _ HS Hij) as [Hi Hj]. fold m n in Hi, Hj.
      exists i, j. repeat split; try lia; try done.
    + by rewrite initial_states_other in Hinit.
Qed.

End InitSpec.

(** ** The order of the finished pairs *)

Lemma pair_compare_antisym a b : pair_compare a b = CompOpp (pair_compare b a).
Proof.
  unfold pair_compare. rewrite (String.compare_antisym (fst b) (fst a)).
  destruct (String.compare (fst a) (fst b)); simpl; [|done..].
  apply String.compare_antisym.
Qed.

Lemma pair_compare_eq a b : pair_compare a b = Eq -> a = b.
Proof.
  unfold pair_compare. destruct a as [a1 a2], b as [b1 b2]. simpl.
  destruct (String.compare a1 b1) eqn:H1; try done.
  intros H2. apply String.compare_eq_iff in H1, H2. by subst.
Qed.

Lemma compare_not_Lt_le (s t : string) : String.compare s t <> Lt <-> String.le t s.
Proof.
  unfold String.le, String.leb. rewrite (String.compare_antisym s t).
  destruct (String.compare t s); simpl; split; try done.
Qed.

Lemma compare_Gt_trans (s t u : string) :
  String.compare s t = Gt -> String.compare t u = Gt -> String.compare s u = Gt.
Proof.
  intros Hst Htu.
  assert (String.le t s) as H1 by (apply compare_not_Lt_le; congruence).
  assert (String.le u t) as H2 by (apply compare_not_Lt_le; congruence).
  assert (String.le u s) as H3 by (etrans; eauto).
  apply compare_not_Lt_le in H3. destruct (String.compare s u) eqn:Hsu; try done.
  apply String.compare_eq_iff in Hsu as ->.
  rewrite String.compare_antisym, Htu in Hst. done.
Qed.

#[global] Instance pair_ge_total : Total pair_ge.
Proof.
  intros a b. unfold pair_ge. rewrite (pair_compare_antisym b a).
  destruct (pair_compare a b); simpl; [left|right|left]; congruence.
Qed.

#[global] Instance pair_ge_trans : Transitive pair_ge.
Proof.
  intros [a1 a2] [b1 b2] [c1 c2]. unfold pair_ge, pair_compare. simpl.
  destruct (String.compare a1 b1) eqn:Hab; [|done|];
    destruct (String.compare b1 c1) eqn:Hbc; try done.
  - apply String.compare_eq_iff in Hab as ->. apply String.compare_eq_iff in Hbc as ->.
    assert (String.compare c1 c1 = Eq) as ->.
    { destruct (String.compare c1 c1) eqn:H; [done|..];
        pose proof (String.compare_antisym c1 c1) as Ha; rewrite H in Ha; done. }
    rewrite !compare_not_Lt_le. intros H1 H2. etrans; eauto.
  - apply String.compare_eq_iff in Hab as ->. by rewrite Hbc.
  - apply String.compare_eq_iff in Hbc as ->. by rewrite Hab.
  - by rewrite (compare_Gt_trans _ _ _ Hab Hbc).
Qed.

Lemma sorted_reverse_perm sols : sorted_reverse sols ≡ₚ elements sols.
Proof. apply merge_sort_Permutation. Qed.

Lemma elem_of_sorted_reverse sols a : a ∈ sorted_reverse sols <-> a ∈ sols.
Proof. by rewrite sorted_reverse_perm, elem_of_elements. Qed.

Lemma sorted_reverse_sorted sols : StronglySorted pair_ge (sorted_reverse sols).
Proof. apply StronglySorted_merge_sort; apply _. Qed.

Lemma sorted_reverse_NoDup sols : NoDup (sorted_reverse sols).
Proof. rewrite sorted_reverse_perm. apply NoDup_elements. Qed.

Lemma sorted_reverse_length sols : length (sorted_reverse sols) = size sols.
Proof. by rewrite sorted_reverse_perm. Qed.

(** ** The loop on any matrices *)

Section LoopAny.
Variable self : SequenceAlignment.
Variable score_matrix : matrix Z.
Variable directional_matrix : matrix DirectionalCell.
Variable n_max : Z.

Lemma traceback_loop_fuel_mono fuel fuel' states sols r :
  (fuel <= fuel')%nat ->
  traceback_loop self score_matrix directional_matrix fuel n_max states sols = Some r ->
  traceback_loop self score_matrix directional_matrix fuel' n_max states sols = Some r.
Proof.
  revert fuel' states sols. induction fuel as [|fuel IH]; intros fuel' states sols Hle.
  - destruct states as [|s states], fuel'; simpl; try done;
      destruct (Z.of_nat (size sols) <? n_max); done.
  - destruct fuel' as [|fuel']; [lia|]. destruct states as [|s states]; simpl; [done|].
    destruct (Z.of_nat (size sols) <? n_max); [|done].
    destruct (traceback_step _ _ _ s states sols) as [st|e]; [|done].
    apply IH. lia.
Qed.

Lemma traceback_step_sols posY posX p1 p2 states sols st :
  traceback_step self score_matrix directional_matrix (posY, posX, p1, p2) states sols
    = Ok st ->
  snd st = sols \/ snd st = {[ (p1, p2) ]} ∪ sols.
Proof.
  unfold traceback_step. intros H. inv_bind H. inv_bind H.
  destruct x0.
  - injection H as <-. by right.
  - destruct (get_directions x) as [[u d] l]. inv_bind H. inv_bind H. inv_bind H.
    injection H as <-. by left.
Qed.

Lemma traceback_loop_size fuel states sols res :
  traceback_loop self score_matrix directional_matrix fuel n_max states sols
    = Some (Ok res) ->
  Z.of_nat (size sols) <= Z.max n_max 0 ->
  Z.of_nat (size res) <= Z.max n_max 0.
Proof.
  revert states sols. induction fuel as [|fuel IH]; intros states sols.
  - destruct states as [|s states]; simpl; [by intros [= <-]|].
    destruct (Z.of_nat (size sols) <? n_max); [done|]. by intros [= <-].
  - destruct states as [|s states]; simpl; [by intros [= <-]|].
    destruct (Z.ltb_spec (Z.of_nat (size sols)) n_max) as [Hlt|Hge]; [|by intros [= <-]].
    destruct s as [[[posY posX] p1] p2].
    destruct (traceback_step _ _ _ _ states sols) as [st|e] eqn:Hstep; [|done].
    intros Hrun Hsize. apply (IH _ _ Hrun).
    apply traceback_step_sols in Hstep as [->| ->]; [lia|].
    pose proof (size_union_alt ({[ (p1, p2) ]} : gset (string * string)) sols) as Hu.
    rewrite size_singleton in Hu.
    assert (size (sols ∖ {[ (p1, p2) ]}) <= size sols)%nat
      by (apply subseteq_size, subseteq_difference_l; reflexivity).
    lia.
Qed.

End LoopAny.

(** A loop that ends below its bound has emptied the stack: a larger bound
    changes nothing. *)
Lemma traceback_loop_exhausted self SM DM n1 n2 fuel states sols res1 res2 :
  n1 <= n2 ->
  traceback_loop self SM DM fuel n1 states sols = Some (Ok res1) ->
  Z.of_nat (size res1) < n1 ->
  traceback_loop self SM DM fuel n2 states sols = Some (Ok res2) ->
  res1 = res2.
Proof.
  intros Hle. revert states sols. induction fuel as [|fuel IH]; intros states sols.
  - destruct states as [|s states]; simpl; [by intros [= <-] _ [= <-]|].
    destruct (Z.ltb_spec (Z.of_nat (size sols)) n1); [done|].
    intros [= <-] Hlt. lia.
  - destruct states as [|s states]; [by intros [= <-] _ [= <-]|].
    intros H1 Hlt H2. simpl in H1.
    destruct (Z.ltb_spec (Z.of_nat (size sols)) n1) as [Hlt1|Hge].
    + simpl in H2. destruct (Z.ltb_spec (Z.of_nat (size sols)) n2); [|lia].
      destruct (traceback_step _ _ _ s states sols) as [st|e]; [|done]. by eapply IH.
    + injection H1 as <-. lia.
Qed.

Lemma sorted_reverse_nil sols : sorted_reverse sols = [] -> sols = ∅.
Proof.
  intros Hnil. apply leibniz_equiv, size_empty_inv.
  by rewrite <- sorted_reverse_length, Hnil.
Qed.

(** ** The enumeration on the finished matrices *)

(** A cell that does not finish a path has a branch to push. *)
Lemma next_states_nonempty self st r c cell score (s : state) :
  built self st ->
  mat_lookup (snd st) r c = Some cell ->
  finished self cell score = false ->
  next_states self cell s <> [].
Proof.
  intros Hbuilt Hcell Hfin. unfold finished in Hfin.
  apply orb_false_iff in Hfin as [Hnum _]. apply Z.eqb_neq in Hnum.
  destruct s as [[[posY posX] p1] p2]. unfold next_states.
  destruct (built_cell_kind self _ Hbuilt r c cell Hcell) as [? ? ->|? ? ->|? ? ->|u d l ? ? ->];
    simpl in *; try done.
  destruct (u =? _), (d =? _), (l =? _); simpl in *; done.
Qed.

Lemma traceback_inv self score_matrix directional_matrix fuel n_max res score :
  _traceback self score_matrix directional_matrix fuel n_max = Some (Ok (res, score)) ->
  exists states sols,
    initial_states self score_matrix directional_matrix = Ok (score, states) /\
    traceback_loop self score_matrix directional_matrix fuel n_max states ∅ = Some (Ok sols) /\
    res = sorted_reverse sols.
Proof.
  unfold _traceback. destruct (initial_states _ _ _) as [[mx states]|e]; [|done].
  destruct (traceback_loop _ _ _ _ _ _ _) as [[sols|e]|] eqn:Hloop; try done.
  intros [= <- <-]. by exists states, sols.
Qed.

Section Run.
Variable self : SequenceAlignment.
Variable score_matrix : matrix Z.
Variable directional_matrix : matrix DirectionalCell.
Hypothesis Hbuilt : built self (score_matrix, directional_matrix).
Variable n_max : Z.

Lemma initial_in_range mx states :
  initial_states self score_matrix directional_matrix = Ok (mx, states) ->
  Forall (in_range self) states.
Proof.
  intros Hinit. apply Forall_forall. intros s Hs.
  destruct (initial_states_cells self _ _ Hbuilt mx states s Hinit Hs)
    as (i & j & -> & Hi & Hj & _). simpl. lia.
Qed.

(** The loop raises nothing, and the measure of the pending states is
    enough fuel. *)
Lemma loop_safe states sols fuel :
  Forall (in_range self) states ->
  match traceback_loop self score_matrix directional_matrix fuel n_max states sols with
  | Some (Ok _) => True
  | Some (Raise _) => False
  | None => (fuel < measure states)%nat
  end.
Proof.
  intros Hst.
  pose proof (traceback_loop_rule self _ _ Hbuilt n_max
    (fun states _ => Forall (in_range self) states)) as R.
  lapply R; [clear R; intros R|].
  - lapply R; [clear R; intros R|].
    + specialize (R fuel states sols Hst).
      by destruct (traceback_loop _ _ _ _ _ _ _) as [[?|?]|].
    + intros posY posX p1 p2 sts sls cell score Hall _ Hcell _.
      apply Forall_cons in Hall as [Hs Hall].
      destruct (finished self cell score); [done|].
      apply Forall_app. split; [|done]. apply Forall_forall. intros s' Hs'.
      by destruct (next_states_in_range self _ _ Hbuilt _ _ _ _ _ _ Hs Hcell Hs').
  - intros s sts sls Hall. by apply Forall_cons in Hall as [? _].
Qed.

Lemma traceback_total mx states :
  initial_states self score_matrix directional_matrix = Ok (mx, states) ->
  exists sols,
    _traceback self score_matrix directional_matrix (measure states) n_max =
      Some (Ok (sorted_reverse sols, mx)).
Proof.
  intros Hinit. pose proof (loop_safe states ∅ (measure states)
    (initial_in_range _ _ Hinit)) as H.
  unfold _traceback. rewrite Hinit.
  destruct (traceback_loop _ _ _ _ _ _ _) as [[sols|e]|]; [eauto|done|lia].
Qed.

Lemma traceback_no_raise mx states fuel r :
  initial_states self score_matrix directional_matrix = Ok (mx, states) ->
  _traceback self score_matrix directional_matrix fuel n_max = Some r ->
  exists res, r = Ok (res, mx).
Proof.
  intros Hinit. pose proof (loop_safe states ∅ fuel (initial_in_range _ _ Hinit)) as H.
  unfold _traceback. rewrite Hinit.
  destruct (traceback_loop _ _ _ _ _ _ _) as [[sols|e]|]; [|done..].
  intros [= <-]. eauto.
Qed.

(** The search starts from at least one cell. *)
Lemma initial_states_nonempty mx states :
  initial_states self score_matrix directional_matrix = Ok (mx, states) -> states <> [].
Proof.
  intros Hinit.
  destruct (String.eqb_spec (strategy self) "global") as [Hg|Hg].
  - destruct (initial_states_global self _ _ Hbuilt Hg) as (top & _ & Heq).
    rewrite Heq in Hinit. by injection Hinit as _ <-.
  - destruct (String.eqb_spec (strategy self) "local") as [Hl|Hl].
    + destruct (initial_states_local self _ _ Hbuilt Hl) as (mx' & Heq & (i & j & Hij) & _).
      rewrite Heq in Hinit. injection Hinit as <- <-. intros Hnil.
      apply argwhere_eq_spec, list_elem_of_In in Hij.
      apply (in_map (fun cell : nat * nat =>
                       (Z.of_nat (fst cell), Z.of_nat (snd cell), "", ""))) in Hij.
      apply in_rev in Hij. rewrite Hnil in Hij. done.
    + by rewrite initial_states_other in Hinit.
Qed.

(** With a bound of at least one, a loop that has a pending state or a
    collected pair ends with a collected pair: every pop either collects
    the pair of a finished path or pushes at least one branch. *)
Lemma loop_collects states sols fuel res :
  Forall (in_range self) states ->
  states <> [] \/ sols <> ∅ ->
  1 <= n_max ->
  traceback_loop self score_matrix directional_matrix fuel n_max states sols
    = Some (Ok res) ->
  res <> ∅.
Proof.
  intros Hall Hor Hn Hloop.
  pose proof (traceback_loop_rule self _ _ Hbuilt n_max
    (fun states sols => Forall (in_range self) states /\ (states <> [] \/ sols <> ∅))) as R.
  lapply R; [clear R; intros R|].
  - lapply R; [clear R; intros R|].
    + specialize (R fuel states sols (conj Hall Hor)). rewrite Hloop in R.
      destruct R as (states' & [_ Hor'] & Hend). intros ->.
      destruct Hend as [->|Hend]; [by destruct Hor'|]. rewrite size_empty in Hend. lia.
    + intros posY posX p1 p2 sts sls cell sc [Hall' _] _ Hcell _.
      apply Forall_cons in Hall' as [Hs Hall'].
      destruct (finished self cell sc) eqn:Hfin.
      * split; [done|]. right. intros Hemp.
        assert ((p1, p2) ∈ ({[ (p1, p2) ]} ∪ sls)) as Hin
          by (apply elem_of_union; left; by apply elem_of_singleton).
        rewrite Hemp in Hin. by apply not_elem_of_empty in Hin.
      * split.
        -- apply Forall_app. split; [|done]. apply Forall_forall. intros s' Hs'.
           by destruct (next_states_in_range self _ _ Hbuilt _ _ _ _ _ _ Hs Hcell Hs').
        -- left. intros Happ. apply app_eq_nil in Happ as [Hnext _].
           by apply (next_states_nonempty self (score_matrix, directional_matrix) _ _ cell sc
                       (posY, posX, p1, p2) Hbuilt Hcell Hfin).
  - intros s sts sls [Hall' _]. by apply Forall_cons in Hall' as [? _].
Qed.

End Run.

(** ** Examples *)

Example load_mock_table :
  alignments_getitem mock_alignments "A" "A" = Ok 1 /\
  alignments_getitem mock_alignments "A" "T" = Ok (-1) /\
  alignments_getitem mock_alignments "G" "C" = Ok (-1).
Proof. by vm_compute. Qed.

Example build_A_T :
  _create_score_and_directional_matrices (mock "A" "T" "global" (-2)) =
  Ok ([[0; -2]; [-2; -1]], [[cell_none; cell_left]; [cell_up; cell_diagonal]]).
Proof. by vm_compute. Qed.

Example traceback_A_A :
  find_optimal_alignments (mock "A" "A" "global" (-2)) 10 1 = Some (Ok ([("A", "A")], 1)).
Proof. by vm_compute. Qed.

(** ** The claims *)

(** C3.  For every [i < m] and [j < n] the score stored in cell
    [(i+1, j+1)] is the maximum of the three candidates [diagonal], [up] and
    [left], clamped at [0] under the local strategy, and the flags of the
    cell are set exactly for the candidates equal to the stored score.  The
    candidates are sums on [int64] numbers ([np_add]); they are the integer
    sums whenever those fit. *)
Theorem C3_cell_recurrence (self : SequenceAlignment) (SM : matrix Z)
    (DM : matrix DirectionalCell) (i j : nat) :
  _create_score_and_directional_matrices self = Ok (SM, DM) ->
  (i < String.length (seq1 self))%nat ->
  (j < String.length (seq2 self))%nat ->
  exists c1 c2 sub s_d s_u s_l stored cell,
    String.get i (seq1 self) = Some c1 /\
    String.get j (seq2 self) = Some c2 /\
    alignments_getitem (alignments self) c1 c2 = Ok sub /\
    mat_get SM (Z.of_nat i) (Z.of_nat j) = Ok s_d /\
    mat_get SM (Z.of_nat i) (Z.of_nat j + 1) = Ok s_u /\
    mat_get SM (Z.of_nat i + 1) (Z.of_nat j) = Ok s_l /\
    mat_get SM (Z.of_nat i + 1) (Z.of_nat j + 1) = Ok stored /\
    mat_get DM (Z.of_nat i + 1) (Z.of_nat j + 1) = Ok cell /\
    let diagonal_score := np_add s_d sub in
    let up_score := np_add s_u (gap_penalty self) in
    let left_score := np_add s_l (gap_penalty self) in
    stored =
      (if String.eqb (strategy self) "local"
       then Z.max (Z.max (Z.max diagonal_score up_score) left_score) 0
       else Z.max (Z.max diagonal_score up_score) left_score) /\
    (up cell = true <-> up_score = stored) /\
    (diagonal cell = true <-> diagonal_score = stored) /\
    (left cell = true <-> left_score = stored) /\
    num_directions cell = Z.b2z (up cell) + Z.b2z (diagonal cell) + Z.b2z (left cell) /\
    (fits_int64 (s_d + sub) = true -> diagonal_score = s_d + sub) /\
    (fits_int64 (s_u + gap_penalty self) = true -> up_score = s_u + gap_penalty self) /\
    (fits_int64 (s_l + gap_penalty self) = true -> left_score = s_l + gap_penalty self).
Proof.
  intros Hbuild Hi Hj. apply build_built in Hbuild. destruct Hbuild as [_ _ Hin].
  destruct (Hin i j Hi Hj) as (c1 & c2 & sub & s_d & s_u & s_l & H1 & H2 & H3 & H4 & H5 & H6 & H7 & H8).
  simpl in H4, H5, H6, H7, H8.
  exists c1, c2, sub, s_d, s_u, s_l. eexists. eexists.
  replace (Z.of_nat i + 1) with (Z.of_nat (i + 1)) by lia.
  replace (Z.of_nat j + 1) with (Z.of_nat (j + 1)) by lia.
  rewrite !mat_get_nat, H4, H5, H6, H7, H8.
  split; [exact H1|]. split; [exact H2|]. split; [exact H3|].
  do 5 (split; [reflexivity|]). cbv zeta. unfold best_value.
  split.
  { rewrite py_max_max. destruct (String.eqb (strategy self) "local"); lia. }
  simpl. rewrite !Z.eqb_eq. unfold np_add.
  repeat split; try done; intros Hf; by rewrite wrap64_fits.
Qed.

Lemma C3_cell_recurrence_witness :
  _create_score_and_directional_matrices (mock "A" "T" "global" (-2)) =
    Ok ([[0; -2]; [-2; -1]], [[cell_none; cell_left]; [cell_up; cell_diagonal]]) /\
  exists c1 c2 sub s_d s_u s_l stored cell,
    String.get 0 "A" = Some c1 /\
    String.get 0 "T" = Some c2 /\
    alignments_getitem mock_alignments c1 c2 = Ok sub /\
    mat_get [[0; -2]; [-2; -1]] 0 0 = Ok s_d /\
    mat_get [[0; -2]; [-2; -1]] 0 (0 + 1) = Ok s_u /\
    mat_get [[0; -2]; [-2; -1]] (0 + 1) 0 = Ok s_l /\
    mat_get [[0; -2]; [-2; -1]] (0 + 1) (0 + 1) = Ok stored /\
    mat_get [[cell_none; cell_left]; [cell_up; cell_diagonal]] (0 + 1) (0 + 1) = Ok cell /\
    stored = -1 /\ sub = -1 /\ cell = cell_diagonal.
Proof.
  split; [by vm_compute|].
  destruct (C3_cell_recurrence (mock "A" "T" "global" (-2)) [[0; -2]; [-2; -1]]
              [[cell_none; cell_left]; [cell_up; cell_diagonal]] 0%nat 0%nat)
    as (c1 & c2 & sub & s_d & s_u & s_l & stored & cell & H1 & H2 & H3 & H4 & H5 & H6 & H7 & H8 & _).
  - by vm_compute.
  - vm_compute. lia.
  - vm_compute. lia.
  - exists c1, c2, sub, s_d, s_u, s_l, stored, cell.
    repeat (split; [assumption|]).
    vm_compute in H1, H2, H7, H8. injection H1 as <-. injection H2 as <-.
    vm_compute in H3. injection H3 as <-. injection H7 as <-. injection H8 as <-.
    done.
Defined.

(** C5.  Under the global strategy the returned score is the entry
    [(m, n)] and the search starts from the single state [(m, n, '', '')];
    under the local strategy the returned score is the maximum entry of the
    score matrix and the search starts from exactly the cells that hold it,
    each with empty strings; any other strategy raises the configuration
    error [AttributeError], and no alignment is returned. *)
Theorem C5_optimal_score_and_start (self : SequenceAlignment) (SM : matrix Z)
    (DM : matrix DirectionalCell) (n_max : Z) :
  _create_score_and_directional_matrices self = Ok (SM, DM) ->
  (strategy self = "global" ->
     exists top,
       mat_get SM (Z.of_nat (String.length (seq1 self)))
                  (Z.of_nat (String.length (seq2 self))) = Ok top /\
       initial_states self SM DM =
         Ok (top, [(Z.of_nat (String.length (seq1 self)),
                    Z.of_nat (String.length (seq2 self)), "", "")]) /\
       (exists fuel res, _traceback self SM DM fuel n_max = Some (Ok (res, top))) /\
       (forall fuel r, _traceback self SM DM fuel n_max = Some r ->
          exists res, r = Ok (res, top))) /\
  (strategy self = "local" ->
     exists mx states,
       initial_states self SM DM = Ok (mx, states) /\
       (exists i j : nat, mat_get SM (Z.of_nat i) (Z.of_nat j) = Ok mx) /\
       (forall (i j : nat) v, mat_get SM (Z.of_nat i) (Z.of_nat j) = Ok v -> v <= mx) /\
       (forall s, s ∈ states <->
          exists i j : nat, mat_get SM (Z.of_nat i) (Z.of_nat j) = Ok mx /\
                            s = (Z.of_nat i, Z.of_nat j, "", "")) /\
       (exists fuel res, _traceback self SM DM fuel n_max = Some (Ok (res, mx))) /\
       (forall fuel r, _traceback self SM DM fuel n_max = Some r ->
          exists res, r = Ok (res, mx))) /\
  (strategy self <> "global" -> strategy self <> "local" ->
     initial_states self SM DM = Raise AttributeError /\
     forall fuel, _traceback self SM DM fuel n_max = Some (Raise AttributeError)).
Proof.
  intros Hbuild. apply build_built in Hbuild. split; [|split].
  - intros Hg. destruct (initial_states_global self _ _ Hbuild Hg) as (top & Htop & Hinit).
    exists top. rewrite mat_get_nat, Htop. do 2 (split; [done|]). split.
    + destruct (traceback_total self _ _ Hbuild n_max _ _ Hinit) as [sols Hrun]. eauto.
    + intros fuel r. by apply (traceback_no_raise self _ _ Hbuild n_max _ _ fuel r Hinit).
  - intros Hl. destruct (initial_states_local self _ _ Hbuild Hl)
      as (mx & Hinit & (i & j & Hij) & Hle).
    eexists mx, _. split; [exact Hinit|]. split; [|split; [|split; [|split]]].
    + exists i, j. by rewrite mat_get_nat, Hij.
    + intros i' j' v. rewrite mat_get_nat.
      destruct (mat_lookup SM i' j') as [w|] eqn:Hw; [|done]. intros [= <-]. eauto.
    + intros s. rewrite list_elem_of_In, <- in_rev, in_map_iff. split.
      * intros ([i' j'] & <- & Hin). apply list_elem_of_In, argwhere_eq_spec in Hin.
        exists i', j'. by rewrite mat_get_nat, Hin.
      * intros (i' & j' & Hget & ->). exists (i', j'). split; [done|].
        apply list_elem_of_In, argwhere_eq_spec. rewrite mat_get_nat in Hget.
        by destruct (mat_lookup SM i' j') as [w|]; [injection Hget as ->|].
    + destruct (traceback_total self _ _ Hbuild n_max _ _ Hinit) as [sols Hrun]. eauto.
    + intros fuel r. by apply (traceback_no_raise self _ _ Hbuild n_max _ _ fuel r Hinit).
  - intros Hg Hl. pose proof (initial_states_other self SM DM Hg Hl) as Hinit.
    split; [done|]. intros fuel. unfold _traceback. by rewrite Hinit.
Qed.

Lemma C5_optimal_score_and_start_witness :
  _create_score_and_directional_matrices (mock "A" "T" "global" (-2)) =
    Ok ([[0; -2]; [-2; -1]], [[cell_none; cell_left]; [cell_up; cell_diagonal]]) /\
  exists top,
    mat_get [[0; -2]; [-2; -1]] 1 1 = Ok top /\
    initial_states (mock "A" "T" "global" (-2)) [[0; -2]; [-2; -1]]
      [[cell_none; cell_left]; [cell_up; cell_diagonal]] = Ok (top, [(1, 1, "", "")]).
Proof.
  split; [by vm_compute|].
  destruct (C5_optimal_score_and_start (mock "A" "T" "global" (-2)) [[0; -2]; [-2; -1]]
              [[cell_none; cell_left]; [cell_up; cell_diagonal]] 1) as [Hg _].
  - by vm_compute.
  - destruct Hg as (top & H1 & H2 & _); [reflexivity|]. exists top. split; [exact H1|exact H2].
Defined.

(** *** C6: the edges of the matrices *)

Definition single_up (cell : DirectionalCell) : Prop :=
  up cell = true /\ diagonal cell = false /\ left cell = false /\ num_directions cell = 1.

Definition single_left (cell : DirectionalCell) : Prop :=
  up cell = false /\ diagonal cell = false /\ left cell = true /\ num_directions cell = 1.

Definition no_flags (cell : DirectionalCell) : Prop :=
  up cell = false /\ diagonal cell = false /\ left cell = false /\ num_directions cell = 0.

(** The edge invariant in the words of the specification: row 0 with a
    single [fromUp] flag and column 0 with a single [fromLeft] flag under
    the global strategy, zero scores and no flags under the local one. *)
Definition boundary_as_stated (self : SequenceAlignment) (SM : matrix Z)
    (DM : matrix DirectionalCell) : Prop :=
  (strategy self = "global" ->
     (forall i : nat, (1 <= i <= String.length (seq1 self))%nat ->
        mat_get SM (Z.of_nat i) 0 = Ok (Z.of_nat i * gap_penalty self) /\
        exists cell, mat_get DM (Z.of_nat i) 0 = Ok cell /\ single_left cell) /\
     (forall i : nat, (1 <= i <= String.length (seq2 self))%nat ->
        mat_get SM 0 (Z.of_nat i) = Ok (Z.of_nat i * gap_penalty self) /\
        exists cell, mat_get DM 0 (Z.of_nat i) = Ok cell /\ single_up cell) /\
     (exists cell, mat_get DM 0 0 = Ok cell /\ no_flags cell)) /\
  (strategy self = "local" ->
     forall i j : nat, (i <= String.length (seq1 self))%nat ->
       (j <= String.length (seq2 self))%nat -> (i = 0 \/ j = 0)%nat ->
       mat_get SM (Z.of_nat i) (Z.of_nat j) = Ok 0 /\
       exists cell, mat_get DM (Z.of_nat i) (Z.of_nat j) = Ok cell /\ no_flags cell).

(** C6, as stated, fails: for [seq1 = seq2 = "A"] under the global strategy
    the row-0 cell [(0, 1)] carries the flag [left], not [up]. *)
Lemma C6_boundary_counterexample :
  exists SM DM,
    _create_score_and_directional_matrices (mock "A" "A" "global" (-2)) = Ok (SM, DM) /\
    ~ boundary_as_stated (mock "A" "A" "global" (-2)) SM DM.
Proof.
  exists [[0; -2]; [-2; 1]], [[cell_none; cell_left]; [cell_up; cell_diagonal]].
  split; [by vm_compute|].
  intros [Hg _]. destruct Hg as (_ & Hrow & _); [reflexivity|].
  destruct (Hrow 1%nat) as (_ & cell & Hcell & Hup & _); [simpl; lia|].
  vm_compute in Hcell. injection Hcell as <-. discriminate Hup.
Qed.

(** C6, amended.  Under the global strategy every cell [(i, 0)] and
    [(0, i)] with [i >= 1] holds the score [i * gap_penalty]; the cells
    [(i, 0)] of column 0 carry the single flag [up], the cells [(0, i)] of
    row 0 the single flag [left]; cell [(0, 0)] holds 0 and has no flag. *)
Theorem C6_global_boundary (self : SequenceAlignment) (SM : matrix Z)
    (DM : matrix DirectionalCell) :
  _create_score_and_directional_matrices self = Ok (SM, DM) ->
  strategy self = "global" ->
  (forall i : nat, (1 <= i <= String.length (seq1 self))%nat ->
     mat_get SM (Z.of_nat i) 0 = Ok (Z.of_nat i * gap_penalty self) /\
     exists cell, mat_get DM (Z.of_nat i) 0 = Ok cell /\ single_up cell) /\
  (forall i : nat, (1 <= i <= String.length (seq2 self))%nat ->
     mat_get SM 0 (Z.of_nat i) = Ok (Z.of_nat i * gap_penalty self) /\
     exists cell, mat_get DM 0 (Z.of_nat i) = Ok cell /\ single_left cell) /\
  mat_get SM 0 0 = Ok 0 /\
  (exists cell, mat_get DM 0 0 = Ok cell /\ no_flags cell).
Proof.
  intros Hbuild _. apply build_built in Hbuild. destruct Hbuild as [_ Hb _].
  change 0 with (Z.of_nat 0). split; [|split; [|split]].
  - intros i Hi. destruct (Hb i 0%nat) as [HS HD]; [lia|lia|by right|].
    simpl in HS, HD. rewrite !mat_get_nat, HS, HD. unfold edge_score, edge_cell.
    repeat case_decide; try lia.
    split; [done|]. eexists; split; [reflexivity|by vm_compute].
  - intros i Hi. destruct (Hb 0%nat i) as [HS HD]; [lia|lia|by left|].
    simpl in HS, HD. rewrite !mat_get_nat, HS, HD. unfold edge_score, edge_cell.
    repeat case_decide; try lia.
    split; [done|]. eexists; split; [reflexivity|by vm_compute].
  - destruct (Hb 0%nat 0%nat) as [HS HD]; [lia|lia|by left|].
    simpl in HS. rewrite mat_get_nat, HS. unfold edge_score.
    repeat case_decide; try lia. done.
  - destruct (Hb 0%nat 0%nat) as [HS HD]; [lia|lia|by left|].
    simpl in HD. rewrite mat_get_nat, HD. unfold edge_cell.
    repeat case_decide; try lia. eexists; split; [reflexivity|by vm_compute].
Qed.

Lemma C6_global_boundary_witness :
  _create_score_and_directional_matrices (mock "A" "A" "global" (-2)) =
    Ok ([[0; -2]; [-2; 1]], [[cell_none; cell_left]; [cell_up; cell_diagonal]]) /\
  mat_get [[0; -2]; [-2; 1]] 1 0 = Ok (-2) /\
  mat_get [[0; -2]; [-2; 1]] 0 1 = Ok (-2) /\
  mat_get [[0; -2]; [-2; 1]] 0 0 = Ok 0.
Proof.
  split; [by vm_compute|].
  destruct (C6_global_boundary (mock "A" "A" "global" (-2)) [[0; -2]; [-2; 1]]
              [[cell_none; cell_left]; [cell_up; cell_diagonal]]) as (Hc & Hr & H0 & _).
  - by vm_compute.
  - reflexivity.
  - destruct (Hc 1%nat) as [H1 _]; [simpl; lia|].
    destruct (Hr 1%nat) as [H2 _]; [simpl; lia|].
    split; [exact H1|]. split; [exact H2|exact H0].
Defined.

(** *** C7: shape of the returned pairs *)

(** The gap symbol does not occur in [s]. *)
Definition gap_free (s : string) : bool :=
  forallb (fun c => negb (Ascii.eqb c "-")) (list_ascii_of_string s).

Lemma gap_free_no_gap (s : string) : gap_free s = true -> no_gap s.
Proof.
  unfold gap_free, no_gap. intros H k Hk. rewrite forallb_forall in H.
  rewrite <- get_list_ascii in Hk. apply list_elem_of_lookup_2, list_elem_of_In in Hk.
  specialize (H _ Hk). by rewrite Ascii.eqb_refl in H.
Qed.

Lemma initial_path_inv self score_matrix directional_matrix mx states :
  built self (score_matrix, directional_matrix) ->
  initial_states self score_matrix directional_matrix = Ok (mx, states) ->
  path_inv self states ∅.
Proof.
  intros Hbuilt Hinit. split; [|set_solver].
  apply Forall_forall. intros s Hs.
  destruct (initial_states_cells self _ _ Hbuilt mx states s Hinit Hs)
    as (i & j & -> & Hi & Hj & Hg & _).
  split; [simpl; lia|]. split; [done|]. exists i, j. rewrite !Nat2Z.id, !Nat.sub_diag.
  rewrite !substring_zero. repeat split; try lia; try done; by apply Hg.
Qed.

(** C7.  Every returned pair consists of two strings of the same length;
    without its gap symbols the first string is a run of consecutive
    symbols of [seq1] and the second one of [seq2]; under the global
    strategy the runs are [seq1] and [seq2] themselves.  The sequences of a
    valid input do not contain the gap symbol. *)
Theorem C7_aligned_pairs (self : SequenceAlignment) (SM : matrix Z)
    (DM : matrix DirectionalCell) (n_max : Z) :
  _create_score_and_directional_matrices self = Ok (SM, DM) ->
  gap_free (seq1 self) = true ->
  gap_free (seq2 self) = true ->
  (strategy self = "global" \/ strategy self = "local" ->
     exists fuel res score, _traceback self SM DM fuel n_max = Some (Ok (res, score))) /\
  forall fuel res score a1 a2,
    _traceback self SM DM fuel n_max = Some (Ok (res, score)) ->
    (a1, a2) ∈ res ->
    String.length a1 = String.length a2 /\
    (exists start len, (start + len <= String.length (seq1 self))%nat /\
       strip_gaps a1 = substring start len (seq1 self)) /\
    (exists start len, (start + len <= String.length (seq2 self))%nat /\
       strip_gaps a2 = substring start len (seq2 self)) /\
    (strategy self = "global" ->
       strip_gaps a1 = seq1 self /\ strip_gaps a2 = seq2 self).
Proof.
  intros Hbuild Hg1 Hg2. apply build_built in Hbuild.
  apply gap_free_no_gap in Hg1, Hg2. split.
  - intros Hstrat.
    assert (exists mx states, initial_states self SM DM = Ok (mx, states)) as (mx & states & Hinit).
    { destruct Hstrat as [Hs|Hs].
      - destruct (initial_states_global self _ _ Hbuild Hs) as (top & _ & ->). eauto.
      - destruct (initial_states_local self _ _ Hbuild Hs) as (mx & -> & _). eauto. }
    destruct (traceback_total self _ _ Hbuild n_max _ _ Hinit) as [sols Hrun]. eauto.
  - intros fuel res score a1 a2 Hrun Hin.
    apply traceback_inv in Hrun as (states & sols & Hinit & Hloop & ->).
    apply elem_of_sorted_reverse in Hin.
    pose proof (traceback_loop_rule self _ _ Hbuild n_max (path_inv self)) as R.
    lapply R; [clear R; intros R|].
    + lapply R; [clear R; intros R|].
      * specialize (R fuel states ∅ (initial_path_inv _ _ _ _ _ Hbuild Hinit)).
        rewrite Hloop in R. destruct R as (states' & [_ Hsols] & _).
        apply (Hsols _ Hin).
      * intros posY posX p1 p2 sts sls cell sc HI _ Hcell _.
        exact (path_inv_step self SM DM Hbuild Hg1 Hg2 posY posX p1 p2 sts sls cell sc
                 HI Hcell).
    + intros [[[posY posX] p1] p2] sts sls [Hall _].
      apply Forall_cons in Hall as [Hs _]. apply Hs.
Qed.

Lemma C7_aligned_pairs_witness :
  _create_score_and_directional_matrices (mock "AG" "A" "global" (-2)) =
    Ok ([[0; -2]; [-2; 1]; [-4; -1]],
        [[cell_none; cell_left]; [cell_up; cell_diagonal]; [cell_up; cell_up]]) /\
  gap_free "AG" = true /\ gap_free "A" = true /\
  _traceback (mock "AG" "A" "global" (-2)) [[0; -2]; [-2; 1]; [-4; -1]]
    [[cell_none; cell_left]; [cell_up; cell_diagonal]; [cell_up; cell_up]] 10 1 =
    Some (Ok ([("AG", "-A")], -1)) /\
  String.length "AG" = String.length "-A" /\
  strip_gaps "AG" = "AG" /\ strip_gaps "-A" = "A".
Proof.
  assert (_create_score_and_directional_matrices (mock "AG" "A" "global" (-2)) =
    Ok ([[0; -2]; [-2; 1]; [-4; -1]],
        [[cell_none; cell_left]; [cell_up; cell_diagonal]; [cell_up; cell_up]])) as Hb
    by (by vm_compute).
  assert (_traceback (mock "AG" "A" "global" (-2)) [[0; -2]; [-2; 1]; [-4; -1]]
    [[cell_none; cell_left]; [cell_up; cell_diagonal]; [cell_up; cell_up]] 10 1 =
    Some (Ok ([("AG", "-A")], -1))) as Hr by (by vm_compute).
  split; [exact Hb|]. do 2 (split; [reflexivity|]). split; [exact Hr|].
  destruct (C7_aligned_pairs _ _ _ 1 Hb eq_refl eq_refl) as [_ H].
  destruct (H _ _ _ "AG" "-A" Hr) as (Hlen & _ & _ & Hglob).
  - by left.
  - split; [exact Hlen|]. apply Hglob. reflexivity.
Defined.

(** *** C9: the returned list *)

(** [pair_ge] is the lexicographic order on the pair, with the order of
    [String.compare] on each component. *)
Lemma pair_ge_lex (a b : string * string) :
  pair_ge a b <->
  String.ltb (fst b) (fst a) = true \/
  (fst a = fst b /\ String.leb (snd b) (snd a) = true).
Proof.
  unfold pair_ge, pair_compare, String.ltb, String.leb.
  rewrite (String.compare_antisym (fst a) (fst b)), (String.compare_antisym (snd a) (snd b)).
  destruct (String.compare (fst b) (fst a)) eqn:H1; simpl.
  - apply String.compare_eq_iff in H1.
    destruct (String.compare (snd b) (snd a)); simpl; split; try done; try (by intros [?|[_ ?]]).
    + intros _. by right.
    + intros _. by right.
  - split; [by left|done].
  - split; [done|]. intros [?|[Heq _]]; [done|].
    rewrite Heq in H1. pose proof (String.compare_antisym (fst b) (fst b)) as Ha.
    rewrite H1 in Ha. done.
Qed.

(** C9.  The returned list holds exactly the finished pairs collected by
    the loop, without duplicates, in descending lexicographic order of the
    pairs; it has at most [n] entries; it comes with the score fixed at the
    start of the search; for [n = 0] it is empty and the score is still
    returned.  For [n >= 1] it is not empty, and it has fewer than [n]
    entries only when the enumeration is complete: a larger bound then
    returns the same list with the same score. *)
Theorem C9_sorted_bounded (self : SequenceAlignment) (SM : matrix Z)
    (DM : matrix DirectionalCell) (n_max : Z) :
  _create_score_and_directional_matrices self = Ok (SM, DM) ->
  strategy self = "global" \/ strategy self = "local" ->
  (exists fuel res score, _traceback self SM DM fuel n_max = Some (Ok (res, score))) /\
  forall fuel res score,
    _traceback self SM DM fuel n_max = Some (Ok (res, score)) ->
    (exists states sols,
       initial_states self SM DM = Ok (score, states) /\
       traceback_loop self SM DM fuel n_max states ∅ = Some (Ok sols) /\
       (forall a, a ∈ res <-> a ∈ sols) /\
       length res = size sols) /\
    NoDup res /\
    StronglySorted pair_ge res /\
    Z.of_nat (length res) <= Z.max n_max 0 /\
    (n_max = 0 -> res = []) /\
    (1 <= n_max -> res <> []) /\
    (Z.of_nat (length res) < n_max ->
     forall fuel' n' res' score',
       n_max <= n' ->
       _traceback self SM DM fuel' n' = Some (Ok (res', score')) ->
       res' = res /\ score' = score).
Proof.
  intros Hbuild Hstrat. apply build_built in Hbuild. split.
  - assert (exists mx states, initial_states self SM DM = Ok (mx, states)) as (mx & states & Hinit).
    { destruct Hstrat as [Hs|Hs].
      - destruct (initial_states_global self _ _ Hbuild Hs) as (top & _ & ->). eauto.
      - destruct (initial_states_local self _ _ Hbuild Hs) as (mx & -> & _). eauto. }
    destruct (traceback_total self _ _ Hbuild n_max _ _ Hinit) as [sols Hrun]. eauto.
  - intros fuel res score Hrun.
    apply traceback_inv in Hrun as (states & sols & Hinit & Hloop & ->).
    assert (Z.of_nat (length (sorted_reverse sols)) <= Z.max n_max 0) as Hlen.
    { rewrite sorted_reverse_length.
      apply (traceback_loop_size self SM DM n_max fuel states ∅ sols Hloop).
      rewrite size_empty. lia. }
    split; [|split; [|split; [|split; [|split; [|split]]]]].
    + exists states, sols. split; [done|]. split; [done|]. split.
      * intros a. apply elem_of_sorted_reverse.
      * apply sorted_reverse_length.
    + apply sorted_reverse_NoDup.
    + apply sorted_reverse_sorted.
    + exact Hlen.
    + intros ->. destruct (sorted_reverse sols); [done|]. simpl in Hlen. lia.
    + intros Hn Hnil. apply sorted_reverse_nil in Hnil.
      apply (loop_collects self _ _ Hbuild n_max states ∅ fuel sols); [|left|done..].
      * by eapply initial_in_range.
      * by eapply initial_states_nonempty.
    + rewrite sorted_reverse_length. intros Hlt fuel' n' res' score' Hle Hrun'.
      apply traceback_inv in Hrun' as (states' & sols' & Hinit' & Hloop' & ->).
      rewrite Hinit in Hinit'. injection Hinit' as <- <-.
      apply (traceback_loop_fuel_mono _ _ _ _ _ (fuel + fuel')) in Hloop; [|lia].
      apply (traceback_loop_fuel_mono _ _ _ _ _ (fuel + fuel')) in Hloop'; [|lia].
      by rewrite (traceback_loop_exhausted _ _ _ _ _ _ _ _ _ _ Hle Hloop Hlt Hloop').
Qed.

(** The matrices of the global alignment of [ACG] and [GCA] with gap
    penalty [-1], and of the local alignment of [ACGT] and [TGCA] with gap
    penalty [-2], on the table of the unit tests. *)
Definition ACG_GCA_score : matrix Z :=
  [[0; -1; -2; -3]; [-1; -2; -2; -1]; [-2; -2; -1; -2]; [-3; -1; -2; -3]].

Definition ACG_GCA_cells : matrix DirectionalCell :=
  [[cell_none; cell_left; cell_left; cell_left];
   [cell_up; new_cell true true true; cell_diagonal; cell_diagonal];
   [cell_up; cell_diagonal; cell_diagonal; new_cell true false true];
   [cell_up; cell_diagonal; new_cell true false true; new_cell true true true]].

Definition ACGT_TGCA_score : matrix Z :=
  [[0; -2; -4; -6; -8]; [-2; 0; 0; 0; 0]; [-4; 0; 0; 1; 0]; [-6; 0; 1; 0; 0];
   [-8; 0; 0; 0; 0]].

Definition ACGT_TGCA_cells : matrix DirectionalCell :=
  [[cell_none; cell_left; cell_left; cell_left; cell_left];
   [cell_up; cell_none; cell_none; cell_none; cell_none];
   [cell_up; cell_none; cell_none; cell_diagonal; cell_none];
   [cell_up; cell_none; cell_diagonal; cell_none; cell_none];
   [cell_up; cell_none; cell_none; cell_none; cell_none]].

Lemma C9_sorted_bounded_witness :
  (_create_score_and_directional_matrices (mock "ACG" "GCA" "global" (-1)) =
     Ok (ACG_GCA_score, ACG_GCA_cells) /\
   _traceback (mock "ACG" "GCA" "global" (-1)) ACG_GCA_score ACG_GCA_cells 100 4 =
     Some (Ok ([("ACG--", "--GCA"); ("ACG-", "GC-A"); ("ACG", "GCA"); ("AC-G", "GCA-")],
               -3)) /\
   NoDup [("ACG--", "--GCA"); ("ACG-", "GC-A"); ("ACG", "GCA"); ("AC-G", "GCA-")] /\
   StronglySorted pair_ge
     [("ACG--", "--GCA"); ("ACG-", "GC-A"); ("ACG", "GCA"); ("AC-G", "GCA-")] /\
   Z.of_nat (length [("ACG--", "--GCA"); ("ACG-", "GC-A"); ("ACG", "GCA"); ("AC-G", "GCA-")])
     <= Z.max 4 0) /\
  (_create_score_and_directional_matrices (mock "ACGT" "TGCA" "local" (-2)) =
     Ok (ACGT_TGCA_score, ACGT_TGCA_cells) /\
   _traceback (mock "ACGT" "TGCA" "local" (-2)) ACGT_TGCA_score ACGT_TGCA_cells 100 5 =
     Some (Ok ([("G", "G"); ("C", "C")], 1)) /\
   [("G", "G"); ("C", "C")] <> [] /\
   forall fuel' n' res' score',
     5 <= n' ->
     _traceback (mock "ACGT" "TGCA" "local" (-2)) ACGT_TGCA_score ACGT_TGCA_cells fuel' n' =
       Some (Ok (res', score')) ->
     res' = [("G", "G"); ("C", "C")] /\ score' = 1).
Proof.
  split.
  - assert (_create_score_and_directional_matrices (mock "ACG" "GCA" "global" (-1)) =
      Ok (ACG_GCA_score, ACG_GCA_cells)) as Hb by (by vm_compute).
    assert (_traceback (mock "ACG" "GCA" "global" (-1)) ACG_GCA_score ACG_GCA_cells 100 4 =
      Some (Ok ([("ACG--", "--GCA"); ("ACG-", "GC-A"); ("ACG", "GCA"); ("AC-G", "GCA-")],
                -3))) as Hr by (by vm_compute).
    split; [exact Hb|]. split; [exact Hr|].
    destruct (C9_sorted_bounded _ _ _ 4 Hb (or_introl eq_refl)) as [_ H].
    destruct (H _ _ _ Hr) as (_ & Hnd & Hsorted & Hlen & _).
    split; [exact Hnd|]. split; [exact Hsorted|exact Hlen].
  - assert (_create_score_and_directional_matrices (mock "ACGT" "TGCA" "local" (-2)) =
      Ok (ACGT_TGCA_score, ACGT_TGCA_cells)) as Hb by (by vm_compute).
    assert (_traceback (mock "ACGT" "TGCA" "local" (-2)) ACGT_TGCA_score ACGT_TGCA_cells 100 5 =
      Some (Ok ([("G", "G"); ("C", "C")], 1))) as Hr by (by vm_compute).
    split; [exact Hb|]. split; [exact Hr|].
    destruct (C9_sorted_bounded _ _ _ 5 Hb (or_intror eq_refl)) as [_ H].
    destruct (H _ _ _ Hr) as (_ & _ & _ & _ & _ & Hne & Hall).
    split; [apply Hne; lia|]. apply Hall. simpl. lia.
Defined.

(** *** C10: accesses and termination *)

(** Valid inputs of the construction: the edge scores fit the array and
    every pair of symbols of the two sequences has a score. *)
Definition valid_inputb (self : SequenceAlignment) : bool :=
  forallb (fun i => fits_int64 (Z.of_nat i * gap_penalty self))
          (seq 1 (String.length (seq1 self))) &&
  forallb (fun i => fits_int64 (Z.of_nat i * gap_penalty self))
          (seq 1 (String.length (seq2 self))) &&
  forallb (fun ic : nat * ascii =>
             forallb (fun jc : nat * ascii =>
                        is_ok (alignments_getitem (alignments self) (snd ic) (snd jc)))
                     (enumerate (seq2 self)))
          (enumerate (seq1 self)).

Lemma valid_inputb_valid (self : SequenceAlignment) :
  valid_inputb self = true -> valid_input self.
Proof.
  unfold valid_inputb, valid_input. rewrite !andb_true_iff, !forallb_forall.
  intros [[H1 H2] H3]. split; [|split].
  - intros i Hi. apply H1. by apply list_elem_of_In.
  - intros i Hi. apply H2. by apply list_elem_of_In.
  - intros ic Hic jc Hjc. apply list_elem_of_In in Hic, Hjc.
    specialize (H3 _ Hic). rewrite forallb_forall in H3. by apply H3.
Qed.

(** Configurations of the [while] loop that a run with bound [n_max] goes
    through: the pending states and the finished pairs before a turn. *)
Inductive reachable (self : SequenceAlignment) (SM : matrix Z)
    (DM : matrix DirectionalCell) (n_max : Z)
  : list state -> gset (string * string) -> Prop :=
  | reach_start mx states :
      initial_states self SM DM = Ok (mx, states) ->
      reachable self SM DM n_max states ∅
  | reach_turn s states sols st :
      reachable self SM DM n_max (s :: states) sols ->
      Z.of_nat (size sols) < n_max ->
      traceback_step self SM DM s states sols = Ok st ->
      reachable self SM DM n_max (fst st) (snd st).

Lemma reachable_in_range self SM DM n_max states sols :
  built self (SM, DM) ->
  reachable self SM DM n_max states sols ->
  Forall (in_range self) states.
Proof.
  intros Hbuilt. induction 1 as [mx states Hinit|s states sols st Hreach IH Hlt Hstep].
  - by eapply initial_in_range.
  - apply Forall_cons in IH as [Hs Hall]. destruct s as [[[posY posX] p1] p2].
    destruct (traceback_step_eq self _ _ Hbuilt posY posX p1 p2 states sols Hs)
      as (cell & score & Hcell & _ & Heq).
    rewrite Heq in Hstep. injection Hstep as <-.
    destruct (finished self cell score); simpl; [done|].
    apply Forall_app. split; [|done]. apply Forall_forall. intros s' Hs'.
    by destruct (next_states_in_range self _ _ Hbuilt _ _ _ _ _ _ Hs Hcell Hs').
Qed.

(** C10.  The construction never raises [IndexError]; on a valid input
    with one of the two strategies it ends with matrices on which the
    enumeration ends without an exception.  Every state the loop pops lies
    inside the matrix, the turn on it succeeds, a symbol of [seq1] (of
    [seq2]) is read only in row [1..m] (column [1..n]), and every pushed
    state lies inside the matrix with a strictly smaller [row + col]. *)
Theorem C10_safe_and_terminating (self : SequenceAlignment) (n_max : Z) :
  (forall e, _create_score_and_directional_matrices self = Raise e ->
     e = OverflowError \/ e = TypeError) /\
  (valid_inputb self = true ->
   strategy self = "global" \/ strategy self = "local" ->
   exists SM DM,
     _create_score_and_directional_matrices self = Ok (SM, DM) /\
     (exists fuel res score, _traceback self SM DM fuel n_max = Some (Ok (res, score))) /\
     (forall fuel r, _traceback self SM DM fuel n_max = Some r -> exists v, r = Ok v) /\
     forall posY posX p1 p2 states sols,
       reachable self SM DM n_max ((posY, posX, p1, p2) :: states) sols ->
       0 <= posY <= Z.of_nat (String.length (seq1 self)) /\
       0 <= posX <= Z.of_nat (String.length (seq2 self)) /\
       exists cell score pushed,
         mat_get DM posY posX = Ok cell /\
         mat_get SM posY posX = Ok score /\
         traceback_step self SM DM (posY, posX, p1, p2) states sols =
           Ok (if finished self cell score then (states, {[ (p1, p2) ]} ∪ sols)
               else ((pushed ++ states)%list, sols)) /\
         (up cell = true \/ diagonal cell = true -> 1 <= posY) /\
         (left cell = true \/ diagonal cell = true -> 1 <= posX) /\
         forall posY' posX' p1' p2', (posY', posX', p1', p2') ∈ pushed ->
           0 <= posY' <= Z.of_nat (String.length (seq1 self)) /\
           0 <= posX' <= Z.of_nat (String.length (seq2 self)) /\
           posY' + posX' < posY + posX).
Proof.
  split.
  { intros e He. pose proof (build_spec self) as B. rewrite He in B. apply B. }
  intros Hvalid Hstrat. apply valid_inputb_valid in Hvalid.
  destruct (build_total self Hvalid) as [[SM DM] Hbuild]. exists SM, DM.
  split; [done|]. apply build_built in Hbuild.
  assert (exists mx states, initial_states self SM DM = Ok (mx, states)) as (mx & states & Hinit).
  { destruct Hstrat as [Hs|Hs].
    - destruct (initial_states_global self _ _ Hbuild Hs) as (top & _ & ->). eauto.
    - destruct (initial_states_local self _ _ Hbuild Hs) as (mx & -> & _). eauto. }
  split; [|split].
  - destruct (traceback_total self _ _ Hbuild n_max _ _ Hinit) as [sols Hrun]. eauto.
  - intros fuel r Hr.
    destruct (traceback_no_raise self _ _ Hbuild n_max _ _ fuel r Hinit Hr) as [res ->]. eauto.
  - intros posY posX p1 p2 sts sols Hreach.
    pose proof (reachable_in_range _ _ _ _ _ _ Hbuild Hreach) as Hall.
    apply Forall_cons in Hall as [Hs _]. pose proof Hs as [HY HX].
    split; [done|]. split; [done|].
    destruct (traceback_step_eq self _ _ Hbuild posY posX p1 p2 sts sols Hs)
      as (cell & score & Hcell & Hscore & Heq).
    exists cell, score, (next_states self cell (posY, posX, p1, p2)).
    pose proof (built_shapes _ _ Hbuild) as [HS HD]. simpl in HS, HD.
    destruct (mat_get_pos DM _ _ posY posX HD) as (cell' & Hc' & ->); [lia..|].
    destruct (mat_get_pos SM _ _ posY posX HS) as (score' & Hs' & ->); [lia..|].
    rewrite Hcell in Hc'. rewrite Hscore in Hs'. injection Hc' as <-. injection Hs' as <-.
    do 3 (split; [done|]).
    destruct (flags_sound self (SM, DM) Hbuild _ _ _ Hcell) as (Hu & Hl & Hd).
    split; [|split].
    + intros [H|H]; [specialize (Hu H)|destruct (Hd H)]; lia.
    + intros [H|H]; [specialize (Hl H)|destruct (Hd H)]; lia.
    + intros posY' posX' p1' p2' Hin'.
      destruct (next_states_in_range self SM DM Hbuild _ _ _ _ _ _ Hs Hcell Hin')
        as [[HY' HX'] Hsum].
      simpl in Hsum. repeat split; lia.
Qed.

Lemma C10_safe_and_terminating_witness :
  valid_inputb (mock "AG" "A" "global" (-2)) = true /\
  exists SM DM,
    _create_score_and_directional_matrices (mock "AG" "A" "global" (-2)) = Ok (SM, DM) /\
    exists fuel res score,
      _traceback (mock "AG" "A" "global" (-2)) SM DM fuel 1 = Some (Ok (res, score)).
Proof.
  split; [by vm_compute|].
  destruct (C10_safe_and_terminating (mock "AG" "A" "global" (-2)) 1) as [_ H].
  destruct H as (SM & DM & Hb & Hrun & _).
  - by vm_compute.
  - by left.
  - exists SM, DM. split; [exact Hb|exact Hrun].
Defined.

(** *** C8: an empty sequence *)

(** [k] gap symbols. *)
Fixpoint gaps (k : nat) : string :=
  match k with
  | O => EmptyString
  | S k' => String "-" (gaps k')
  end.

Lemma gaps_snoc k : gaps k +:+ "-" = gaps (S k).
Proof. induction k as [|k IH]; [done|]. simpl. by rewrite app_cons, IH. Qed.

Lemma app_assoc_str (a b c : string) : (a +:+ b) +:+ c = a +:+ (b +:+ c).
Proof. induction a as [|x a IH]; [done|]. by rewrite !app_cons, IH. Qed.

Lemma sorted_reverse_singleton a : sorted_reverse {[ a ]} = [a].
Proof. unfold sorted_reverse. by rewrite elements_singleton. Qed.

Lemma traceback_fuel_unique self SM DM n_max fuel1 fuel2 r1 r2 :
  _traceback self SM DM fuel1 n_max = Some r1 ->
  _traceback self SM DM fuel2 n_max = Some r2 ->
  r1 = r2.
Proof.
  unfold _traceback. destruct (initial_states self SM DM) as [[mx states]|e]; [|congruence].
  destruct (traceback_loop self SM DM fuel1 n_max states ∅) as [l1|] eqn:H1; [|done].
  destruct (traceback_loop self SM DM fuel2 n_max states ∅) as [l2|] eqn:H2; [|done].
  apply (traceback_loop_fuel_mono _ _ _ _ _ (fuel1 + fuel2)) in H1; [|lia].
  apply (traceback_loop_fuel_mono _ _ _ _ _ (fuel1 + fuel2)) in H2; [|lia].
  rewrite H1 in H2. injection H2 as ->. congruence.
Qed.

Section EmptySequence.
Variable self : SequenceAlignment.
Variable score_matrix : matrix Z.
Variable directional_matrix : matrix DirectionalCell.
Hypothesis Hbuilt : built self (score_matrix, directional_matrix).
Hypothesis Hempty : seq1 self = "" \/ seq2 self = "".
Variable n_max : Z.
Hypothesis Hn : 1 <= n_max.

Let m : nat := String.length (seq1 self).
Let n : nat := String.length (seq2 self).

Lemma empty_dims : m = 0%nat \/ n = 0%nat.
Proof. unfold m, n. destruct Hempty as [-> | ->]; auto. Qed.

(** The only alignment against an empty sequence. *)
Definition gap_only_pair : string * string :=
  (seq1 self +:+ gaps n, seq2 self +:+ gaps m).

(** Under the global strategy there is one pending state at a time; it
    walks along the edge. *)
Definition line_inv (states : list state) (sols : gset (string * string)) : Prop :=
  (sols = ∅ /\
   exists r c : nat, (r <= m)%nat /\ (c <= n)%nat /\
     states = [(Z.of_nat r, Z.of_nat c,
                substring 0 (m - r) (seq1 self) +:+ gaps (n - c),
                substring 0 (n - c) (seq2 self) +:+ gaps (m - r))]) \/
  (states = [] /\ sols = {[ gap_only_pair ]}).

Lemma line_inv_step posY posX p1 p2 states sols cell score :
  strategy self = "global" ->
  line_inv ((posY, posX, p1, p2) :: states) sols ->
  mat_lookup directional_matrix (Z.to_nat posY) (Z.to_nat posX) = Some cell ->
  if finished self cell score then line_inv states ({[ (p1, p2) ]} ∪ sols)
  else line_inv (next_states self cell (posY, posX, p1, p2) ++ states)%list sols.
Proof.
  intros Hg [[-> (r & c & Hr & Hc & Heq)]|[? _]] Hcell; [|done].
  injection Heq as Hy Hx H1 H2 Hst. subst posY posX p1 p2 states.
  rewrite !Nat2Z.id in Hcell.
  unfold finished. rewrite Hg. change (String.eqb "global" "local") with false.
  rewrite andb_false_l, orb_false_r.
  pose proof empty_dims as Hdims. unfold line_inv, gap_only_pair.
  destruct (built_cell_kind self _ Hbuilt r c cell Hcell)
    as [ -> -> -> | Hr1 -> -> | -> Hc1 -> | u d l Hr1 Hc1 _ ]; subst m n.
  - right. split; [done|]. rewrite !Nat.sub_0_r.
    rewrite !substring_full. by rewrite (right_id_L ∅ (∪)).
  - assert (String.length (seq2 self) = 0%nat) as Hn0 by lia. left. split; [done|].
    exists (r - 1)%nat, 0%nat. split; [lia|]. split; [lia|].
    cbn [next_states new_cell up diagonal left app]. rewrite Hn0.
    destruct (sym_get (seq1 self) (Z.of_nat r)) as (x & Hx & ->); [lia|].
    rewrite Nat2Z.id in Hx.
    replace (Z.of_nat r - 1) with (Z.of_nat (r - 1)) by lia.
    replace (String.length (seq1 self) - (r - 1))%nat
      with (S (String.length (seq1 self) - r)) by lia.
    change (0 - 0)%nat with 0%nat. rewrite substring_zero.
    change (gaps 0) with EmptyString.
    rewrite !app_empty_r, !app_empty_l, gaps_snoc, <- (substring_snoc _ _ _ x) by done.
    done.
  - assert (String.length (seq1 self) = 0%nat) as Hm0 by lia. left. split; [done|].
    exists 0%nat, (c - 1)%nat. split; [lia|]. split; [lia|].
    cbn [next_states new_cell up diagonal left app]. rewrite Hm0.
    destruct (sym_get (seq2 self) (Z.of_nat c)) as (x & Hx & ->); [lia|].
    rewrite Nat2Z.id in Hx.
    replace (Z.of_nat c - 1) with (Z.of_nat (c - 1)) by lia.
    replace (String.length (seq2 self) - (c - 1))%nat
      with (S (String.length (seq2 self) - c)) by lia.
    change (0 - 0)%nat with 0%nat. rewrite substring_zero.
    change (gaps 0) with EmptyString.
    rewrite !app_empty_r, !app_empty_l, gaps_snoc, <- (substring_snoc _ _ _ x) by done.
    done.
  - lia.
Qed.

Lemma global_empty_loop fuel :
  strategy self = "global" ->
  match traceback_loop self score_matrix directional_matrix fuel n_max
          [(Z.of_nat m, Z.of_nat n, "", "")] ∅ with
  | Some r => r = Ok {[ gap_only_pair ]}
  | None => (fuel < measure [(Z.of_nat m, Z.of_nat n, "", "")])%nat
  end.
Proof.
  intros Hg.
  pose proof (traceback_loop_rule self _ _ Hbuilt n_max line_inv) as R.
  lapply R; [clear R; intros R|].
  - lapply R; [clear R; intros R|].
    + specialize (R fuel [(Z.of_nat m, Z.of_nat n, "", "")] ∅).
      lapply R; [clear R; intros R|].
      * destruct (traceback_loop _ _ _ _ _ _ _) as [[sols|e]|]; [|done..].
        destruct R as (states' & [[-> (r & c & _ & _ & ->)]|[_ ->]] & Hend); [|done].
        destruct Hend as [?|Hend]; [done|]. rewrite size_empty in Hend. lia.
      * left. split; [done|]. exists m, n. rewrite !Nat.sub_diag, !substring_zero.
        by repeat split.
    + intros posY posX p1 p2 sts sls cell sc HI _ Hcell _. by apply line_inv_step.
  - intros s sts sls [[_ (r & c & Hr & Hc & Heq)]|[? _]]; [|done].
    injection Heq as Hs _. subst s. simpl. fold m n. lia.
Qed.

(** Under the local strategy with a gap penalty that is not positive, all
    pending states have empty strings and sit on a zero score. *)
Definition zero_state (s : state) : Prop :=
  exists i j : nat, s = (Z.of_nat i, Z.of_nat j, "", "") /\ (i <= m)%nat /\ (j <= n)%nat /\
    mat_lookup score_matrix i j = Some 0.

Definition zero_inv (states : list state) (sols : gset (string * string)) : Prop :=
  Forall zero_state states /\
  ((sols = ∅ /\ states <> []) \/ sols = {[ ("", "") ]}).

Lemma local_empty_max mx states :
  strategy self = "local" -> gap_penalty self <= 0 ->
  initial_states self score_matrix directional_matrix = Ok (mx, states) ->
  mx = 0 /\ zero_inv states ∅.
Proof.
  intros Hl Hgap Hinit. destruct (initial_states_local self _ _ Hbuilt Hl)
    as (mx' & Heq & (i & j & Hij) & Hle).
  rewrite Heq in Hinit. injection Hinit as <- <-.
  pose proof empty_dims as Hdims. destruct Hbuilt as [[HS _] Hb _]. simpl in HS.
  destruct (Hb 0%nat 0%nat) as [H00 _]; [lia|lia|by left|]. simpl in H00.
  unfold edge_score in H00. rewrite !decide_False in H00 by lia.
  assert (mx' = 0) as ->.
  { apply Z.le_antisymm; [|by eapply Hle].
    destruct (mat_lookup_bound _ _ _ _ _ _ HS Hij) as [Hi Hj]. fold m n in Hi, Hj.
    destruct (Hb i j Hi Hj) as [Hv _]; [lia|]. simpl in Hv. rewrite Hij in Hv.
    injection Hv as ->. unfold edge_score. repeat case_decide; nia. }
  split; [done|]. split.
  - apply Forall_forall. intros s Hs.
    apply list_elem_of_In, in_rev, in_map_iff in Hs as ([i' j'] & <- & Hin).
    apply list_elem_of_In, argwhere_eq_spec in Hin.
    destruct (mat_lookup_bound _ _ _ _ _ _ HS Hin) as [Hi Hj]. fold m n in Hi, Hj.
    exists i', j'. simpl. repeat split; (done || lia).
  - left. split; [done|]. intros Hnil.
    assert ((0%nat, 0%nat) ∈ argwhere_eq score_matrix 0) as Hin
      by (by apply argwhere_eq_spec).
    apply list_elem_of_In in Hin.
    apply (in_map (fun cell : nat * nat => (Z.of_nat (fst cell), Z.of_nat (snd cell), "", "")))
      in Hin. apply in_rev in Hin. rewrite Hnil in Hin. done.
Qed.

Lemma local_empty_loop fuel states :
  strategy self = "local" ->
  zero_inv states ∅ ->
  match traceback_loop self score_matrix directional_matrix fuel n_max states ∅ with
  | Some r => r = Ok {[ ("", "") ]}
  | None => (fuel < measure states)%nat
  end.
Proof.
  intros Hl Hinv.
  pose proof (traceback_loop_rule self _ _ Hbuilt n_max zero_inv) as R.
  lapply R; [clear R; intros R|].
  - lapply R; [clear R; intros R|].
    + specialize (R fuel states ∅ Hinv).
      destruct (traceback_loop _ _ _ _ _ _ _) as [[sols|e]|]; [|done..].
      destruct R as (states' & [Hall [[-> Hne]| ->]] & Hend); [|done].
      destruct Hend as [?|Hend]; [done|]. rewrite size_empty in Hend. lia.
    + intros posY posX p1 p2 sts sls cell sc [Hall Hsols] _ Hcell Hscore.
      apply Forall_cons in Hall as [(i & j & Hs & _ & _ & H0) Hall].
      injection Hs as Hy Hx H1 H2. subst posY posX p1 p2. rewrite !Nat2Z.id in Hscore.
      rewrite H0 in Hscore. injection Hscore as <-.
      unfold finished. rewrite Hl. change (String.eqb "local" "local") with true.
      simpl. rewrite orb_true_r. split; [done|]. right.
      destruct Hsols as [[-> _]| ->]; [by rewrite (right_id_L ∅ (∪))|].
      by rewrite (idemp_L (∪)).
  - intros s sts sls [Hall _]. apply Forall_cons in Hall as [(i & j & -> & ? & ? & _) _].
    simpl. fold m n. lia.
Qed.

End EmptySequence.

(** C8 in the words of the specification: with an empty sequence the
    global strategy returns only pairs that set the other sequence against
    gap symbols, and the local strategy returns no pair. *)
Definition empty_sequence_as_stated (self : SequenceAlignment) (SM : matrix Z)
    (DM : matrix DirectionalCell) (fuel : nat) (n_max : Z) : Prop :=
  forall res score,
    _traceback self SM DM fuel n_max = Some (Ok (res, score)) ->
    (strategy self = "global" ->
       forall a1 a2, (a1, a2) ∈ res ->
         (seq1 self = "" -> a1 = gaps (String.length (seq2 self)) /\ a2 = seq2 self) /\
         (seq2 self = "" -> a1 = seq1 self /\ a2 = gaps (String.length (seq1 self)))) /\
    (strategy self = "local" -> res = []).

(** C8, as stated, fails: the local strategy on [seq1 = ""], [seq2 = "AC"]
    returns the pair of empty strings. *)
Lemma C8_empty_sequence_counterexample :
  exists SM DM,
    _create_score_and_directional_matrices (mock "" "AC" "local" (-2)) = Ok (SM, DM) /\
    _traceback (mock "" "AC" "local" (-2)) SM DM 10 1 = Some (Ok ([("", "")], 0)) /\
    ~ empty_sequence_as_stated (mock "" "AC" "local" (-2)) SM DM 10 1.
Proof.
  exists [[0; -2; -4]], [[cell_none; cell_left; cell_left]].
  split; [by vm_compute|].
  assert (_traceback (mock "" "AC" "local" (-2)) [[0; -2; -4]]
            [[cell_none; cell_left; cell_left]] 10 1 = Some (Ok ([("", "")], 0))) as Hr
    by (by vm_compute).
  split; [exact Hr|]. intros H. destruct (H _ _ Hr) as [_ Hl].
  discriminate Hl. reflexivity.
Qed.

(** C8, amended.  With an empty [seq1] or [seq2] and [n >= 1], the global
    strategy returns exactly one pair, the other sequence set against gap
    symbols; the local strategy, for a gap penalty that is not positive,
    returns exactly the pair of empty strings, with score 0. *)
Theorem C8_empty_sequence (self : SequenceAlignment) (SM : matrix Z)
    (DM : matrix DirectionalCell) (n_max : Z) :
  _create_score_and_directional_matrices self = Ok (SM, DM) ->
  seq1 self = "" \/ seq2 self = "" ->
  1 <= n_max ->
  (strategy self = "global" ->
     exists top,
       (exists fuel, _traceback self SM DM fuel n_max =
                       Some (Ok ([gap_only_pair self], top))) /\
       (forall fuel r, _traceback self SM DM fuel n_max = Some r ->
                       r = Ok ([gap_only_pair self], top)) /\
       (seq1 self = "" ->
          gap_only_pair self = (gaps (String.length (seq2 self)), seq2 self)) /\
       (seq2 self = "" ->
          gap_only_pair self = (seq1 self, gaps (String.length (seq1 self))))) /\
  (strategy self = "local" -> gap_penalty self <= 0 ->
     (exists fuel, _traceback self SM DM fuel n_max = Some (Ok ([("", "")], 0))) /\
     (forall fuel r, _traceback self SM DM fuel n_max = Some r ->
                     r = Ok ([("", "")], 0))).
Proof.
  intros Hbuild Hempty Hn. apply build_built in Hbuild. split.
  - intros Hg. destruct (initial_states_global self _ _ Hbuild Hg) as (top & _ & Hinit).
    exists top.
    assert (exists fuel, _traceback self SM DM fuel n_max =
              Some (Ok ([gap_only_pair self], top))) as [fuel0 Hrun].
    { exists (measure [(Z.of_nat (String.length (seq1 self)),
                        Z.of_nat (String.length (seq2 self)), "", "")]).
      pose proof (global_empty_loop self _ _ Hbuild Hempty n_max Hn
                    (measure [(Z.of_nat (String.length (seq1 self)),
                               Z.of_nat (String.length (seq2 self)), "", "")]) Hg) as H.
      unfold _traceback. rewrite Hinit.
      destruct (traceback_loop _ _ _ _ _ _ _) as [r|]; [|lia].
      rewrite H. by rewrite sorted_reverse_singleton. }
    split; [eauto|]. split; [|split].
    + intros fuel r Hr. by rewrite (traceback_fuel_unique _ _ _ _ _ _ _ _ Hr Hrun).
    + intros Hs. unfold gap_only_pair. rewrite Hs. simpl. by rewrite app_empty_r.
    + intros Hs. unfold gap_only_pair. rewrite Hs. simpl. by rewrite app_empty_r.
  - intros Hl Hgap.
    destruct (initial_states_local self _ _ Hbuild Hl) as (mx & Hinit & _).
    destruct (local_empty_max self _ _ Hbuild Hempty mx _ Hl Hgap Hinit) as [-> Hinv].
    remember (rev (map (fun cell : nat * nat =>
                          (Z.of_nat (fst cell), Z.of_nat (snd cell), "", ""))
                       (argwhere_eq SM 0))) as states eqn:Hstates.
    assert (exists fuel, _traceback self SM DM fuel n_max = Some (Ok ([("", "")], 0)))
      as [fuel0 Hrun].
    { exists (measure states).
      pose proof (local_empty_loop self _ _ Hbuild n_max Hn (measure states) states
                    Hl Hinv) as H.
      unfold _traceback. rewrite Hinit.
      destruct (traceback_loop _ _ _ _ _ _ _) as [r|]; [|lia].
      rewrite H. by rewrite sorted_reverse_singleton. }
    split; [eauto|].
    intros fuel r Hr. by rewrite (traceback_fuel_unique _ _ _ _ _ _ _ _ Hr Hrun).
Qed.

Lemma C8_empty_sequence_witness :
  _create_score_and_directional_matrices (mock "" "AC" "global" (-2)) =
    Ok ([[0; -2; -4]], [[cell_none; cell_left; cell_left]]) /\
  _traceback (mock "" "AC" "global" (-2)) [[0; -2; -4]]
    [[cell_none; cell_left; cell_left]] 10 1 = Some (Ok ([("--", "AC")], -4)) /\
  Ok ([("--", "AC")], -4) = Ok ([gap_only_pair (mock "" "AC" "global" (-2))], -4).
Proof.
  assert (_create_score_and_directional_matrices (mock "" "AC" "global" (-2)) =
    Ok ([[0; -2; -4]], [[cell_none; cell_left; cell_left]])) as Hb by (by vm_compute).
  assert (_traceback (mock "" "AC" "global" (-2)) [[0; -2; -4]]
    [[cell_none; cell_left; cell_left]] 10 1 = Some (Ok ([("--", "AC")], -4))) as Hr
    by (by vm_compute).
  split; [exact Hb|]. split; [exact Hr|].
  destruct (C8_empty_sequence _ _ _ 1 Hb (or_introl eq_refl)) as [Hg _]; [lia|].
  destruct (Hg eq_refl) as (top & _ & Huniq & _).
  pose proof (Huniq _ _ Hr) as Heq.
  assert (top = -4) as Htop by congruence. rewrite Htop in Heq. exact Heq.
Defined.

(** *** C1, C2: the symbols appended by the traceback *)

(** Score of an aligned pair in the words of the specification: the
    substitution score of every column with two symbols, the gap penalty
    for every column with a gap symbol. *)
Fixpoint alignment_score (t : gmap ascii (gmap ascii Z)) (gap : Z) (a1 a2 : string)
  : option Z :=
  match a1, a2 with
  | EmptyString, EmptyString => Some 0
  | String c1 r1, String c2 r2 =>
      match alignment_score t gap r1 r2 with
      | None => None
      | Some rest =>
          if Ascii.eqb c1 "-" || Ascii.eqb c2 "-" then Some (gap + rest)
          else match alignments_getitem t c1 c2 with
               | Ok v => Some (v + rest)
               | Raise _ => None
               end
      end
  | _, _ => None
  end.

(** C1 fails on the code.  For [seq1 = "AG"], [seq2 = "A"], the table of the
    unit tests and gap penalty [-2], the global strategy returns the score
    [-1] with the single pair [("AG", "-A")], whose columns sum to [-4];
    the pair [("AG", "A-")] is the one that scores [-1]. *)
Theorem C1_score_not_achieved :
  find_optimal_alignments (mock "AG" "A" "global" (-2)) 10 1 =
    Some (Ok ([("AG", "-A")], -1)) /\
  alignment_score mock_alignments (-2) "AG" "-A" = Some (-4) /\
  alignment_score mock_alignments (-2) "AG" "A-" = Some (-1).
Proof. by vm_compute. Qed.

(** The [up] branch in the words of the specification:
    [(row-1, col)] with [(p1 + seq1[row-1], p2 + '-')]. *)
Definition up_branch_as_stated (self : SequenceAlignment) (s : state) : result state :=
  let '(row, col, p1, p2) := s in
  c1 ← str_getitem (seq1 self) (row - 1);
  Ok (row - 1, col, p1 +:+ c1, p2 +:+ "-").

(** C2 fails on the code.  On the matrices of [seq1 = "AG"], [seq2 = "A"]
    the state [(2, 1, '', '')] has the flag [up] only; the code pushes
    [(1, 1, "A", "-")], reading [seq1[-2]], where the specification has
    [(1, 1, "G", "-")], reading [seq1[1]]. *)
Theorem C2_pushed_branch_differs :
  _create_score_and_directional_matrices (mock "AG" "A" "global" (-2)) =
    Ok ([[0; -2]; [-2; 1]; [-4; -1]],
        [[cell_none; cell_left]; [cell_up; cell_diagonal]; [cell_up; cell_up]]) /\
  traceback_step (mock "AG" "A" "global" (-2)) [[0; -2]; [-2; 1]; [-4; -1]]
    [[cell_none; cell_left]; [cell_up; cell_diagonal]; [cell_up; cell_up]]
    (2, 1, "", "") [] ∅ = Ok ([(1, 1, "A", "-")], ∅) /\
  up_branch_as_stated (mock "AG" "A" "global" (-2)) (2, 1, "", "") = Ok (1, 1, "G", "-").
Proof. by vm_compute. Qed.

(** *** C4: a pair of symbols without a score *)

(** C4 fails on the code.  The lookup of a pair that is not in the table
    raises [TypeError] instead of giving 0, and so does the matrix
    construction on [seq1 = "AX"], [seq2 = "AC"] with the table of the unit
    tests. *)
Theorem C4_missing_pair_raises :
  alignments_getitem mock_alignments "A" "X" = Raise TypeError /\
  alignments_getitem mock_alignments "X" "A" = Raise TypeError /\
  _create_score_and_directional_matrices (mock "AX" "AC" "global" (-2)) = Raise TypeError /\
  find_optimal_alignments (mock "AX" "AC" "global" (-2)) 10 1 = Some (Raise TypeError).
Proof. by vm_compute. Qed.

(** * Further properties of the code *)

(** ** The finished matrices *)

(** X1.  Both matrices have [len(seq1) + 1] rows of [len(seq2) + 1]
    cells each. *)
Theorem matrices_shape (self : SequenceAlignment) (SM : matrix Z)
    (DM : matrix DirectionalCell) :
  _create_score_and_directional_matrices self = Ok (SM, DM) ->
  shape SM = (String.length (seq1 self) + 1, String.length (seq2 self) + 1)%nat /\
  shape DM = (String.length (seq1 self) + 1, String.length (seq2 self) + 1)%nat /\
  (forall row, row ∈ SM -> length row = (String.length (seq2 self) + 1)%nat) /\
  (forall row, row ∈ DM -> length row = (String.length (seq2 self) + 1)%nat).
Proof.
  intros Hbuild. apply build_built in Hbuild.
  destruct (built_shapes _ _ Hbuild) as [[HS1 HS2] [HD1 HD2]]. cbn [fst snd] in *.
  rewrite Forall_forall in HS2. rewrite Forall_forall in HD2.
  unfold shape. rewrite HS1, HD1.
  split; [|split; [|split; [exact HS2|exact HD2]]].
  - destruct SM as [|row SM]; simpl in *; [lia|]. f_equal. apply HS2. by left.
  - destruct DM as [|row DM]; simpl in *; [lia|]. f_equal. apply HD2. by left.
Qed.

Lemma matrices_shape_witness :
  _create_score_and_directional_matrices (mock "AG" "A" "local" (-2)) =
    Ok ([[0; -2]; [-2; 1]; [-4; 0]],
        [[cell_none; cell_left]; [cell_up; cell_diagonal]; [cell_up; cell_none]]) /\
  shape [[0; -2]; [-2; 1]; [-4; 0]] = (3, 2)%nat.
Proof.
  assert (_create_score_and_directional_matrices (mock "AG" "A" "local" (-2)) =
    Ok ([[0; -2]; [-2; 1]; [-4; 0]],
        [[cell_none; cell_left]; [cell_up; cell_diagonal]; [cell_up; cell_none]])) as Hb
    by (by vm_compute).
  split; [exact Hb|]. destruct (matrices_shape _ _ _ Hb) as [H _]. exact H.
Defined.

(** X2.  Every cell stored in the direction matrix has [num_directions]
    equal to the number of its set flags, hence between 0 and 3 and 0
    exactly when no flag is set; a set flag always has its predecessor cell
    inside the matrix. *)
Theorem cells_consistent (self : SequenceAlignment) (SM : matrix Z)
    (DM : matrix DirectionalCell) (r c : nat) (cell : DirectionalCell) :
  _create_score_and_directional_matrices self = Ok (SM, DM) ->
  mat_get DM (Z.of_nat r) (Z.of_nat c) = Ok cell ->
  num_directions cell = Z.b2z (up cell) + Z.b2z (diagonal cell) + Z.b2z (left cell) /\
  0 <= num_directions cell <= 3 /\
  (num_directions cell = 0 <->
     up cell = false /\ diagonal cell = false /\ left cell = false) /\
  (up cell = true -> (1 <= r)%nat) /\
  (left cell = true -> (1 <= c)%nat) /\
  (diagonal cell = true -> (1 <= r)%nat /\ (1 <= c)%nat).
Proof.
  intros Hbuild Hget. apply build_built in Hbuild. rewrite mat_get_nat in Hget.
  destruct (mat_lookup DM r c) as [cell'|] eqn:Hcell; [|done]. injection Hget as ->.
  pose proof (flags_sound self _ Hbuild r c cell Hcell) as Hsound.
  assert (num_directions cell =
          Z.b2z (up cell) + Z.b2z (diagonal cell) + Z.b2z (left cell)) as Hnum
    by (by destruct (built_cell_kind self _ Hbuild r c cell Hcell) as [? ? ->|? ? ->|? ? ->|u d l ? ? ->]).
  split; [exact Hnum|]. rewrite Hnum.
  destruct (up cell), (diagonal cell), (left cell); simpl; repeat split; try lia;
    try done; try tauto; intros H; try lia; try (destruct H as (? & ? & ?); done).
Qed.

Lemma cells_consistent_witness :
  _create_score_and_directional_matrices (mock "AG" "A" "global" (-2)) =
    Ok ([[0; -2]; [-2; 1]; [-4; -1]],
        [[cell_none; cell_left]; [cell_up; cell_diagonal]; [cell_up; cell_up]]) /\
  mat_get [[cell_none; cell_left]; [cell_up; cell_diagonal]; [cell_up; cell_up]] 2 1
    = Ok cell_up /\
  0 <= num_directions cell_up <= 3.
Proof.
  assert (_create_score_and_directional_matrices (mock "AG" "A" "global" (-2)) =
    Ok ([[0; -2]; [-2; 1]; [-4; -1]],
        [[cell_none; cell_left]; [cell_up; cell_diagonal]; [cell_up; cell_up]])) as Hb
    by (by vm_compute).
  split; [exact Hb|]. split; [reflexivity|].
  destruct (cells_consistent _ _ _ 2%nat 1%nat cell_up Hb eq_refl) as (_ & H & _). exact H.
Defined.

(** X3.  The two edge loops do not look at the strategy: under every
    strategy, the local one included, cell [(i, 0)] holds [i * gap_penalty]
    with the single flag [up] and cell [(0, i)] holds [i * gap_penalty]
    with the single flag [left], for [i >= 1]. *)
Theorem edges_any_strategy (self : SequenceAlignment) (SM : matrix Z)
    (DM : matrix DirectionalCell) :
  _create_score_and_directional_matrices self = Ok (SM, DM) ->
  (forall i : nat, (1 <= i <= String.length (seq1 self))%nat ->
     mat_get SM (Z.of_nat i) 0 = Ok (Z.of_nat i * gap_penalty self) /\
     mat_get DM (Z.of_nat i) 0 = Ok (new_cell true false false)) /\
  (forall i : nat, (1 <= i <= String.length (seq2 self))%nat ->
     mat_get SM 0 (Z.of_nat i) = Ok (Z.of_nat i * gap_penalty self) /\
     mat_get DM 0 (Z.of_nat i) = Ok (new_cell false false true)).
Proof.
  intros Hbuild. apply build_built in Hbuild. pose proof (built_border _ _ Hbuild) as Hb.
  change 0 with (Z.of_nat 0). split; intros i Hi.
  - destruct (Hb i 0%nat) as [HS HD]; [lia|lia|by right|]. simpl in HS, HD.
    rewrite !mat_get_nat, HS, HD. unfold edge_score, edge_cell.
    repeat case_decide; try lia. done.
  - destruct (Hb 0%nat i) as [HS HD]; [lia|lia|by left|]. simpl in HS, HD.
    rewrite !mat_get_nat, HS, HD. unfold edge_score, edge_cell.
    repeat case_decide; try lia. done.
Qed.

Lemma edges_any_strategy_witness :
  _create_score_and_directional_matrices (mock "AG" "A" "local" (-2)) =
    Ok ([[0; -2]; [-2; 1]; [-4; 0]],
        [[cell_none; cell_left]; [cell_up; cell_diagonal]; [cell_up; cell_none]]) /\
  mat_get [[0; -2]; [-2; 1]; [-4; 0]] 2 0 = Ok (-4) /\
  mat_get [[cell_none; cell_left]; [cell_up; cell_diagonal]; [cell_up; cell_none]] 2 0
    = Ok (new_cell true false false).
Proof.
  assert (_create_score_and_directional_matrices (mock "AG" "A" "local" (-2)) =
    Ok ([[0; -2]; [-2; 1]; [-4; 0]],
        [[cell_none; cell_left]; [cell_up; cell_diagonal]; [cell_up; cell_none]])) as Hb
    by (by vm_compute).
  split; [exact Hb|]. destruct (edges_any_strategy _ _ _ Hb) as [H _].
  apply (H 2%nat). simpl. lia.
Defined.

(** X4.  Under the local strategy every cell off the two edges holds a
    score that is not negative, and the score returned by the enumeration
    is not negative. *)
Theorem local_scores_nonneg (self : SequenceAlignment) (SM : matrix Z)
    (DM : matrix DirectionalCell) :
  _create_score_and_directional_matrices self = Ok (SM, DM) ->
  strategy self = "local" ->
  (forall (i j : nat) v, (1 <= i)%nat -> (1 <= j)%nat ->
     mat_get SM (Z.of_nat i) (Z.of_nat j) = Ok v -> 0 <= v) /\
  (forall fuel n_max res score,
     _traceback self SM DM fuel n_max = Some (Ok (res, score)) -> 0 <= score).
Proof.
  intros Hbuild Hl. apply build_built in Hbuild. split.
  - intros i j v Hi Hj. rewrite mat_get_nat.
    destruct (mat_lookup SM i j) as [w|] eqn:Hw; [|done]. intros [= <-].
    destruct (built_shapes _ _ Hbuild) as [HS _]. simpl in HS.
    destruct (mat_lookup_bound _ _ _ _ _ _ HS Hw) as [Hi' Hj'].
    destruct (built_inner _ _ Hbuild (i - 1)%nat (j - 1)%nat)
      as (c1 & c2 & sub & s_d & s_u & s_l & _ & _ & _ & _ & _ & _ & Hst & _); [lia..|].
    simpl in Hst. replace (i - 1 + 1)%nat with i in Hst by lia.
    replace (j - 1 + 1)%nat with j in Hst by lia. rewrite Hw in Hst.
    injection Hst as ->. unfold best_value. rewrite Hl.
    change (String.eqb "local" "local") with true. cbv iota zeta. rewrite py_max_max. lia.
  - intros fuel n_max res score Hrun.
    apply traceback_inv in Hrun as (states & sols & Hinit & _).
    destruct (initial_states_local self _ _ Hbuild Hl) as (mx & Heq & _ & Hle).
    rewrite Heq in Hinit. injection Hinit as <- _.
    destruct (built_border _ _ Hbuild 0%nat 0%nat) as [H00 _]; [lia|lia|by left|].
    simpl in H00. unfold edge_score in H00. rewrite !decide_False in H00 by lia.
    by apply (Hle _ _ _ H00).
Qed.

Lemma local_scores_nonneg_witness :
  _create_score_and_directional_matrices (mock "AG" "A" "local" (-2)) =
    Ok ([[0; -2]; [-2; 1]; [-4; 0]],
        [[cell_none; cell_left]; [cell_up; cell_diagonal]; [cell_up; cell_none]]) /\
  mat_get [[0; -2]; [-2; 1]; [-4; 0]] 2 1 = Ok 0 /\ 0 <= 0.
Proof.
  assert (_create_score_and_directional_matrices (mock "AG" "A" "local" (-2)) =
    Ok ([[0; -2]; [-2; 1]; [-4; 0]],
        [[cell_none; cell_left]; [cell_up; cell_diagonal]; [cell_up; cell_none]])) as Hb
    by (by vm_compute).
  split; [exact Hb|]. split; [reflexivity|].
  destruct (local_scores_nonneg _ _ _ Hb eq_refl) as [H _].
  apply (H 2%nat 1%nat 0); [lia|lia|reflexivity].
Defined.

(** ** The enumeration *)

(** X5.  With [n >= 1] the enumeration returns at least one pair, under
    both strategies: the result is never empty. *)
Theorem result_nonempty (self : SequenceAlignment) (SM : matrix Z)
    (DM : matrix DirectionalCell) (fuel : nat) (n_max : Z)
    (res : list (string * string)) (score : Z) :
  _create_score_and_directional_matrices self = Ok (SM, DM) ->
  1 <= n_max ->
  _traceback self SM DM fuel n_max = Some (Ok (res, score)) ->
  res <> [].
Proof.
  intros Hbuild Hn Hrun. apply build_built in Hbuild.
  apply traceback_inv in Hrun as (states & sols & Hinit & Hloop & ->).
  intros Hnil. apply sorted_reverse_nil in Hnil.
  apply (loop_collects self _ _ Hbuild n_max states ∅ fuel sols); [|left|done..].
  - by eapply initial_in_range.
  - by eapply initial_states_nonempty.
Qed.

Lemma result_nonempty_witness :
  _create_score_and_directional_matrices (mock "" "AC" "local" (-2)) =
    Ok ([[0; -2; -4]], [[cell_none; cell_left; cell_left]]) /\
  _traceback (mock "" "AC" "local" (-2)) [[0; -2; -4]]
    [[cell_none; cell_left; cell_left]] 10 1 = Some (Ok ([("", "")], 0)) /\
  [("", "")] <> ([] : list (string * string)).
Proof.
  assert (_create_score_and_directional_matrices (mock "" "AC" "local" (-2)) =
    Ok ([[0; -2; -4]], [[cell_none; cell_left; cell_left]])) as Hb by (by vm_compute).
  assert (_traceback (mock "" "AC" "local" (-2)) [[0; -2; -4]]
    [[cell_none; cell_left; cell_left]] 10 1 = Some (Ok ([("", "")], 0))) as Hr
    by (by vm_compute).
  split; [exact Hb|]. split; [exact Hr|].
  apply (result_nonempty _ _ _ 10%nat 1 _ 0 Hb); [lia|exact Hr].
Defined.

Lemma traceback_loop_grows self SM DM n_max fuel states sols res :
  traceback_loop self SM DM fuel n_max states sols = Some (Ok res) -> sols ⊆ res.
Proof.
  revert states sols. induction fuel as [|fuel IH]; intros states sols.
  - destruct states as [|s states]; simpl; [by intros [= <-]|].
    destruct (Z.of_nat (size sols) <? n_max); [done|]. by intros [= <-].
  - destruct states as [|s states]; simpl; [by intros [= <-]|].
    destruct (Z.of_nat (size sols) <? n_max); [|by intros [= <-]].
    destruct s as [[[posY posX] p1] p2].
    destruct (traceback_step _ _ _ _ states sols) as [st|e] eqn:Hstep; [|done].
    intros Hrun. apply IH in Hrun.
    apply traceback_step_sols in Hstep as [Heq|Heq]; rewrite Heq in Hrun; [done|].
    etrans; [|exact Hrun]. apply union_subseteq_r.
Qed.

Lemma traceback_loop_mono_n self SM DM n1 n2 fuel states sols res1 res2 :
  n1 <= n2 ->
  traceback_loop self SM DM fuel n1 states sols = Some (Ok res1) ->
  traceback_loop self SM DM fuel n2 states sols = Some (Ok res2) ->
  res1 ⊆ res2.
Proof.
  intros Hle. revert states sols. induction fuel as [|fuel IH]; intros states sols.
  - destruct states as [|s states]; simpl; [by intros [= <-] [= <-]|].
    destruct (Z.ltb_spec (Z.of_nat (size sols)) n1); [done|].
    destruct (Z.ltb_spec (Z.of_nat (size sols)) n2); [done|]. by intros [= <-] [= <-].
  - destruct states as [|s states]; [by intros [= <-] [= <-]|].
    intros H1 H2. simpl in H1. destruct (Z.ltb_spec (Z.of_nat (size sols)) n1) as [Hlt|Hge].
    + simpl in H2. destruct (Z.ltb_spec (Z.of_nat (size sols)) n2); [|lia].
      destruct (traceback_step _ _ _ s states sols) as [st|e]; [|done]. by eapply IH.
    + injection H1 as <-. by eapply traceback_loop_grows.
Qed.

(** X6.  Asking for more alignments never loses one: every pair returned
    for [n1] is returned for any [n2 >= n1], with the same score.  This
    holds on any matrices. *)
Theorem traceback_monotone (self : SequenceAlignment) (SM : matrix Z)
    (DM : matrix DirectionalCell) (fuel1 fuel2 : nat) (n1 n2 : Z)
    (res1 res2 : list (string * string)) (score1 score2 : Z) :
  n1 <= n2 ->
  _traceback self SM DM fuel1 n1 = Some (Ok (res1, score1)) ->
  _traceback self SM DM fuel2 n2 = Some (Ok (res2, score2)) ->
  score1 = score2 /\ (forall a, a ∈ res1 -> a ∈ res2) /\ (length res1 <= length res2)%nat.
Proof.
  intros Hle H1 H2.
  apply traceback_inv in H1 as (states1 & sols1 & Hinit1 & Hloop1 & ->).
  apply traceback_inv in H2 as (states2 & sols2 & Hinit2 & Hloop2 & ->).
  rewrite Hinit1 in Hinit2. injection Hinit2 as <- <-.
  apply (traceback_loop_fuel_mono _ _ _ _ _ (fuel1 + fuel2)) in Hloop1; [|lia].
  apply (traceback_loop_fuel_mono _ _ _ _ _ (fuel1 + fuel2)) in Hloop2; [|lia].
  pose proof (traceback_loop_mono_n _ _ _ _ _ _ _ _ _ _ Hle Hloop1 Hloop2) as Hsub.
  split; [done|]. split.
  - intros a. rewrite !elem_of_sorted_reverse. apply Hsub.
  - rewrite !sorted_reverse_length. by apply subseteq_size.
Qed.

Lemma traceback_monotone_witness :
  1 <= 5 /\
  _traceback (mock "AA" "A" "global" (-2)) [[0; -2]; [-2; 1]; [-4; -1]]
    [[cell_none; cell_left]; [cell_up; cell_diagonal]; [cell_up; new_cell true true false]]
    100 1 = Some (Ok ([("AA", "A-")], -1)) /\
  _traceback (mock "AA" "A" "global" (-2)) [[0; -2]; [-2; 1]; [-4; -1]]
    [[cell_none; cell_left]; [cell_up; cell_diagonal]; [cell_up; new_cell true true false]]
    100 5 = Some (Ok ([("AA", "A-"); ("AA", "-A")], -1)) /\
  (1 <= 2)%nat.
Proof.
  assert (_traceback (mock "AA" "A" "global" (-2)) [[0; -2]; [-2; 1]; [-4; -1]]
    [[cell_none; cell_left]; [cell_up; cell_diagonal]; [cell_up; new_cell true true false]]
    100 1 = Some (Ok ([("AA", "A-")], -1))) as H1 by (by vm_compute).
  assert (_traceback (mock "AA" "A" "global" (-2)) [[0; -2]; [-2; 1]; [-4; -1]]
    [[cell_none; cell_left]; [cell_up; cell_diagonal]; [cell_up; new_cell true true false]]
    100 5 = Some (Ok ([("AA", "A-"); ("AA", "-A")], -1))) as H2 by (by vm_compute).
  split; [lia|]. split; [exact H1|]. split; [exact H2|].
  assert (1 <= 5) as Hle by lia.
  destruct (traceback_monotone _ _ _ _ _ _ _ _ _ _ _ Hle H1 H2) as (_ & _ & Hlen).
  exact Hlen.
Defined.

(** ** Errors of the construction and of the whole run *)

Lemma foldM_raise_kind {A S} (f : S -> A -> result S) (E : exn -> Prop) l s e :
  (forall t x e', f t x = Raise e' -> E e') ->
  foldM f l s = Raise e -> E e.
Proof.
  intros Hf. revert s; induction l as [|x l IH]; intros s; simpl; [done|].
  destruct (f s x) as [t|e'] eqn:Hx; simpl; [apply IH|].
  intros [= <-]. by eapply Hf.
Qed.

Lemma foldM_ok_all {A S} (f : S -> A -> result S) (C : A -> Prop) l s s' :
  (forall t x t', f t x = Ok t' -> C x) ->
  foldM f l s = Ok s' -> forall x, x ∈ l -> C x.
Proof.
  intros Hf. revert s; induction l as [|x l IH]; intros s; simpl.
  - intros _ y Hy. by apply elem_of_nil in Hy.
  - destruct (f s x) as [t|e] eqn:Hx; simpl; [|done].
    intros Hrun y Hy. apply elem_of_cons in Hy as [->|Hy]; [by eapply Hf|by eapply IH].
Qed.

Lemma bind_Raise {A B} (r : result A) (f : A -> result B) e :
  r ≫= f = Raise e -> r = Raise e \/ exists a, r = Ok a /\ f a = Raise e.
Proof. destruct r as [a|e']; simpl; [eauto|]. intros [= <-]. by left. Qed.

Lemma py_index_raise len i e : py_index len i = Raise e -> e = IndexError.
Proof. unfold py_index. repeat case_match; congruence. Qed.

Lemma mat_get_raise {A} (M : matrix A) r c e : mat_get M r c = Raise e -> e = IndexError.
Proof.
  unfold mat_get. intros H.
  apply bind_Raise in H as [H|(i & _ & H)]; [by eapply py_index_raise|].
  destruct (M !! i) as [row|]; [|congruence].
  apply bind_Raise in H as [H|(j & _ & H)]; [by eapply py_index_raise|].
  destruct (row !! j); congruence.
Qed.

Lemma mat_set_raise {A} (M : matrix A) r c v e :
  mat_set M r c v = Raise e -> e = IndexError.
Proof.
  unfold mat_set. intros H.
  apply bind_Raise in H as [H|(i & _ & H)]; [by eapply py_index_raise|].
  destruct (M !! i) as [row|]; [|congruence].
  apply bind_Raise in H as [H|(j & _ & H)]; [by eapply py_index_raise|done].
Qed.

Lemma fill_edge_col_raise self st i e :
  fill_edge_col self st i = Raise e -> e = OverflowError \/ e = IndexError.
Proof.
  unfold fill_edge_col, np_store_int. destruct (fits_int64 _); simpl; [|by intros [= <-]; left].
  intros H. right. apply bind_Raise in H as [H|(S' & _ & H)]; [by eapply mat_set_raise|].
  apply bind_Raise in H as [H|(D' & _ & H)]; [by eapply mat_set_raise|done].
Qed.

Lemma fill_edge_row_raise self st i e :
  fill_edge_row self st i = Raise e -> e = OverflowError \/ e = IndexError.
Proof.
  unfold fill_edge_row, np_store_int. destruct (fits_int64 _); simpl; [|by intros [= <-]; left].
  intros H. right. apply bind_Raise in H as [H|(S' & _ & H)]; [by eapply mat_set_raise|].
  apply bind_Raise in H as [H|(D' & _ & H)]; [by eapply mat_set_raise|done].
Qed.

Lemma fill_cell_raise self i c1 st jc e :
  fill_cell self i c1 st jc = Raise e -> e = TypeError \/ e = IndexError.
Proof.
  unfold fill_cell. intros H.
  apply bind_Raise in H as [H|(s_d & _ & H)]; [right; by eapply mat_get_raise|].
  apply bind_Raise in H as [H|(sub & _ & H)].
  { left. revert H. unfold alignments_getitem. case_match; congruence. }
  apply bind_Raise in H as [H|(s_u & _ & H)]; [right; by eapply mat_get_raise|].
  apply bind_Raise in H as [H|(s_l & _ & H)]; [right; by eapply mat_get_raise|].
  apply bind_Raise in H as [H|(best & _ & H)]; [done|].
  apply bind_Raise in H as [H|(S' & _ & H)]; [right; by eapply mat_set_raise|].
  apply bind_Raise in H as [H|(D' & _ & H)]; [right; by eapply mat_set_raise|done].
Qed.

(** The two halves of a valid input. *)
Definition edges_fit (self : SequenceAlignment) : bool :=
  forallb (fun i => fits_int64 (Z.of_nat i * gap_penalty self))
          (seq 1 (String.length (seq1 self))) &&
  forallb (fun i => fits_int64 (Z.of_nat i * gap_penalty self))
          (seq 1 (String.length (seq2 self))).

Definition pairs_scored (self : SequenceAlignment) : bool :=
  forallb (fun ic : nat * ascii =>
             forallb (fun jc : nat * ascii =>
                        is_ok (alignments_getitem (alignments self) (snd ic) (snd jc)))
                     (enumerate (seq2 self)))
          (enumerate (seq1 self)).

Lemma valid_inputb_split self : valid_inputb self = edges_fit self && pairs_scored self.
Proof. reflexivity. Qed.

Lemma build_ok_edges_fit self st :
  _create_score_and_directional_matrices self = Ok st -> edges_fit self = true.
Proof.
  unfold _create_score_and_directional_matrices. intros H.
  inv_bind H. inv_bind H. unfold edges_fit.
  apply andb_true_iff. split; apply forallb_forall; intros i Hi; apply list_elem_of_In in Hi.
  - apply (foldM_ok_all _ (fun i => fits_int64 (Z.of_nat i * gap_penalty self) = true)
             _ _ _) with (x := i) in E; [done| |done].
    intros t y t'. unfold fill_edge_col, np_store_int. by destruct (fits_int64 _).
  - apply (foldM_ok_all _ (fun i => fits_int64 (Z.of_nat i * gap_penalty self) = true)
             _ _ _) with (x := i) in E0; [done| |done].
    intros t y t'. unfold fill_edge_row, np_store_int. by destruct (fits_int64 _).
Qed.

Lemma build_ok_valid self st :
  _create_score_and_directional_matrices self = Ok st -> valid_inputb self = true.
Proof.
  intros Hbuild. rewrite valid_inputb_split, (build_ok_edges_fit _ _ Hbuild). simpl.
  apply build_built in Hbuild. unfold pairs_scored.
  apply forallb_forall. intros [i c1] Hi. apply forallb_forall. intros [j c2] Hj.
  apply list_elem_of_In, list_elem_of_lookup in Hi as [i' Hi].
  apply list_elem_of_In, list_elem_of_lookup in Hj as [j' Hj].
  apply enumerate_lookup in Hi as (x1 & Hx1 & [= -> ->]).
  apply enumerate_lookup in Hj as (x2 & Hx2 & [= -> ->]).
  destruct (built_inner _ _ Hbuild i' j') as (y1 & y2 & sub & _ & _ & _ & H1 & H2 & H3 & _);
    [by eapply get_Some_lt|by eapply get_Some_lt|].
  rewrite Hx1 in H1. rewrite Hx2 in H2. injection H1 as <-. injection H2 as <-.
  simpl. by rewrite H3.
Qed.

(** The two ways in which the construction fails. *)
Lemma build_raise_cases (self : SequenceAlignment) (e : exn) :
  _create_score_and_directional_matrices self = Raise e ->
  (e = OverflowError /\ edges_fit self = false) \/
  (e = TypeError /\ edges_fit self = true /\ pairs_scored self = false).
Proof.
  intros Hbuild.
  pose proof (build_spec self) as B. rewrite Hbuild in B. destruct B as [Hexn Hnv].
  assert (valid_inputb self = false) as Hvb.
  { destruct (valid_inputb self) eqn:Hv; [|done]. by apply valid_inputb_valid in Hv. }
  rewrite valid_inputb_split in Hvb.
  unfold _create_score_and_directional_matrices in Hbuild.
  apply bind_Raise in Hbuild as [H1|(st1 & H1 & Hbuild)].
  { left. apply (foldM_raise_kind _ (fun e => e = OverflowError \/ e = IndexError)) in H1 as Hk;
      [|intros; by eapply fill_edge_col_raise].
    assert (e = OverflowError) as -> by (destruct Hexn, Hk; congruence).
    split; [done|]. destruct (edges_fit self) eqn:Hfit; [|done].
    pose proof (edge_col_loop self) as L. rewrite H1 in L. destruct L as (_ & i & Hi & Hn).
    unfold edges_fit in Hfit. apply andb_true_iff in Hfit as [Hf _].
    rewrite forallb_forall in Hf. destruct Hn. apply Hf. by apply list_elem_of_In. }
  pose proof (edge_col_loop self) as L1. rewrite H1 in L1. destruct L1 as [Hsh1 He1].
  apply bind_Raise in Hbuild as [H2|(st2 & H2 & Hbuild)].
  { left. apply (foldM_raise_kind _ (fun e => e = OverflowError \/ e = IndexError)) in H2 as Hk;
      [|intros; by eapply fill_edge_row_raise].
    assert (e = OverflowError) as -> by (destruct Hexn, Hk; congruence).
    split; [done|]. destruct (edges_fit self) eqn:Hfit; [|done].
    pose proof (edge_row_loop self st1 Hsh1 He1) as L. rewrite H2 in L.
    destruct L as (_ & i & Hi & Hn).
    unfold edges_fit in Hfit. apply andb_true_iff in Hfit as [_ Hf].
    rewrite forallb_forall in Hf. destruct Hn. apply Hf. by apply list_elem_of_In. }
  right.
  assert (edges_fit self = true) as Hfit.
  { unfold edges_fit. apply andb_true_iff.
    split; apply forallb_forall; intros i Hi; apply list_elem_of_In in Hi.
    - apply (foldM_ok_all _ (fun i => fits_int64 (Z.of_nat i * gap_penalty self) = true)
               _ _ _) with (x := i) in H1; [done| |done].
      intros t y t'. unfold fill_edge_col, np_store_int. by destruct (fits_int64 _).
    - apply (foldM_ok_all _ (fun i => fits_int64 (Z.of_nat i * gap_penalty self) = true)
               _ _ _) with (x := i) in H2; [done| |done].
      intros t y t'. unfold fill_edge_row, np_store_int. by destruct (fits_int64 _). }
  rewrite Hfit in Hvb. simpl in Hvb. split; [|done].
  apply (foldM_raise_kind _ (fun e => e = TypeError \/ e = IndexError)) in Hbuild as Hk.
  - destruct Hexn, Hk; congruence.
  - intros t [i c1] e'. unfold fill_row. simpl.
    apply (foldM_raise_kind _ (fun e => e = TypeError \/ e = IndexError)).
    intros t' jc e''. apply fill_cell_raise.
Qed.

(** X7.  The construction succeeds exactly on valid input.  It raises
    [OverflowError] when an edge score [i * gap_penalty] does not fit the
    [int64] array, whatever the table holds; with edges that fit it raises
    [TypeError] when a pair of symbols of the two sequences has no score;
    it raises nothing else. *)
Theorem build_outcome (self : SequenceAlignment) :
  match _create_score_and_directional_matrices self with
  | Ok _ => edges_fit self = true /\ pairs_scored self = true
  | Raise e =>
      (e = OverflowError /\ edges_fit self = false) \/
      (e = TypeError /\ edges_fit self = true /\ pairs_scored self = false)
  end.
Proof.
  destruct (_create_score_and_directional_matrices self) as [st|e] eqn:Hbuild.
  - apply build_ok_valid in Hbuild. rewrite valid_inputb_split in Hbuild.
    by apply andb_true_iff in Hbuild.
  - by apply build_raise_cases.
Qed.

(** X8.  A whole run, [find_optimal_alignments]: the errors of the
    construction come first; on valid input an unknown strategy raises
    [AttributeError] after the matrices were built, and one of the two
    strategies returns alignments with their score, for every [n]. *)
Theorem run_outcome (self : SequenceAlignment) (n_max : Z) :
  (forall fuel,
     match find_optimal_alignments self fuel n_max with
     | Some (Ok _) | None =>
         valid_inputb self = true /\
         (strategy self = "global" \/ strategy self = "local")
     | Some (Raise e) =>
         (e = OverflowError /\ edges_fit self = false) \/
         (e = TypeError /\ edges_fit self = true /\ pairs_scored self = false) \/
         (e = AttributeError /\ valid_inputb self = true /\
          strategy self <> "global" /\ strategy self <> "local")
     end) /\
  (valid_inputb self = true ->
   strategy self = "global" \/ strategy self = "local" ->
   exists fuel res score,
     find_optimal_alignments self fuel n_max = Some (Ok (res, score))).
Proof.
  unfold find_optimal_alignments. split.
  - intros fuel. destruct (_create_score_and_directional_matrices self) as [[SM DM]|e] eqn:Hb.
    2:{ destruct (build_raise_cases _ _ Hb) as [?|?]; [by left|right; by left]. }
    pose proof (build_ok_valid _ _ Hb) as Hv. apply build_built in Hb. simpl.
    destruct (String.eqb_spec (strategy self) "global") as [Hg|Hg];
      [|destruct (String.eqb_spec (strategy self) "local") as [Hl|Hl]].
    + destruct (initial_states_global self _ _ Hb Hg) as (top & _ & Hinit).
      destruct (_traceback self SM DM fuel n_max) as [r|] eqn:Hr; [|by split; [|left]].
      destruct (traceback_no_raise self _ _ Hb n_max _ _ fuel r Hinit Hr) as [res ->].
      by split; [|left].
    + destruct (initial_states_local self _ _ Hb Hl) as (mx & Hinit & _).
      destruct (_traceback self SM DM fuel n_max) as [r|] eqn:Hr; [|by split; [|right]].
      destruct (traceback_no_raise self _ _ Hb n_max _ _ fuel r Hinit Hr) as [res ->].
      by split; [|right].
    + unfold _traceback. rewrite (initial_states_other self SM DM Hg Hl).
      right. right. done.
  - intros Hv Hstrat. destruct (_create_score_and_directional_matrices self) as [[SM DM]|e] eqn:Hb.
    2:{ rewrite valid_inputb_split in Hv. apply andb_true_iff in Hv as [Hv1 Hv2].
        destruct (build_raise_cases _ _ Hb) as [[_ ?]|(_ & _ & ?)]; congruence. }
    apply build_built in Hb. simpl.
    assert (exists mx states, initial_states self SM DM = Ok (mx, states)) as (mx & states & Hinit).
    { destruct Hstrat as [Hs|Hs].
      - destruct (initial_states_global self _ _ Hb Hs) as (top & _ & ->). eauto.
      - destruct (initial_states_local self _ _ Hb Hs) as (mx & -> & _). eauto. }
    destruct (traceback_total self _ _ Hb n_max _ _ Hinit) as [sols Hrun]. eauto.
Qed.

Lemma run_outcome_witness :
  valid_inputb (mock "AA" "A" "local" (-2)) = true /\
  exists fuel res score,
    find_optimal_alignments (mock "AA" "A" "local" (-2)) fuel 3 = Some (Ok (res, score)).
Proof.
  split; [by vm_compute|].
  destruct (run_outcome (mock "AA" "A" "local" (-2)) 3) as [_ H].
  apply H; [by vm_compute|by right].
Defined.

(** ** The table of substitution scores *)

(** What [alignments[a][b]] finds, before the default factories. *)
Definition table_lookup (t : gmap ascii (gmap ascii Z)) (a b : ascii) : option Z :=
  default ∅ (t !! a) !! b.

Lemma alignments_getitem_lookup t a b :
  alignments_getitem t a b =
  match table_lookup t a b with Some v => Ok v | None => Raise TypeError end.
Proof. reflexivity. Qed.

Lemma table_lookup_setitem t a b v a' b' :
  table_lookup (alignments_setitem t a b v) a' b' =
  if decide (a' = a /\ b' = b) then Some v else table_lookup t a' b'.
Proof.
  unfold table_lookup, alignments_setitem. destruct (decide (a' = a)) as [->|Hna].
  - rewrite lookup_insert_eq. simpl. destruct (decide (b' = b)) as [->|Hnb].
    + rewrite lookup_insert_eq. by rewrite decide_True.
    + rewrite lookup_insert_ne by done. by rewrite decide_False by tauto.
  - rewrite lookup_insert_ne by done. by rewrite decide_False by tauto.
Qed.

Section LoadSpec.
Variable rows cols : string.
Variable grid : matrix Z.

(** [j] is the last position of [c] in [s] before position [k]. *)
Definition last_before (s : string) (k j : nat) (c : ascii) : Prop :=
  (j < k)%nat /\ String.get j s = Some c /\
  forall j', (j < j' < k)%nat -> String.get j' s <> Some c.

Definition absent_before (s : string) (k : nat) (c : ascii) : Prop :=
  forall j, (j < k)%nat -> String.get j s <> Some c.

Definition row_defined (ic : nat * ascii) : Prop :=
  forall j, (j < String.length cols)%nat -> is_Some (mat_lookup grid (fst ic) j).

Definition load_cell (ic1 : nat * ascii) (t : gmap ascii (gmap ascii Z))
    (jc2 : nat * ascii) : result (gmap ascii (gmap ascii Z)) :=
  v ← mat_get grid (Z.of_nat (fst ic1)) (Z.of_nat (fst jc2));
  Ok (alignments_setitem t (snd ic1) (snd jc2) v).

Lemma load_row_spec (i : nat) (c1 : ascii) t0 :
  match foldM (load_cell (i, c1)) (enumerate cols) t0 with
  | Ok t =>
      row_defined (i, c1) /\
      (forall j c2, last_before cols (String.length cols) j c2 ->
         exists v, mat_lookup grid i j = Some v /\ table_lookup t c1 c2 = Some v) /\
      (forall a b, a <> c1 \/ absent_before cols (String.length cols) b ->
         table_lookup t a b = table_lookup t0 a b)
  | Raise e => e = IndexError /\ ~ row_defined (i, c1)
  end.
Proof.
  pose proof (foldM_rule (load_cell (i, c1))
    (fun k t =>
       (forall j, (j < k)%nat -> is_Some (mat_lookup grid i j)) /\
       (forall j c2, last_before cols k j c2 ->
          exists v, mat_lookup grid i j = Some v /\ table_lookup t c1 c2 = Some v) /\
       (forall a b, a <> c1 \/ absent_before cols k b ->
          table_lookup t a b = table_lookup t0 a b))
    (fun e => e = IndexError)
    (fun jc : nat * ascii => is_Some (mat_lookup grid i (fst jc)))
    (enumerate cols) t0) as R.
  rewrite length_enumerate in R. lapply R; [clear R; intros R|].
  - lapply R; [clear R; intros R|].
    + destruct (foldM _ _ _) as [t|e].
      * destruct R as (Hdef & H1 & H2). split; [|done]. intros j Hj. by apply Hdef.
      * destruct R as (-> & [j c2] & Hin & Hnone). split; [done|]. intros Hdef.
        apply Hnone. apply list_elem_of_lookup in Hin as [k Hk].
        apply enumerate_lookup in Hk as (x & Hx & [= -> ->]). apply Hdef.
        by eapply get_Some_lt.
    + clear R. intros k [j c2] t Hk (Hdef & H1 & H2).
      apply enumerate_lookup in Hk as (x & Hx & [= -> ->]).
      unfold load_cell. simpl. rewrite mat_get_nat.
      destruct (mat_lookup grid i k) as [v|] eqn:Hv; simpl.
      2:{ split; [done|]. by intros [? ?]. }
      split; [|split].
      * intros j Hj. destruct (decide (j = k)) as [->|]; [by rewrite Hv|]. apply Hdef. lia.
      * intros j c2 (Hj & Hget & Hlast). rewrite table_lookup_setitem.
        destruct (decide (j = k)) as [->|Hne].
        -- rewrite Hx in Hget. injection Hget as ->. rewrite decide_True by done. eauto.
        -- assert (c2 <> x) as Hc by (intros ->; apply (Hlast k); [lia|done]).
           rewrite decide_False by tauto. apply H1.
           split; [lia|]. split; [done|]. intros j' Hj'. apply Hlast. lia.
      * intros a b Hab. rewrite table_lookup_setitem.
        assert (~ (a = c1 /\ b = x)) as Hne.
        { intros [-> ->]. destruct Hab as [?|Habs]; [done|]. apply (Habs k); [lia|done]. }
        rewrite decide_False by done. apply H2.
        destruct Hab as [?|Habs]; [by left|right]. intros j Hj. apply Habs. lia.
  - split; [intros j Hj; lia|]. split; [|done].
    intros j c2 (Hj & _). lia.
Qed.

Definition load_row (t : gmap ascii (gmap ascii Z)) (ic1 : nat * ascii)
  : result (gmap ascii (gmap ascii Z)) :=
  foldM (load_cell ic1) (enumerate cols) t.

Lemma load_unfold :
  _load_substitution_matrix rows cols grid = foldM load_row (enumerate rows) ∅.
Proof. reflexivity. Qed.

(** The loops on any grid: they end when the grid has a cell for every
    pair of positions of the two label strings, and then the last
    occurrence of a label decides. *)
Lemma load_loops :
  match _load_substitution_matrix rows cols grid with
  | Ok t =>
      (forall i j, (i < String.length rows)%nat -> (j < String.length cols)%nat ->
         is_Some (mat_lookup grid i j)) /\
      (forall i j a b,
         last_before rows (String.length rows) i a ->
         last_before cols (String.length cols) j b ->
         exists v, mat_lookup grid i j = Some v /\ alignments_getitem t a b = Ok v) /\
      (forall a b,
         absent_before rows (String.length rows) a \/
         absent_before cols (String.length cols) b ->
         alignments_getitem t a b = Raise TypeError)
  | Raise e =>
      e = IndexError /\
      exists i j, (i < String.length rows)%nat /\ (j < String.length cols)%nat /\
                  mat_lookup grid i j = None
  end.
Proof.
  rewrite load_unfold.
  pose proof (foldM_rule load_row
    (fun k t =>
       (forall i j, (i < k)%nat -> (j < String.length cols)%nat ->
          is_Some (mat_lookup grid i j)) /\
       (forall i j a b, last_before rows k i a ->
          last_before cols (String.length cols) j b ->
          exists v, mat_lookup grid i j = Some v /\ table_lookup t a b = Some v) /\
       (forall a b, absent_before rows k a \/ absent_before cols (String.length cols) b ->
          table_lookup t a b = None))
    (fun e => e = IndexError) row_defined (enumerate rows) ∅) as R.
  rewrite length_enumerate in R. lapply R; [clear R; intros R|].
  - lapply R; [clear R; intros R|].
    + destruct (foldM _ _ _) as [t|e].
      * destruct R as (Hdef & H1 & H2). split; [done|]. split.
        -- intros i j a b Hi Hj. destruct (H1 i j a b Hi Hj) as (v & Hv & Ht).
           exists v. split; [done|]. by rewrite alignments_getitem_lookup, Ht.
        -- intros a b Hab. by rewrite alignments_getitem_lookup, (H2 a b Hab).
      * destruct R as (-> & [i c1] & Hin & Hnd). split; [done|].
        apply list_elem_of_lookup in Hin as [k Hk].
        apply enumerate_lookup in Hk as (x & Hx & [= -> ->]).
        exists k. apply get_Some_lt in Hx.
        assert (exists j, (j < String.length cols)%nat /\ mat_lookup grid k j = None)
          as (j & Hj & Hnone).
        { clear -Hnd. unfold row_defined in Hnd. simpl in Hnd.
          induction (String.length cols) as [|n IH].
          - destruct Hnd. intros j Hj. lia.
          - destruct (mat_lookup grid k n) as [v|] eqn:Hv.
            + destruct IH as (j & Hj & Hnone).
              * intros Hall. apply Hnd. intros j Hj.
                destruct (decide (j = n)) as [->|]; [by rewrite Hv|]. apply Hall. lia.
              * exists j. split; [lia|done].
            + exists n. split; [lia|done]. }
        by exists j.
    + clear R. intros k [i c1] t Hk (Hdef & H1 & H2).
      apply enumerate_lookup in Hk as (x & Hx & [= -> ->]).
      pose proof (load_row_spec k x t) as L. unfold load_row.
      destruct (foldM _ _ _) as [t'|e]; [|done].
      destruct L as (Hrow & L1 & L2). split; [|split].
      * intros i j Hi Hj. destruct (decide (i = k)) as [->|]; [by apply Hrow|].
        apply Hdef; lia.
      * intros i j a b (Hi & Hget & Hlast) Hj.
        destruct (decide (i = k)) as [->|Hne].
        -- rewrite Hx in Hget. injection Hget as ->. by apply L1.
        -- assert (a <> x) as Ha by (intros ->; apply (Hlast k); [lia|done]).
           rewrite (L2 a b) by (by left). apply H1; [|done].
           split; [lia|]. split; [done|]. intros i' Hi'. apply Hlast. lia.
      * intros a b Hab. destruct Hab as [Ha|Hb].
        -- assert (a <> x) as Hne by (intros ->; apply (Ha k); [lia|done]).
           rewrite (L2 a b) by (by left). apply H2. left. intros i Hi. apply Ha. lia.
        -- rewrite (L2 a b) by (by right). apply H2. by right.
  - split; [intros i j Hi; lia|]. split; [intros i j a b (Hi & _); lia|]. done.
Qed.

End LoadSpec.

(** What [np.asarray(..., dtype=int)] leaves: a rectangular array of [r]
    rows and [c] columns of [int64] values. *)
Definition int64_array (grid : matrix Z) (r c : nat) : Prop :=
  has_shape grid r c /\ Forall (Forall (fun v => fits_int64 v = true)) grid.

Lemma int64_array_lookup grid r c i j v :
  int64_array grid r c -> mat_lookup grid i j = Some v -> fits_int64 v = true.
Proof.
  intros [_ Hall]. unfold mat_lookup.
  destruct (grid !! i) as [row|] eqn:Hrow; simpl; [|done].
  intros Hv. rewrite Forall_lookup in Hall. specialize (Hall _ _ Hrow).
  rewrite Forall_lookup in Hall. by apply (Hall _ _ Hv).
Qed.

Lemma absent_or_last (s : string) (c : ascii) (k : nat) :
  absent_before s k c \/ exists i, last_before s k i c.
Proof.
  induction k as [|k IH].
  - left. intros j Hj. lia.
  - destruct (decide (String.get k s = Some c)) as [Hk|Hk].
    + right. exists k. split; [lia|]. split; [done|]. intros j Hj. lia.
    + destruct IH as [Habs|(i & Hi & Hget & Hlast)].
      * left. intros j Hj. destruct (decide (j = k)) as [->|]; [done|]. apply Habs. lia.
      * right. exists i. split; [lia|]. split; [done|]. intros j Hj.
        destruct (decide (j = k)) as [->|]; [done|]. apply Hlast. lia.
Qed.

(** On a rectangular array the loops end exactly when there is nothing to
    read or the two label strings are no longer than the array. *)
Lemma load_shape (rows cols : string) (grid : matrix Z) (r c : nat) :
  has_shape grid r c ->
  match _load_substitution_matrix rows cols grid with
  | Ok _ =>
      rows = "" \/ cols = "" \/
      (String.length rows <= r /\ String.length cols <= c)%nat
  | Raise e =>
      e = IndexError /\ rows <> "" /\ cols <> "" /\
      (r < String.length rows \/ c < String.length cols)%nat
  end.
Proof.
  intros Hsh. pose proof (load_loops rows cols grid) as L.
  destruct (_load_substitution_matrix rows cols grid) as [t|e].
  - destruct L as (Hdef & _).
    destruct (String.length rows) as [|lr] eqn:Hlr.
    { left. destruct rows; [done|simpl in Hlr; lia]. }
    destruct (String.length cols) as [|lc] eqn:Hlc.
    { right. left. destruct cols; [done|simpl in Hlc; lia]. }
    right. right.
    destruct (Hdef lr 0%nat) as [v Hv]; [lia..|].
    destruct (Hdef 0%nat lc) as [v' Hv']; [lia..|].
    apply (mat_lookup_bound _ r c) in Hv as [? _]; [|done].
    apply (mat_lookup_bound _ r c) in Hv' as [_ ?]; [|done]. lia.
  - destruct L as (-> & i & j & Hi & Hj & Hnone). split; [done|].
    split; [intros ->; simpl in Hi; lia|]. split; [intros ->; simpl in Hj; lia|].
    destruct (decide (String.length rows <= r)%nat) as [Hr|]; [|left; lia].
    destruct (decide (String.length cols <= c)%nat) as [Hc|]; [|right; lia].
    destruct (has_shape_lookup grid r c i j) as [v Hv]; [done|lia|lia|]. congruence.
Qed.

(** X9.  The loops that fill the table, on the labels and the [int64] array
    of [r] rows and [c] columns that the parsing lines leave.  They end
    exactly when one label string is empty or both are no longer than the
    array, and otherwise raise [IndexError], which takes a label string
    longer than the array.  In the filled table the pair [(a, b)] has the
    score of the cell at the last occurrence of [a] in the row labels and
    the last occurrence of [b] in the column labels; a pair with a symbol
    that labels no row, or no column, has no score and its lookup raises
    [TypeError]; every score of the table is an [int64] value. *)
Theorem load_substitution_matrix_spec (rows cols : string) (grid : matrix Z) (r c : nat) :
  int64_array grid r c ->
  match _load_substitution_matrix rows cols grid with
  | Ok t =>
      (rows = "" \/ cols = "" \/
       (String.length rows <= r /\ String.length cols <= c)%nat) /\
      (forall i j a b,
         last_before rows (String.length rows) i a ->
         last_before cols (String.length cols) j b ->
         exists v, mat_lookup grid i j = Some v /\ alignments_getitem t a b = Ok v) /\
      (forall a b,
         absent_before rows (String.length rows) a \/
         absent_before cols (String.length cols) b ->
         alignments_getitem t a b = Raise TypeError) /\
      (forall a b v, alignments_getitem t a b = Ok v -> fits_int64 v = true)
  | Raise e =>
      e = IndexError /\ rows <> "" /\ cols <> "" /\
      (r < String.length rows \/ c < String.length cols)%nat
  end.
Proof.
  intros Harr. pose proof (load_loops rows cols grid) as L.
  pose proof (load_shape rows cols grid r c (proj1 Harr)) as Lsh.
  destruct (_load_substitution_matrix rows cols grid) as [t|e]; [|exact Lsh].
  destruct L as (_ & Hget & Habs).
  split; [exact Lsh|]. split; [exact Hget|]. split; [exact Habs|].
  intros a b v Hv.
  destruct (absent_or_last rows a (String.length rows)) as [Ha|[i Hi]].
  { rewrite (Habs a b) in Hv by (by left). done. }
  destruct (absent_or_last cols b (String.length cols)) as [Hb|[j Hj]].
  { rewrite (Habs a b) in Hv by (by right). done. }
  destruct (Hget i j a b Hi Hj) as (v' & Hv' & Hget'). rewrite Hget' in Hv.
  injection Hv as <-. by eapply int64_array_lookup.
Qed.

Lemma load_substitution_matrix_spec_witness :
  int64_array
    [[1; -1; -2; -1]; [-1; 1; -1; -2]; [-2; -1; 1; -1]; [-1; -2; -1; 1]] 4 4 /\
  exists t,
    _load_substitution_matrix "ACGT" "ACGT"
    [[1; -1; -2; -1]; [-1; 1; -1; -2]; [-2; -1; 1; -1]; [-1; -2; -1; 1]] = Ok t /\
    alignments_getitem t "G" "A" = Ok (-2) /\
    forall a b v, alignments_getitem t a b = Ok v -> fits_int64 v = true.
Proof.
  assert (int64_array
    [[1; -1; -2; -1]; [-1; 1; -1; -2]; [-2; -1; 1; -1]; [-1; -2; -1; 1]] 4 4) as Harr.
  { split; [split; [reflexivity|]|]; repeat constructor. }
  split; [exact Harr|].
  pose proof (load_substitution_matrix_spec "ACGT" "ACGT"
    [[1; -1; -2; -1]; [-1; 1; -1; -2]; [-2; -1; 1; -1]; [-1; -2; -1; 1]] 4 4 Harr) as L.
  destruct (_load_substitution_matrix "ACGT" "ACGT"
    [[1; -1; -2; -1]; [-1; 1; -1; -2]; [-2; -1; 1; -1]; [-1; -2; -1; 1]]) as [t|e] eqn:E;
    [|by vm_compute in E].
  exists t. split; [done|]. destruct L as (_ & Hget & _ & Hfit). split; [|exact Hfit].
  destruct (Hget 2%nat 0%nat "G"%char "A"%char) as (v & Hv & ->).
  - split; [simpl; lia|]. split; [done|]. intros j Hj. simpl in Hj.
    assert (j = 3%nat) as -> by lia. done.
  - split; [simpl; lia|]. split; [done|]. intros j Hj. simpl in Hj.
    assert (j = 1 \/ j = 2 \/ j = 3)%nat as [-> | [-> | ->]] by lia; done.
  - by injection Hv as <-.
Defined.

(** ** Optimality of the global score matrix *)

(** Score of one column, as [alignment_score] counts it. *)
Definition column_score (t : gmap ascii (gmap ascii Z)) (gap : Z) (c1 c2 : ascii)
  : option Z :=
  if Ascii.eqb c1 "-" || Ascii.eqb c2 "-" then Some gap
  else match alignments_getitem t c1 c2 with
       | Ok v => Some v
       | Raise _ => None
       end.

Lemma alignment_score_cons t gap c1 c2 a1 a2 :
  alignment_score t gap (String c1 a1) (String c2 a2) =
  match alignment_score t gap a1 a2, column_score t gap c1 c2 with
  | Some rest, Some s => Some (s + rest)
  | _, _ => None
  end.
Proof.
  simpl. unfold column_score. destruct (alignment_score t gap a1 a2); [|done].
  destruct (Ascii.eqb c1 "-" || Ascii.eqb c2 "-"); [done|].
  by destruct (alignments_getitem t c1 c2).
Qed.

Lemma alignment_score_snoc t gap a1 a2 c1 c2 v s :
  String.length a1 = String.length a2 ->
  alignment_score t gap a1 a2 = Some v ->
  column_score t gap c1 c2 = Some s ->
  alignment_score t gap (a1 +:+ String c1 EmptyString) (a2 +:+ String c2 EmptyString)
    = Some (v + s).
Proof.
  revert a2 v. induction a1 as [|x1 a1 IH]; intros [|x2 a2] v Hlen Hv Hs; try done.
  - injection Hv as <-. rewrite !app_empty_l, alignment_score_cons, Hs. simpl.
    f_equal. lia.
  - rewrite !app_cons, alignment_score_cons. rewrite alignment_score_cons in Hv.
    destruct (alignment_score t gap a1 a2) as [rest|] eqn:Hrest; [|done].
    destruct (column_score t gap x1 x2) as [s0|]; [|done]. injection Hv as <-.
    rewrite (IH a2 rest) by (simpl in Hlen; (lia || done)). f_equal. lia.
Qed.

(** Alignments of the first [i] symbols of [seq1] with the first [j]
    symbols of [seq2], column after column, with their scores. *)
Inductive aligns (self : SequenceAlignment) : nat -> nat -> string -> string -> Z -> Prop :=
  | aligns_nil : aligns self 0 0 "" "" 0
  | aligns_diagonal i j a1 a2 v c1 c2 s :
      aligns self i j a1 a2 v ->
      String.get i (seq1 self) = Some c1 ->
      String.get j (seq2 self) = Some c2 ->
      alignments_getitem (alignments self) c1 c2 = Ok s ->
      aligns self (S i) (S j) (a1 +:+ String c1 "") (a2 +:+ String c2 "") (v + s)
  | aligns_up i j a1 a2 v c1 :
      aligns self i j a1 a2 v ->
      String.get i (seq1 self) = Some c1 ->
      aligns self (S i) j (a1 +:+ String c1 "") (a2 +:+ "-") (v + gap_penalty self)
  | aligns_left i j a1 a2 v c2 :
      aligns self i j a1 a2 v ->
      String.get j (seq2 self) = Some c2 ->
      aligns self i (S j) (a1 +:+ "-") (a2 +:+ String c2 "") (v + gap_penalty self).

(** The strings of [aligns] are alignments in the sense of the
    specification, and [alignment_score] gives their score. *)
Lemma aligns_strings self i j a1 a2 v :
  gap_free (seq1 self) = true -> gap_free (seq2 self) = true ->
  aligns self i j a1 a2 v ->
  String.length a1 = String.length a2 /\
  strip_gaps a1 = substring 0 i (seq1 self) /\
  strip_gaps a2 = substring 0 j (seq2 self) /\
  alignment_score (alignments self) (gap_penalty self) a1 a2 = Some v.
Proof.
  intros Hg1 Hg2. apply gap_free_no_gap in Hg1, Hg2.
  induction 1 as [|i j a1 a2 v c1 c2 s _ (Hlen & H1 & H2 & Hsc) Hc1 Hc2 Hs
                  |i j a1 a2 v c1 _ (Hlen & H1 & H2 & Hsc) Hc1
                  |i j a1 a2 v c2 _ (Hlen & H1 & H2 & Hsc) Hc2].
  - by rewrite !substring_zero.
  - assert (c1 <> "-"%char) as N1 by (intros ->; by apply Hg1 in Hc1).
    assert (c2 <> "-"%char) as N2 by (intros ->; by apply Hg2 in Hc2).
    apply Ascii.eqb_neq in N1, N2.
    rewrite !length_app, !strip_gaps_app. simpl. rewrite N1, N2, H1, H2.
    rewrite (substring_snoc _ 0 i c1), (substring_snoc _ 0 j c2) by done.
    repeat split; [lia|]. apply alignment_score_snoc; [done..|].
    unfold column_score. by rewrite N1, N2, Hs.
  - assert (c1 <> "-"%char) as N1 by (intros ->; by apply Hg1 in Hc1).
    apply Ascii.eqb_neq in N1.
    rewrite !length_app, !strip_gaps_app. simpl. rewrite N1, H1, H2.
    rewrite (substring_snoc _ 0 i c1), app_empty_r by done.
    repeat split; [lia|]. apply alignment_score_snoc; [done..|].
    unfold column_score. by rewrite orb_true_r.
  - assert (c2 <> "-"%char) as N2 by (intros ->; by apply Hg2 in Hc2).
    apply Ascii.eqb_neq in N2.
    rewrite !length_app, !strip_gaps_app. simpl. rewrite N2, H1, H2.
    rewrite (substring_snoc _ 0 j c2), app_empty_r by done.
    repeat split; [lia|]. apply alignment_score_snoc; [done..|].
    by unfold column_score.
Qed.

(** No candidate sum of the construction leaves the [int64] range. *)
Definition cell_at (M : matrix Z) (i j : nat) : Z := default 0 (mat_lookup M i j).

Definition sub_at (self : SequenceAlignment) (i j : nat) : Z :=
  match String.get i (seq1 self), String.get j (seq2 self) with
  | Some c1, Some c2 =>
      match alignments_getitem (alignments self) c1 c2 with Ok s => s | Raise _ => 0 end
  | _, _ => 0
  end.

Definition sums_fit (self : SequenceAlignment) (SM : matrix Z) : bool :=
  forallb (fun i =>
    forallb (fun j =>
      fits_int64 (cell_at SM i j + sub_at self i j) &&
      fits_int64 (cell_at SM i (j + 1) + gap_penalty self) &&
      fits_int64 (cell_at SM (i + 1) j + gap_penalty self))
      (seq 0 (String.length (seq2 self))))
    (seq 0 (String.length (seq1 self))).

Section Optimal.
Variable self : SequenceAlignment.
Variable SM : matrix Z.
Variable DM : matrix DirectionalCell.
Hypothesis Hbuilt : built self (SM, DM).
Hypothesis Hglobal : String.eqb (strategy self) "local" = false.
Hypothesis Hfit : sums_fit self SM = true.

Lemma cell_at_edges (i j : nat) :
  (i <= String.length (seq1 self))%nat -> (j <= String.length (seq2 self))%nat ->
  is_Some (mat_lookup SM i j) /\
  (j = 0%nat -> cell_at SM i j = Z.of_nat i * gap_penalty self) /\
  (i = 0%nat -> cell_at SM i j = Z.of_nat j * gap_penalty self).
Proof.
  intros Hi Hj. destruct (built_shapes _ _ Hbuilt) as [HS _]. simpl in HS.
  split; [apply (has_shape_lookup _ _ _ _ _ HS); lia|].
  split; intros ->.
  - destruct (built_border _ _ Hbuilt i 0%nat) as [H _]; [lia|lia|by right|].
    simpl in H. unfold cell_at. rewrite H. simpl. unfold edge_score.
    repeat case_decide; try lia. assert (i = 0%nat) as -> by lia. lia.
  - destruct (built_border _ _ Hbuilt 0%nat j) as [H _]; [lia|lia|by left|].
    simpl in H. unfold cell_at. rewrite H. simpl. unfold edge_score.
    repeat case_decide; try lia. assert (j = 0%nat) as -> by lia. lia.
Qed.

Lemma cell_at_col0 (i : nat) :
  (i <= String.length (seq1 self))%nat -> cell_at SM i 0 = Z.of_nat i * gap_penalty self.
Proof. intros Hi. destruct (cell_at_edges i 0) as (_ & H & _); [lia..|]. by apply H. Qed.

Lemma cell_at_row0 (j : nat) :
  (j <= String.length (seq2 self))%nat -> cell_at SM 0 j = Z.of_nat j * gap_penalty self.
Proof. intros Hj. destruct (cell_at_edges 0 j) as (_ & _ & H); [lia..|]. by apply H. Qed.

(** The recurrence on integers. *)
Lemma cell_at_inner (i j : nat) :
  (i < String.length (seq1 self))%nat -> (j < String.length (seq2 self))%nat ->
  exists c1 c2 s,
    String.get i (seq1 self) = Some c1 /\ String.get j (seq2 self) = Some c2 /\
    alignments_getitem (alignments self) c1 c2 = Ok s /\
    cell_at SM (i + 1) (j + 1) =
      Z.max (Z.max (cell_at SM i (j + 1) + gap_penalty self) (cell_at SM i j + s))
            (cell_at SM (i + 1) j + gap_penalty self).
Proof.
  intros Hi Hj.
  destruct (built_inner _ _ Hbuilt i j Hi Hj)
    as (c1 & c2 & s & s_d & s_u & s_l & H1 & H2 & H3 & H4 & H5 & H6 & H7 & _).
  simpl in H4, H5, H6, H7. exists c1, c2, s. do 3 (split; [done|]).
  unfold sums_fit in Hfit. rewrite forallb_forall in Hfit.
  specialize (Hfit i). rewrite in_seq in Hfit. lapply Hfit; [clear Hfit; intros Hfit|lia].
  rewrite forallb_forall in Hfit. specialize (Hfit j). rewrite in_seq in Hfit.
  lapply Hfit; [clear Hfit; intros Hfit|lia].
  apply andb_true_iff in Hfit as [Hfit F3]. apply andb_true_iff in Hfit as [F1 F2].
  unfold sub_at in F1. rewrite H1, H2, H3 in F1.
  unfold cell_at in *. rewrite H4 in *. rewrite H5 in *. rewrite H6 in *. rewrite H7.
  simpl in *. unfold best_value. rewrite Hglobal. unfold np_add.
  by rewrite !wrap64_fits.
Qed.

Lemma aligns_reaches (i j : nat) :
  (i <= String.length (seq1 self))%nat -> (j <= String.length (seq2 self))%nat ->
  exists a1 a2, aligns self i j a1 a2 (cell_at SM i j).
Proof.
  revert j. induction i as [|i IHi]; intros j Hi Hj.
  - induction j as [|j IHj].
    + rewrite cell_at_row0 by lia. simpl. eauto using aligns.
    + destruct IHj as (a1 & a2 & Ha); [lia|].
      destruct (get_is_Some (seq2 self) j) as [c2 Hc2]; [lia|].
      rewrite cell_at_row0 in Ha by lia. rewrite cell_at_row0 by lia.
      replace (Z.of_nat (S j) * gap_penalty self)
        with (Z.of_nat j * gap_penalty self + gap_penalty self) by lia.
      eauto using aligns.
  - destruct (get_is_Some (seq1 self) i) as [c1 Hc1]; [lia|].
    induction j as [|j IHj].
    + destruct (IHi 0%nat) as (a1 & a2 & Ha); [lia..|].
      rewrite cell_at_col0 in Ha by lia. rewrite cell_at_col0 by lia.
      replace (Z.of_nat (S i) * gap_penalty self)
        with (Z.of_nat i * gap_penalty self + gap_penalty self) by lia.
      eauto using aligns.
    + destruct (cell_at_inner i j) as (x1 & x2 & s & Hx1 & Hx2 & Hs & Hrec); [lia..|].
      replace (i + 1)%nat with (S i) in Hrec by lia.
      replace (j + 1)%nat with (S j) in Hrec by lia. rewrite Hrec.
      destruct (IHi (S j)) as (u1 & u2 & Hu); [lia..|].
      destruct (IHi j) as (d1 & d2 & Hd); [lia..|].
      destruct IHj as (l1 & l2 & Hl); [lia|].
      destruct (Z.max_spec (Z.max (cell_at SM i (S j) + gap_penalty self)
                                  (cell_at SM i j + s))
                           (cell_at SM (S i) j + gap_penalty self)) as [[_ ->]|[_ ->]].
      * eauto using aligns.
      * destruct (Z.max_spec (cell_at SM i (S j) + gap_penalty self)
                             (cell_at SM i j + s)) as [[_ ->]|[_ ->]];
          eauto using aligns.
Qed.

Lemma aligns_bounded (i j : nat) a1 a2 w :
  aligns self i j a1 a2 w ->
  (i <= String.length (seq1 self))%nat /\ (j <= String.length (seq2 self))%nat /\
  w <= cell_at SM i j.
Proof.
  induction 1 as [|i j a1 a2 v c1 c2 s _ (Hi & Hj & Hv) Hc1 Hc2 Hs
                  |i j a1 a2 v c1 _ (Hi & Hj & Hv) Hc1
                  |i j a1 a2 v c2 _ (Hi & Hj & Hv) Hc2].
  - rewrite cell_at_row0 by lia. lia.
  - apply get_Some_lt in Hc1 as Hi'. apply get_Some_lt in Hc2 as Hj'.
    destruct (cell_at_inner i j Hi' Hj') as (x1 & x2 & s' & Hx1 & Hx2 & Hs' & Hrec).
    rewrite Hc1 in Hx1. rewrite Hc2 in Hx2. injection Hx1 as <-. injection Hx2 as <-.
    rewrite Hs in Hs'. injection Hs' as <-.
    replace (i + 1)%nat with (S i) in Hrec by lia.
    replace (j + 1)%nat with (S j) in Hrec by lia. lia.
  - apply get_Some_lt in Hc1 as Hi'. split; [lia|]. split; [lia|].
    destruct j as [|j].
    + rewrite cell_at_col0 in Hv by lia. rewrite cell_at_col0 by lia. lia.
    + destruct (cell_at_inner i j) as (x1 & x2 & s' & _ & _ & _ & Hrec); [lia..|].
      replace (i + 1)%nat with (S i) in Hrec by lia.
      replace (j + 1)%nat with (S j) in Hrec by lia. lia.
  - apply get_Some_lt in Hc2 as Hj'. split; [lia|]. split; [lia|].
    destruct i as [|i].
    + rewrite cell_at_row0 in Hv by lia. rewrite cell_at_row0 by lia. lia.
    + destruct (cell_at_inner i j) as (x1 & x2 & s' & _ & _ & _ & Hrec); [lia..|].
      replace (i + 1)%nat with (S i) in Hrec by lia.
      replace (j + 1)%nat with (S j) in Hrec by lia. lia.
Qed.

End Optimal.

(** X10.  Under the global strategy, when no candidate sum overflows,
    every cell [(i, j)] of the score matrix holds the best score of an
    alignment of the first [i] symbols of [seq1] with the first [j]
    symbols of [seq2]: some alignment has that score and none has a
    greater one.  In particular the returned score [score_matrix[m][n]] is
    the optimum for the two sequences. *)
Theorem score_matrix_optimal (self : SequenceAlignment) (SM : matrix Z)
    (DM : matrix DirectionalCell) (i j : nat) :
  _create_score_and_directional_matrices self = Ok (SM, DM) ->
  strategy self <> "local" ->
  sums_fit self SM = true ->
  (i <= String.length (seq1 self))%nat ->
  (j <= String.length (seq2 self))%nat ->
  exists v,
    mat_get SM (Z.of_nat i) (Z.of_nat j) = Ok v /\
    (exists a1 a2, aligns self i j a1 a2 v) /\
    (forall a1 a2 w, aligns self i j a1 a2 w -> w <= v) /\
    (gap_free (seq1 self) = true -> gap_free (seq2 self) = true ->
     forall a1 a2 w, aligns self i j a1 a2 w ->
       String.length a1 = String.length a2 /\
       strip_gaps a1 = substring 0 i (seq1 self) /\
       strip_gaps a2 = substring 0 j (seq2 self) /\
       alignment_score (alignments self) (gap_penalty self) a1 a2 = Some w).
Proof.
  intros Hbuild Hstrat Hfit Hi Hj. apply build_built in Hbuild.
  apply String.eqb_neq in Hstrat.
  destruct (cell_at_edges self _ _ Hbuild i j Hi Hj) as ([v Hv] & _).
  exists v. rewrite mat_get_nat, Hv. split; [done|].
  assert (cell_at SM i j = v) as <- by (unfold cell_at; by rewrite Hv).
  split; [by eapply aligns_reaches|]. split.
  - intros a1 a2 w Ha. by destruct (aligns_bounded self _ _ Hbuild Hstrat Hfit _ _ _ _ _ Ha)
      as (_ & _ & ?).
  - intros Hg1 Hg2 a1 a2 w Ha. by apply aligns_strings.
Qed.

Lemma score_matrix_optimal_witness :
  _create_score_and_directional_matrices (mock "AG" "A" "global" (-2)) =
    Ok ([[0; -2]; [-2; 1]; [-4; -1]],
        [[cell_none; cell_left]; [cell_up; cell_diagonal]; [cell_up; cell_up]]) /\
  sums_fit (mock "AG" "A" "global" (-2)) [[0; -2]; [-2; 1]; [-4; -1]] = true /\
  exists v, mat_get [[0; -2]; [-2; 1]; [-4; -1]] 2 1 = Ok v /\
            exists a1 a2, aligns (mock "AG" "A" "global" (-2)) 2 1 a1 a2 v.
Proof.
  assert (_create_score_and_directional_matrices (mock "AG" "A" "global" (-2)) =
    Ok ([[0; -2]; [-2; 1]; [-4; -1]],
        [[cell_none; cell_left]; [cell_up; cell_diagonal]; [cell_up; cell_up]])) as Hb
    by (by vm_compute).
  assert (sums_fit (mock "AG" "A" "global" (-2)) [[0; -2]; [-2; 1]; [-4; -1]] = true)
    as Hf by (by vm_compute).
  split; [exact Hb|]. split; [exact Hf|].
  destruct (score_matrix_optimal _ _ _ 2%nat 1%nat Hb) as (v & Hv & Ha & _).
  - discriminate.
  - exact Hf.
  - simpl. lia.
  - simpl. lia.
  - exists v. split; [exact Hv|exact Ha].
Defined.

(** ** The report of [_print_and_save_solutions] *)

(** The line feed, and the blank line between two blocks. *)
Definition nl : string := String (ascii_of_nat 10) EmptyString.
Definition blank : string := nl +:+ nl.

Definition ascii_upper (c : ascii) : ascii :=
  let k := nat_of_ascii c in
  if (97 <=? k)%nat && (k <=? 122)%nat then ascii_of_nat (k - 32) else c.

Definition ascii_lower (c : ascii) : ascii :=
  let k := nat_of_ascii c in
  if (65 <=? k)%nat && (k <=? 90)%nat then ascii_of_nat (k + 32) else c.

Fixpoint str_lower (s : string) : string :=
  match s with
  | EmptyString => EmptyString
  | String c r => String (ascii_lower c) (str_lower r)
  end.

(** [s.capitalize()] *)
Definition capitalize (s : string) : string :=
  match s with
  | EmptyString => EmptyString
  | String c r => String (ascii_upper c) (str_lower r)
  end.

(** [l[i]] on a list. *)
Definition list_getitem {A} (l : list A) (i : Z) : result A :=
  k ← py_index (length l) i;
  match l !! k with
  | Some x => Ok x
  | None => Raise IndexError
  end.

(** [text[:-2]] *)
Definition drop_last_two (text : string) : string :=
  substring 0 (String.length text - 2) text.

(** The text added for the pair of index [i]. *)
Definition report_block (self : SequenceAlignment) (score : Z) (i : nat)
    (a : string * string) : string :=
  capitalize (strategy self) +:+ " alignment no. " +:+ pretty (Z.of_nat i + 1) +:+ ":" +:+ nl
  +:+ fst a +:+ nl +:+ snd a +:+ nl +:+ "Score: " +:+ pretty score +:+ nl +:+ nl.

(** [_print_and_save_solutions]: the text that is printed and written to
    the output file. *)
Definition _print_and_save_solutions (self : SequenceAlignment)
    (solution_sequences : list (string * string)) (score : Z) (n : Z) : result string :=
  text ← foldM (fun text i =>
                  a ← list_getitem solution_sequences (Z.of_nat i);
                  Ok (text +:+ report_block self score i a))
               (seq 0 (Z.to_nat (Z.min n (Z.of_nat (length solution_sequences)))))
               EmptyString;
  Ok (drop_last_two text).

(** [find_optimal_alignments] with its report. *)
Definition find_optimal_alignments_report (self : SequenceAlignment) (fuel : nat) (n : Z)
  : option (result string) :=
  match find_optimal_alignments self fuel n with
  | None => None
  | Some (Raise e) => Some (Raise e)
  | Some (Ok (solution_sequences, score)) =>
      Some (_print_and_save_solutions self solution_sequences score n)
  end.

Example report_A_A :
  find_optimal_alignments_report (mock "AA" "A" "global" (-2)) 20 2 =
  Some (Ok ("Global alignment no. 1:" +:+ nl +:+ "AA" +:+ nl +:+ "A-" +:+ nl +:+ "Score: -1"
            +:+ blank +:+
            "Global alignment no. 2:" +:+ nl +:+ "AA" +:+ nl +:+ "-A" +:+ nl +:+ "Score: -1")).
Proof. by vm_compute. Qed.

(** The block of a pair without the blank line that follows it. *)
Definition report_entry (self : SequenceAlignment) (score : Z) (i : nat)
    (a : string * string) : string :=
  capitalize (strategy self) +:+ " alignment no. " +:+ pretty (Z.of_nat i + 1) +:+ ":" +:+ nl
  +:+ fst a +:+ nl +:+ snd a +:+ nl +:+ "Score: " +:+ pretty score.

Lemma report_block_entry self score i a :
  report_block self score i a = report_entry self score i a +:+ blank.
Proof.
  unfold report_block, report_entry, blank. by rewrite !app_assoc_str.
Qed.

(** Entries, each followed by a blank line. *)
Fixpoint trail (entries : list string) : string :=
  match entries with
  | [] => EmptyString
  | e :: entries' => e +:+ blank +:+ trail entries'
  end.

Lemma trail_snoc entries e : trail (entries ++ [e]) = trail entries +:+ e +:+ blank.
Proof.
  induction entries as [|x entries IH]; simpl.
  - by rewrite app_empty_l, app_empty_r.
  - by rewrite IH, !app_assoc_str.
Qed.

Lemma trail_concat entries :
  entries <> [] -> trail entries = String.concat blank entries +:+ blank.
Proof.
  induction entries as [|x entries IH]; [done|]. intros _.
  destruct entries as [|y entries].
  - simpl. by rewrite app_empty_r.
  - change (trail (x :: y :: entries)) with (x +:+ blank +:+ trail (y :: entries)).
    rewrite IH by done.
    change (String.concat blank (x :: y :: entries))
      with (x +:+ blank +:+ String.concat blank (y :: entries)).
    by rewrite !app_assoc_str.
Qed.

Lemma substring_app_l (s t : string) : substring 0 (String.length s) (s +:+ t) = s.
Proof.
  induction s as [|c s IH].
  - simpl. by destruct t.
  - rewrite app_cons. simpl. by rewrite IH.
Qed.

Lemma drop_last_two_blank (s : string) : drop_last_two (s +:+ blank) = s.
Proof.
  unfold drop_last_two. rewrite length_app.
  replace (String.length s + String.length blank - 2)%nat with (String.length s)
    by (change (String.length blank) with 2%nat; lia).
  apply substring_app_l.
Qed.

Lemma list_getitem_nat {A} (l : list A) (i : nat) x :
  l !! i = Some x -> list_getitem l (Z.of_nat i) = Ok x.
Proof.
  intros Hx. unfold list_getitem. rewrite py_index_nat.
  rewrite decide_True by (by eapply lookup_lt_Some). simpl. by rewrite Hx.
Qed.

Lemma report_loop self sols score (k : nat) :
  (k <= length sols)%nat ->
  foldM (fun text i =>
           a ← list_getitem sols (Z.of_nat i);
           Ok (text +:+ report_block self score i a))
        (seq 0 k) EmptyString
  = Ok (trail (imap (report_entry self score) (take k sols))).
Proof.
  induction k as [|k IH]; intros Hk; [done|].
  rewrite seq_S, foldM_app, IH by lia. simpl.
  destruct (lookup_lt_is_Some_2 sols k) as [a Ha]; [lia|].
  rewrite (list_getitem_nat _ _ _ Ha). simpl.
  rewrite (take_S_r _ _ _ Ha), imap_app. cbn [imap]. rewrite trail_snoc.
  rewrite length_take, Nat.min_l, Nat.add_0_r by lia.
  by rewrite report_block_entry.
Qed.

Lemma drop_last_two_trail (entries : list string) :
  drop_last_two (trail entries) = String.concat blank entries.
Proof.
  destruct entries as [|e entries]; [done|].
  rewrite trail_concat by done. apply drop_last_two_blank.
Qed.

(** X11.  The report never fails.  It consists of the blocks of the first
    [min(n, len(solutions))] pairs, in order and numbered from 1, joined by
    one blank line, with no line feed at the end; it is empty when there is
    nothing to report. *)
Theorem report_is_join (self : SequenceAlignment) (sols : list (string * string))
    (score n : Z) :
  _print_and_save_solutions self sols score n =
  Ok (String.concat blank
        (imap (report_entry self score)
              (take (Z.to_nat (Z.min n (Z.of_nat (length sols)))) sols))).
Proof.
  unfold _print_and_save_solutions. rewrite report_loop by lia. simpl. f_equal.
  destruct (imap _ _) as [|e entries] eqn:He; [done|].
  rewrite trail_concat by done. apply drop_last_two_blank.
Qed.

(** X12.  In a whole run every pair returned by the enumeration is
    reported: the report is the join of the blocks of all returned pairs. *)
Theorem run_reports_all (self : SequenceAlignment) (fuel : nat) (n : Z)
    (res : list (string * string)) (score : Z) :
  find_optimal_alignments self fuel n = Some (Ok (res, score)) ->
  find_optimal_alignments_report self fuel n =
  Some (Ok (String.concat blank (imap (report_entry self score) res))).
Proof.
  intros Hrun. unfold find_optimal_alignments_report. rewrite Hrun.
  unfold _print_and_save_solutions. rewrite report_loop by lia. simpl.
  rewrite drop_last_two_trail. do 3 f_equal.
  unfold find_optimal_alignments in Hrun. simpl in Hrun.
  destruct (_create_score_and_directional_matrices self) as [[SM DM]|e]; [|done].
  apply traceback_inv in Hrun as (states & sols & _ & Hloop & ->).
  pose proof (traceback_loop_size self SM DM n fuel states ∅ sols Hloop) as Hsize.
  rewrite size_empty in Hsize. rewrite <- sorted_reverse_length in Hsize.
  rewrite take_ge by lia. done.
Qed.

Lemma run_reports_all_witness :
  find_optimal_alignments (mock "AA" "A" "global" (-2)) 20 1 =
    Some (Ok ([("AA", "A-")], -1)) /\
  find_optimal_alignments_report (mock "AA" "A" "global" (-2)) 20 1 =
    Some (Ok (String.concat blank
                (imap (report_entry (mock "AA" "A" "global" (-2)) (-1)) [("AA", "A-")]))).
Proof.
  assert (find_optimal_alignments (mock "AA" "A" "global" (-2)) 20 1 =
    Some (Ok ([("AA", "A-")], -1))) as Hr by (by vm_compute).
  split; [exact Hr|]. exact (run_reports_all _ _ _ _ _ Hr).
Defined.

(** ** Columns of the returned pairs *)

(** Two strings of the same length without a column of two gap symbols. *)
Fixpoint no_double_gap (a1 a2 : string) : bool :=
  match a1, a2 with
  | EmptyString, EmptyString => true
  | String c1 r1, String c2 r2 =>
      negb (Ascii.eqb c1 "-" && Ascii.eqb c2 "-") && no_double_gap r1 r2
  | _, _ => false
  end.

Lemma no_double_gap_snoc a1 a2 c1 c2 :
  no_double_gap a1 a2 = true ->
  Ascii.eqb c1 "-" && Ascii.eqb c2 "-" = false ->
  no_double_gap (a1 +:+ String c1 EmptyString) (a2 +:+ String c2 EmptyString) = true.
Proof.
  revert a2. induction a1 as [|x1 a1 IH]; intros [|x2 a2] H Hc; try done.
  - rewrite !app_empty_l. simpl. by rewrite Hc.
  - rewrite !app_cons. simpl in *. apply andb_true_iff in H as [-> H]. simpl. by apply IH.
Qed.

Lemma length_strip_gaps (s : string) : (String.length (strip_gaps s) <= String.length s)%nat.
Proof. induction s as [|c s IH]; simpl; [lia|]. destruct (Ascii.eqb c "-"); simpl; lia. Qed.

Section Columns.
Variable self : SequenceAlignment.
Variable SM : matrix Z.
Variable DM : matrix DirectionalCell.
Hypothesis Hbuilt : built self (SM, DM).
Hypothesis Hgap1 : no_gap (seq1 self).
Hypothesis Hgap2 : no_gap (seq2 self).

Definition columns_ok (s : state) : Prop :=
  let '(posY, posX, p1, p2) := s in
  in_range self s /\
  no_double_gap p1 p2 = true /\
  (String.length p1 + Z.to_nat posY + Z.to_nat posX <=
   String.length (seq1 self) + String.length (seq2 self))%nat.

Definition pair_wf (a : string * string) : Prop :=
  no_double_gap (fst a) (snd a) = true /\
  (String.length (fst a) <= String.length (seq1 self) + String.length (seq2 self))%nat.

Definition columns_inv (states : list state) (sols : gset (string * string)) : Prop :=
  Forall columns_ok states /\ forall a, a ∈ sols -> pair_wf a.

Lemma columns_ok_next cell posY posX p1 p2 s' :
  columns_ok (posY, posX, p1, p2) ->
  mat_lookup DM (Z.to_nat posY) (Z.to_nat posX) = Some cell ->
  s' ∈ next_states self cell (posY, posX, p1, p2) ->
  columns_ok s'.
Proof.
  intros (Hin & Hcols & Hlen) Hcell Hs'.
  destruct (next_states_in_range self _ _ Hbuilt cell posY posX p1 p2 s' Hin Hcell Hs')
    as [Hin' _].
  destruct (flags_sound self _ Hbuilt _ _ _ Hcell) as (Hu & Hl & Hd). simpl in Hu, Hl, Hd.
  destruct Hin as [HY HX]. unfold next_states in Hs'.
  apply elem_of_app in Hs' as [Hs'|Hs']; [|apply elem_of_app in Hs' as [Hs'|Hs']].
  - destruct (diagonal cell); [|by apply elem_of_nil in Hs'].
    apply list_elem_of_singleton in Hs' as ->. destruct Hd as [Hd1 Hd2]; [done|].
    destruct (strip_sym1 self Hgap1 posY) as (x1 & Hx1 & Hs1 & _); [lia|].
    destruct (strip_sym2 self Hgap2 posX) as (x2 & Hx2 & Hs2 & _); [lia|].
    rewrite Hs1, Hs2. split; [by rewrite <- Hs1, <- Hs2|]. split.
    + apply no_double_gap_snoc; [done|].
      destruct (Ascii.eqb_spec x1 "-") as [->|]; [by apply Hgap1 in Hx1|done].
    + rewrite length_app. simpl. lia.
  - destruct (up cell); [|by apply elem_of_nil in Hs'].
    apply list_elem_of_singleton in Hs' as ->. specialize (Hu eq_refl).
    destruct (strip_sym1 self Hgap1 posY) as (x1 & Hx1 & Hs1 & _); [lia|].
    rewrite Hs1. split; [by rewrite <- Hs1|]. split.
    + apply no_double_gap_snoc; [done|].
      destruct (Ascii.eqb_spec x1 "-") as [->|]; [by apply Hgap1 in Hx1|done].
    + rewrite length_app. simpl. lia.
  - destruct (left cell); [|by apply elem_of_nil in Hs'].
    apply list_elem_of_singleton in Hs' as ->. specialize (Hl eq_refl).
    destruct (strip_sym2 self Hgap2 posX) as (x2 & Hx2 & Hs2 & _); [lia|].
    rewrite Hs2. split; [by rewrite <- Hs2|]. split.
    + apply no_double_gap_snoc; [done|].
      destruct (Ascii.eqb_spec x2 "-") as [->|]; [by apply Hgap2 in Hx2|].
      by rewrite andb_false_r.
    + rewrite length_app. simpl. lia.
Qed.

Lemma columns_loop fuel n_max states sols res :
  columns_inv states sols ->
  traceback_loop self SM DM fuel n_max states sols = Some (Ok res) ->
  forall a, a ∈ res -> pair_wf a.
Proof.
  intros Hinv Hloop.
  pose proof (traceback_loop_rule self _ _ Hbuilt n_max columns_inv) as R.
  lapply R; [clear R; intros R|].
  - lapply R; [clear R; intros R|].
    + specialize (R fuel states sols Hinv). rewrite Hloop in R.
      by destruct R as (states' & [_ Hsols] & _).
    + intros posY posX p1 p2 sts sls cell sc [Hall Hsols] _ Hcell _.
      apply Forall_cons in Hall as [Hs Hall].
      destruct (finished self cell sc).
      * split; [done|]. intros a Ha. apply elem_of_union in Ha as [Ha|Ha]; [|by apply Hsols].
        apply elem_of_singleton in Ha as ->. destruct Hs as (_ & ? & ?). split; simpl; [done|lia].
      * split; [|done]. apply Forall_app. split; [|done].
        apply Forall_forall. intros s' Hs'. by eapply columns_ok_next.
  - intros [[[posY posX] p1] p2] sts sls [Hall _].
    apply Forall_cons in Hall as [Hs _]. apply Hs.
Qed.

End Columns.

(** X13.  For sequences without the gap symbol, no returned pair has a
    column that sets a gap against a gap, and a returned pair has at most
    [len(seq1) + len(seq2)] columns. *)
Theorem returned_pairs_wellformed (self : SequenceAlignment) (SM : matrix Z)
    (DM : matrix DirectionalCell) (fuel : nat) (n_max : Z)
    (res : list (string * string)) (score : Z) (a1 a2 : string) :
  _create_score_and_directional_matrices self = Ok (SM, DM) ->
  gap_free (seq1 self) = true ->
  gap_free (seq2 self) = true ->
  _traceback self SM DM fuel n_max = Some (Ok (res, score)) ->
  (a1, a2) ∈ res ->
  no_double_gap a1 a2 = true /\
  (String.length a1 <= String.length (seq1 self) + String.length (seq2 self))%nat.
Proof.
  intros Hbuild Hg1 Hg2 Hrun Hin. apply build_built in Hbuild.
  apply gap_free_no_gap in Hg1, Hg2.
  apply traceback_inv in Hrun as (states & sols & Hinit & Hloop & ->).
  apply elem_of_sorted_reverse in Hin.
  apply (columns_loop self SM DM Hbuild Hg1 Hg2 fuel n_max states ∅ sols
           ) with (a := (a1, a2)); [|done..].
  split; [|intros a Ha; by apply not_elem_of_empty in Ha]. apply Forall_forall. intros s Hs.
  destruct (initial_states_cells self _ _ Hbuild _ states s Hinit Hs)
    as (i & j & -> & Hi & Hj & _).
  split; [simpl; lia|]. split; [done|]. simpl. lia.
Qed.

Lemma returned_pairs_wellformed_witness :
  _create_score_and_directional_matrices (mock "AA" "A" "global" (-2)) =
    Ok ([[0; -2]; [-2; 1]; [-4; -1]],
        [[cell_none; cell_left]; [cell_up; cell_diagonal]; [cell_up; new_cell true true false]])
  /\ gap_free "AA" = true /\ gap_free "A" = true /\
  _traceback (mock "AA" "A" "global" (-2)) [[0; -2]; [-2; 1]; [-4; -1]]
    [[cell_none; cell_left]; [cell_up; cell_diagonal]; [cell_up; new_cell true true false]]
    100 5 = Some (Ok ([("AA", "A-"); ("AA", "-A")], -1)) /\
  no_double_gap "AA" "-A" = true.
Proof.
  assert (_create_score_and_directional_matrices (mock "AA" "A" "global" (-2)) =
    Ok ([[0; -2]; [-2; 1]; [-4; -1]],
        [[cell_none; cell_left]; [cell_up; cell_diagonal]; [cell_up; new_cell true true false]]))
    as Hb by (by vm_compute).
  assert (_traceback (mock "AA" "A" "global" (-2)) [[0; -2]; [-2; 1]; [-4; -1]]
    [[cell_none; cell_left]; [cell_up; cell_diagonal]; [cell_up; new_cell true true false]]
    100 5 = Some (Ok ([("AA", "A-"); ("AA", "-A")], -1))) as Hr by (by vm_compute).
  split; [exact Hb|]. do 2 (split; [reflexivity|]). split; [exact Hr|].
  destruct (returned_pairs_wellformed _ _ _ _ _ _ _ "AA" "-A" Hb eq_refl eq_refl Hr) as [H _].
  - apply elem_of_cons. right. apply elem_of_cons. by left.
  - exact H.
Defined.

(** ** From the table to the report *)

(** [SequenceAlignment(seq1, seq2, input_filepath, strategy, gap_penalty)],
    with the loops of the loader run on the parsed table. *)
Definition SequenceAlignment_init (s1 s2 : string) (rows cols : string) (grid : matrix Z)
    (strat : string) (gap : Z) : result SequenceAlignment :=
  t ← _load_substitution_matrix rows cols grid;
  Ok (mkSequenceAlignment s1 s2 strat gap t).

(** The last two statements of [needleman_wunsch.py] and of
    [smith_waterman.py], which differ in the strategy they pass: the object
    is constructed and [find_optimal_alignments] is called.  The command
    line is parsed before them, the table is given as the loader has parsed
    it, and the result is the text of the report, which the code prints
    before it opens the output file. *)
Definition script_body (strat : string) (s1 s2 : string) (n : Z) (rows cols : string)
    (grid : matrix Z) (gap : Z) (fuel : nat) : option (result string) :=
  match SequenceAlignment_init s1 s2 rows cols grid strat gap with
  | Raise e => Some (Raise e)
  | Ok sequence_alignment => find_optimal_alignments_report sequence_alignment fuel n
  end.

(** Every symbol of [s] is a label of the table. *)
Definition covers (labels s : string) : bool :=
  forallb (fun c => existsb (Ascii.eqb c) (list_ascii_of_string labels))
          (list_ascii_of_string s).

Lemma last_occurrence (s : string) (c : ascii) (k : nat) :
  (exists i, (i < k)%nat /\ String.get i s = Some c) ->
  exists i, last_before s k i c.
Proof.
  induction k as [|k IH]; intros (i & Hi & Hget); [lia|].
  destruct (decide (String.get k s = Some c)) as [Hk|Hk].
  - exists k. split; [lia|]. split; [done|]. intros j Hj. lia.
  - destruct IH as (i' & Hi' & Hget' & Hlast).
    + exists i. split; [|done]. destruct (decide (i = k)) as [->|]; [done|lia].
    + exists i'. split; [lia|]. split; [done|]. intros j Hj.
      destruct (decide (j = k)) as [->|]; [done|]. apply Hlast. lia.
Qed.

Lemma covers_occurs labels s i c :
  covers labels s = true -> String.get i s = Some c ->
  exists k, last_before labels (String.length labels) k c.
Proof.
  unfold covers. rewrite forallb_forall. intros Hcov Hget.
  rewrite <- get_list_ascii in Hget.
  apply list_elem_of_lookup_2, list_elem_of_In, Hcov, existsb_exists in Hget
    as (x & Hx & Heq).
  apply Ascii.eqb_eq in Heq as <-.
  apply list_elem_of_In, list_elem_of_lookup in Hx as [k Hk].
  rewrite get_list_ascii in Hk. apply last_occurrence. exists k.
  split; [by eapply get_Some_lt|done].
Qed.

Lemma covers_scored (s1 s2 rows cols : string) (grid : matrix Z) (strat : string)
    (gap : Z) (t : gmap ascii (gmap ascii Z)) :
  _load_substitution_matrix rows cols grid = Ok t ->
  covers rows s1 = true -> covers cols s2 = true ->
  pairs_scored (mkSequenceAlignment s1 s2 strat gap t) = true.
Proof.
  intros Hload Hc1 Hc2. pose proof (load_loops rows cols grid) as L.
  rewrite Hload in L. destruct L as (_ & Lget & _).
  unfold pairs_scored. apply forallb_forall. intros [i c1] Hi.
  apply forallb_forall. intros [j c2] Hj. simpl.
  apply list_elem_of_In, list_elem_of_lookup in Hi as [i' Hi].
  apply list_elem_of_In, list_elem_of_lookup in Hj as [j' Hj].
  apply enumerate_lookup in Hi as (x1 & Hx1 & [= -> ->]).
  apply enumerate_lookup in Hj as (x2 & Hx2 & [= -> ->]).
  destruct (covers_occurs rows s1 i' x1 Hc1 Hx1) as [k1 Hk1].
  destruct (covers_occurs cols s2 j' x2 Hc2 Hx2) as [k2 Hk2].
  destruct (Lget k1 k2 x1 x2 Hk1 Hk2) as (v & _ & Hv). by rewrite Hv.
Qed.

(** X14.  Once the table is parsed into its labels and an [int64] array of
    [r] rows and [c] columns, what either script does up to the report
    text fails in three ways only, and never with the configuration error:
    [IndexError] from the loops of the loader, when a label string is
    longer than the array; [OverflowError] from the construction, when an
    edge score does not fit; [TypeError] from the construction, which takes
    a symbol of a sequence that is no label.  When the labels stay within
    the array and cover the symbols of the two sequences, and the edge
    scores fit, the report text is produced. *)
Theorem script_outcome (strat s1 s2 : string) (n : Z) (rows cols : string)
    (grid : matrix Z) (gap : Z) (r c : nat) :
  int64_array grid r c ->
  strat = "global" \/ strat = "local" ->
  (forall fuel e,
     script_body strat s1 s2 n rows cols grid gap fuel = Some (Raise e) ->
     (e = IndexError /\ rows <> "" /\ cols <> "" /\
      (r < String.length rows \/ c < String.length cols)%nat) \/
     (e = OverflowError /\ edges_fit (mkSequenceAlignment s1 s2 strat gap ∅) = false) \/
     (e = TypeError /\ ~ (covers rows s1 = true /\ covers cols s2 = true))) /\
  (rows = "" \/ cols = "" \/
   (String.length rows <= r /\ String.length cols <= c)%nat ->
   covers rows s1 = true -> covers cols s2 = true ->
   edges_fit (mkSequenceAlignment s1 s2 strat gap ∅) = true ->
   exists fuel text,
     script_body strat s1 s2 n rows cols grid gap fuel = Some (Ok text)).
Proof.
  intros Harr Hstrat. unfold script_body, SequenceAlignment_init.
  pose proof (load_shape rows cols grid r c (proj1 Harr)) as Lsh.
  destruct (_load_substitution_matrix rows cols grid) as [t|e0] eqn:Hload; simpl.
  2:{ split.
      - intros _ e [= <-]. by left.
      - intros Hin. destruct Lsh as (_ & Hr & Hc & Hlt).
        destruct Hin as [?|[?|[? ?]]]; [done|done|lia]. }
  set (self := mkSequenceAlignment s1 s2 strat gap t).
  unfold find_optimal_alignments_report, find_optimal_alignments.
  destruct (_create_score_and_directional_matrices self) as [[SM DM]|e'] eqn:Hb.
  2:{ destruct (build_raise_cases _ _ Hb) as [[-> Hfit]|(-> & Hfit & Hps)]; split.
      - intros _ e [= <-]. right. left. done.
      - intros _ _ _ Hfit'. change (edges_fit self = true) in Hfit'. congruence.
      - intros _ e [= <-]. right. right. split; [done|]. intros [Hc1 Hc2].
        pose proof (covers_scored s1 s2 rows cols grid strat gap t Hload Hc1 Hc2) as Hs.
        change (pairs_scored self = true) in Hs. congruence.
      - intros _ Hc1 Hc2 _.
        pose proof (covers_scored s1 s2 rows cols grid strat gap t Hload Hc1 Hc2) as Hs.
        change (pairs_scored self = true) in Hs. congruence. }
  apply build_built in Hb. cbn [fst snd].
  assert (exists mx states, initial_states self SM DM = Ok (mx, states)) as (mx & states & Hinit).
  { destruct Hstrat as [Hs|Hs].
    - destruct (initial_states_global self _ _ Hb Hs) as (top & _ & ->). eauto.
    - destruct (initial_states_local self _ _ Hb Hs) as (mx & -> & _). eauto. }
  split.
  - intros fuel e. destruct (_traceback self SM DM fuel n) as [r0|] eqn:Hr; [|done].
    destruct (traceback_no_raise self _ _ Hb n _ _ fuel r0 Hinit Hr) as [res ->].
    unfold _print_and_save_solutions. rewrite report_loop by lia. done.
  - intros _ _ _ _. destruct (traceback_total self _ _ Hb n _ _ Hinit) as [sols Hrun].
    exists (measure states). rewrite Hrun.
    unfold _print_and_save_solutions. rewrite report_loop by lia. simpl. eauto.
Qed.

Lemma script_outcome_witness :
  int64_array
    [[1; -1; -2; -1]; [-1; 1; -1; -2]; [-2; -1; 1; -1]; [-1; -2; -1; 1]] 4 4 /\
  covers "ACGT" "GATTACA" = true /\ covers "ACGT" "GCATGCT" = true /\
  exists fuel text,
    script_body "global" "GATTACA" "GCATGCT" 3 "ACGT" "ACGT"
    [[1; -1; -2; -1]; [-1; 1; -1; -2]; [-2; -1; 1; -1]; [-1; -2; -1; 1]] (-2) fuel
    = Some (Ok text).
Proof.
  assert (int64_array
    [[1; -1; -2; -1]; [-1; 1; -1; -2]; [-2; -1; 1; -1]; [-1; -2; -1; 1]] 4 4) as Harr.
  { split; [split; [reflexivity|]|]; repeat constructor. }
  split; [exact Harr|]. split; [by vm_compute|]. split; [by vm_compute|].
  destruct (script_outcome "global" "GATTACA" "GCATGCT" 3 "ACGT" "ACGT"
    [[1; -1; -2; -1]; [-1; 1; -1; -2]; [-2; -1; 1; -1]; [-1; -2; -1; 1]] (-2) 4 4 Harr)
    as [_ H]; [by left|].
  apply H; [right; right; simpl; lia|by vm_compute..].
Defined.
